(** * A persistent hash array mapped trie: the node algebra of [hamt.py]

    The development embeds the Python module [hamt/hamt.py] as Rocq
    functions and states the properties of its specification over them.

    - Python integers are [Z]; the bit operations [>>], [<<], [&], [|], [~]
      are [Z.shiftr], [Z.shiftl], [Z.land], [Z.lor], [Z.lnot] (Python
      integers are unbounded two's complement numbers, as [Z] is).
    - A shift count is an [N]: the facade passes [0], every recursive call
      passes [shift + 5], and Python rejects a negative shift count.
    - A slot array is a flat [list obj], as in the source: even positions
      hold a key or a child node, odd positions a value or the [None]
      sentinel of a subtrie pair.
    - An exception is a [Raise] result; [KeyError] is the user-visible one,
      [IndexError] is what a list access out of range raises. *)

From Stdlib Require Import ZArith NArith List Lia Bool.
Import ListNotations.
Open Scope Z_scope.

(** ** Results and exceptions *)

(** [AttributeError]: a method or field asked of an object that has none. *)
Inductive exn := KeyError | IndexError | RecursionError | AttributeError.

Inductive result (A : Type) := Ok (a : A) | Raise (e : exn).
Arguments Ok {A} a.
Arguments Raise {A} e.

Definition bind {A B} (r : result A) (f : A -> result B) : result B :=
  match r with Ok a => f a | Raise e => Raise e end.

Notation "x <- r ;; k" := (bind r (fun x => k))
  (at level 61, r at next level, right associativity).

(** ** Python values

    A key is observed by the trie through [hash] and [==] only, a value
    through [is] only.  [KObj h i] is a hashable object whose hash is [h];
    two such objects are [==] exactly when they carry the same [h] and [i]
    (equal objects have equal hashes).  [VObj i] is the object of identity
    [i].  [None] is a key and a value like any other. *)

Inductive key := KNone | KObj (h i : Z).
Inductive value := VNone | VObj (i : Z).

(** What a slot of an array may hold. *)
Inductive obj :=
| ONone
| OKey (h i : Z)
| OVal (i : Z)
| ONode (n : node)
with node :=
| BitmapNode (_bitmap : Z) (_array : list obj)
| CollisionNode (_items : list obj).

Definition key_obj (k : key) : obj :=
  match k with KNone => ONone | KObj h i => OKey h i end.

Definition val_obj (v : value) : obj :=
  match v with VNone => ONone | VObj i => OVal i end.

(** [hash(None)] is a constant of the interpreter (this one is CPython
    3.12's); no general statement below depends on its value. *)
Definition hash_None : Z := 0xFCA86420.

Definition hash (k : key) : Z :=
  match k with KNone => hash_None | KObj h _ => h end.

(** [hash] of the content of a key slot.  A well-formed array holds a key
    there; the last case is never evaluated on one. *)
Definition hash_obj (o : obj) : Z :=
  match o with ONone => hash_None | OKey h _ => h | _ => 0 end.

(** [x == key], for a slot content [x] that is not a node. *)
Definition py_eq (x : obj) (k : key) : bool :=
  match x, k with
  | ONone, KNone => true
  | OKey h i, KObj h' i' => (h =? h') && (i =? i')
  | _, _ => false
  end.

(** [x is value]. *)
Definition py_is (x : obj) (v : value) : bool :=
  match x, v with
  | ONone, VNone => true
  | OVal i, VObj j => i =? j
  | _, _ => false
  end.

Definition is_None (x : obj) : bool :=
  match x with ONone => true | _ => false end.

(** ** Python lists

    [item k l n] is [k (l[n])]: the continuation form lets [find], [assoc]
    and [without] recurse structurally into the node they read.  Every
    index the trie computes is non-negative. *)

Definition item {A} (k : obj -> result A) : list obj -> nat -> result A :=
  fix go l n :=
    match l, n with
    | [], _ => Raise IndexError
    | x :: _, O => k x
    | _ :: l', S n' => go l' n'
    end.

Definition getitem (l : list obj) (n : Z) : result obj := item Ok l (Z.to_nat n).

Fixpoint setitem (l : list obj) (n : nat) (x : obj) : result (list obj) :=
  match l, n with
  | [], _ => Raise IndexError
  | _ :: l', O => Ok (x :: l')
  | y :: l', S n' => l'' <- setitem l' n' x ;; Ok (y :: l'')
  end.

(** [l[n] = x] on a copy of [l]. *)
Definition set_item (l : list obj) (n : Z) (x : obj) : result (list obj) :=
  setitem l (Z.to_nat n) x.

(** [l[:n]] and [l[n:]]. *)
Definition slice_to (l : list obj) (n : Z) : list obj := firstn (Z.to_nat n) l.
Definition slice_from (l : list obj) (n : Z) : list obj := skipn (Z.to_nat n) l.

(** ** Hash slicing *)

Definition _popcount (x : Z) : Z :=
  let x := x - Z.land (Z.shiftr x 1) 0x55555555 in
  let x := Z.land x 0x33333333 + Z.land (Z.shiftr x 2) 0x33333333 in
  let x := Z.land (x + Z.shiftr x 4) 0x0f0f0f0f in
  let x := x + Z.shiftr x 8 in
  let x := x + Z.shiftr x 16 in
  Z.land x 0x3f.

(** [(hash_val >> shift) & 0x1f] *)
Definition slice (shift : N) (hash_val : Z) : Z :=
  Z.land (Z.shiftr hash_val (Z.of_N shift)) 0x1f.

(** [1 << ((hash_val >> shift) & 0x1f)] *)
Definition bitpos (shift : N) (hash_val : Z) : Z :=
  Z.shiftl 1 (slice shift hash_val).

(** ** Nodes *)

(** The loop [for i in range(0, len(items), 2): if items[i] == key]:
    the first even index, counted from [i], whose entry equals the key. *)
Fixpoint index_of (items : list obj) (i : Z) (k : key) : option Z :=
  match items with
  | [] => None
  | x :: rest =>
      if py_eq x k then Some i else
      match rest with
      | [] => None
      | _ :: rest' => index_of rest' (i + 2) k
      end
  end.

Fixpoint find (self : node) (shift : N) (hash_val : Z) (k : key) : result obj :=
  match self with
  | BitmapNode _bitmap _array =>
      let bit := bitpos shift hash_val in
      if Z.land _bitmap bit =? 0 then Raise KeyError else
      let idx := _popcount (Z.land _bitmap (bit - 1)) in
      item (fun node_or_val =>
        match node_or_val with
        | ONone =>
            key_or_null <- getitem _array (idx * 2) ;;
            val_or_node <- getitem _array (idx * 2 + 1) ;;
            if py_eq key_or_null k then Ok val_or_node else Raise KeyError
        | ONode n => find n (shift + 5) hash_val k
        | _ =>
            if py_eq node_or_val k then getitem _array (idx * 2 + 1)
            else Raise KeyError
        end) _array (Z.to_nat (idx * 2))
  | CollisionNode _items =>
      match index_of _items 0 k with
      | Some i => getitem _items (i + 1)
      | None => Raise KeyError
      end
  end.

(** The interpreter's bound on the depth of nested calls
    ([sys.getrecursionlimit()]); [_create_node] is the one function whose
    recursion is not on the structure of a node. *)
Definition recursion_limit : nat := 1000.

Fixpoint _create_node (depth : nat) (shift : N) (key1 val1 : obj) (hash2 : Z)
  (key2 val2 : obj) : option node :=
  match depth with
  | O => None
  | S depth' =>
      let hash1 := hash_obj key1 in
      if (25 <? shift)%N then Some (CollisionNode [key1; val1; key2; val2]) else
      let mask1 := slice shift hash1 in
      let mask2 := slice shift hash2 in
      if mask1 =? mask2 then
        match _create_node depth' (shift + 5) key1 val1 hash2 key2 val2 with
        | Some node =>
            let bitmap := Z.shiftl 1 mask1 in
            Some (BitmapNode bitmap [ONode node; ONone])
        | None => None
        end
      else
        let bitmap := Z.lor (Z.shiftl 1 mask1) (Z.shiftl 1 mask2) in
        if mask1 <? mask2 then Some (BitmapNode bitmap [key1; val1; key2; val2])
        else Some (BitmapNode bitmap [key2; val2; key1; val1])
  end.

(** [assoc] returns [self] or a freshly built node; a fresh node is
    identical ([is]) to no node that existed before the call. *)
Inductive assoc_result := Self | New (n : node).

Fixpoint assoc (self : node) (shift : N) (hash_val : Z) (k : key) (v : value)
  : result assoc_result :=
  match self with
  | BitmapNode _bitmap _array =>
      let bit := bitpos shift hash_val in
      let idx := _popcount (Z.land _bitmap (bit - 1)) in
      if negb (Z.land _bitmap bit =? 0) then
        item (fun key_or_node =>
          val_or_node <- getitem _array (idx * 2 + 1) ;;
          if is_None key_or_node && is_None val_or_node then Ok Self else
          match key_or_node with
          | ONode n =>
              new_node <- assoc n (shift + 5) hash_val k v ;;
              match new_node with
              | Self => Ok Self
              | New n' =>
                  new_array <- set_item _array (idx * 2) (ONode n') ;;
                  Ok (New (BitmapNode _bitmap new_array))
              end
          | _ =>
              if py_eq key_or_node k then
                if py_is val_or_node v then Ok Self else
                new_array <- set_item _array (idx * 2 + 1) (val_obj v) ;;
                Ok (New (BitmapNode _bitmap new_array))
              else
                new_node <-
                  (if (25 <=? shift)%N then
                     Ok (CollisionNode [key_or_node; val_or_node; key_obj k; val_obj v])
                   else
                     match _create_node recursion_limit (shift + 5) key_or_node val_or_node
                             hash_val (key_obj k) (val_obj v) with
                     | Some n => Ok n
                     | None => Raise RecursionError
                     end) ;;
                new_array <- set_item _array (idx * 2) (ONode new_node) ;;
                new_array <- set_item new_array (idx * 2 + 1) ONone ;;
                Ok (New (BitmapNode _bitmap new_array))
          end) _array (Z.to_nat (idx * 2))
      else
        let n := _popcount _bitmap in
        let new_array := repeat ONone (Z.to_nat (2 * (n + 1))) in
        let new_array := slice_to _array (idx * 2) ++ slice_from new_array (idx * 2) in
        new_array <- set_item new_array (idx * 2) (key_obj k) ;;
        new_array <- set_item new_array (idx * 2 + 1) (val_obj v) ;;
        let new_array := slice_to new_array (idx * 2 + 2) ++ slice_from _array (idx * 2) in
        Ok (New (BitmapNode (Z.lor _bitmap bit) new_array))
  | CollisionNode _items =>
      match index_of _items 0 k with
      | Some i =>
          old <- getitem _items (i + 1) ;;
          if py_is old v then Ok Self else
          new_items <- set_item _items (i + 1) (val_obj v) ;;
          Ok (New (CollisionNode new_items))
      | None => Ok (New (CollisionNode (_items ++ [key_obj k; val_obj v])))
      end
  end.

(** [without] returns [self], [None] (the node is gone) or a fresh node. *)
Inductive without_result := Same | Gone | Node (n : node).

Fixpoint without (self : node) (shift : N) (hash_val : Z) (k : key)
  : result without_result :=
  match self with
  | BitmapNode _bitmap _array =>
      let bit := bitpos shift hash_val in
      if Z.land _bitmap bit =? 0 then Raise KeyError else
      let idx := _popcount (Z.land _bitmap (bit - 1)) in
      item (fun key_or_node =>
        val_or_node <- getitem _array (idx * 2 + 1) ;;
        match key_or_node with
        | ONode n =>
            new_node <- without n (shift + 5) hash_val k ;;
            match new_node with
            | Same => Ok Same
            | Gone =>
                if _popcount _bitmap =? 1 then Ok Gone else
                let new_array :=
                  slice_to _array (idx * 2) ++ slice_from _array (idx * 2 + 2) in
                Ok (Node (BitmapNode (Z.land _bitmap (Z.lnot bit)) new_array))
            | Node n' =>
                new_array <- set_item _array (idx * 2) (ONode n') ;;
                Ok (Node (BitmapNode _bitmap new_array))
            end
        | _ =>
            if negb (py_eq key_or_node k) then Raise KeyError else
            if _popcount _bitmap =? 1 then Ok Gone else
            let new_array :=
              slice_to _array (idx * 2) ++ slice_from _array (idx * 2 + 2) in
            Ok (Node (BitmapNode (Z.land _bitmap (Z.lnot bit)) new_array))
        end) _array (Z.to_nat (idx * 2))
  | CollisionNode _items =>
      match index_of _items 0 k with
      | Some i =>
          let new_items := slice_to _items i ++ slice_from _items (i + 2) in
          if Z.of_nat (length new_items) =? 2 then Ok Gone
          else Ok (Node (CollisionNode new_items))
      | None => Raise KeyError
      end
  end.

(** The entries at the even positions of a list. *)
Fixpoint evens (l : list obj) : list obj :=
  match l with
  | x :: _ :: l' => x :: evens l'
  | [x] => [x]
  | [] => []
  end.

(** [__iter__] of a node: the keys it yields, in order. *)
Fixpoint iter (self : node) : result (list obj) :=
  match self with
  | BitmapNode _ _array =>
      (fix loop (l : list obj) : result (list obj) :=
         match l with
         | [] => Ok []
         | key_or_node :: rest =>
             match rest with
             | [] => Raise IndexError
             | val_or_node :: rest' =>
                 ks <- match key_or_node with
                       | ONode n => iter n
                       | ONone => Ok []
                       | _ => Ok [key_or_node]
                       end ;;
                 ks' <- loop rest' ;;
                 Ok (ks ++ ks')
             end
         end) _array
  | CollisionNode _items => Ok (evens _items)
  end.

(** ** The container facade *)

Record HAMT := mkHAMT { _root : option node; _size : Z }.

(** [HAMT()] *)
Definition empty : HAMT := mkHAMT None 0.

Definition _assoc_with_added (node : option node) (shift : N) (hash_val : Z)
  (k : key) (v : value) : result (assoc_result * bool) :=
  match node with
  | None => Ok (New (BitmapNode (bitpos shift hash_val) [key_obj k; val_obj v]), true)
  | Some node =>
      match (existing <- find node shift hash_val k ;;
             new_node <- assoc node shift hash_val k v ;;
             Ok (new_node, false)) with
      | Raise KeyError =>
          new_node <- assoc node shift hash_val k v ;; Ok (new_node, true)
      | r => r
      end
  end.

(** The node an [assoc] on [self] returned. *)
Definition resolve (self : node) (r : assoc_result) : node :=
  match r with Self => self | New n => n end.

Definition get (self : HAMT) (k : key) (default : obj) : result obj :=
  match _root self with
  | None => Ok default
  | Some root =>
      match find root 0 (hash k) k with
      | Raise KeyError => Ok default
      | r => r
      end
  end.

Definition __getitem__ (self : HAMT) (k : key) : result obj :=
  match _root self with
  | None => Raise KeyError
  | Some root => find root 0 (hash k) k
  end.

Definition set (self : HAMT) (k : key) (v : value) : result HAMT :=
  match _root self with
  | None =>
      Ok (mkHAMT (Some (BitmapNode (Z.shiftl 1 (Z.land (hash k) 0x1f))
                          [key_obj k; val_obj v])) 1)
  | Some root =>
      r <- _assoc_with_added (Some root) 0 (hash k) k v ;;
      let '(new_root, added) := r in
      Ok (mkHAMT (Some (resolve root new_root))
                 (_size self + (if added then 1 else 0)))
  end.

Definition delete (self : HAMT) (k : key) : result HAMT :=
  match _root self with
  | None => Raise KeyError
  | Some root =>
      new_root <- without root 0 (hash k) k ;;
      Ok (mkHAMT (match new_root with
                  | Same => Some root
                  | Gone => None
                  | Node n => Some n
                  end)
                 (_size self - 1))
  end.

Definition __contains__ (self : HAMT) (k : key) : result bool :=
  match _root self with
  | None => Ok false
  | Some root =>
      match find root 0 (hash k) k with
      | Ok _ => Ok true
      | Raise KeyError => Ok false
      | Raise e => Raise e
      end
  end.

Definition __len__ (self : HAMT) : Z := _size self.

Definition __iter__ (self : HAMT) : result (list obj) :=
  match _root self with
  | None => Ok []
  | Some root => iter root
  end.

(** The containers a program can build: from the empty one, by [set] and
    by [delete]. *)
Inductive reachable : HAMT -> Prop :=
| reachable_empty : reachable empty
| reachable_set c k v c' : reachable c -> set c k v = Ok c' -> reachable c'
| reachable_delete c k c' : reachable c -> delete c k = Ok c' -> reachable c'.

(** ** Definitions used by the proofs *)

(** A number read as a sequence of fields of [w] bits, low field first. *)
Definition fields (w : Z) (l : list Z) : Z :=
  fold_right (fun a r => a + 2 ^ w * r) 0 l.

Definition in_field (w : Z) (a : Z) : Prop := 0 <= a < 2 ^ w.

(** Keep the fields selected by a mask, clear the others. *)
Fixpoint masked (mask : list bool) (l : list Z) : list Z :=
  match mask, l with
  | b :: mask', a :: l' => (if b then a else 0) :: masked mask' l'
  | _, _ => []
  end.

Definition mask_fields (w : Z) (mask : list bool) : Z :=
  fields w (map (fun b : bool => if b then 2 ^ w - 1 else 0) mask).

(** The mask selecting every other field. *)
Fixpoint alt (n : nat) : list bool :=
  match n with O => [] | S n' => true :: false :: alt n' end.

(** The [n] low bits of a number, low bit first. *)
Fixpoint bits (n : nat) (x : Z) : list Z :=
  match n with O => [] | S n' => x mod 2 :: bits n' (x / 2) end.

(** The 32 indices of a bitmap, and those set in [bm], in ascending
    order: the [i]-th pair of the array belongs to the [i]-th of them. *)
Definition positions : list Z := map Z.of_nat (seq 0 32).

Definition bit_positions (bm : Z) : list Z := filter (Z.testbit bm) positions.

Definition below (j : Z) : list Z := filter (fun i => i <? j) positions.
Definition above (j : Z) : list Z := filter (fun i => j <? i) positions.

(** The [shift] low bits of a hash: the part consumed above a node that
    sits at [shift]. *)
Definition low (shift : N) (h : Z) : Z := h mod 2 ^ Z.of_N shift.

(** The flat list of a sequence of key, value pairs. *)
Fixpoint flat (kvs : list (key * value)) : list obj :=
  match kvs with
  | [] => []
  | (k, v) :: kvs' => key_obj k :: val_obj v :: flat kvs'
  end.

(** Well-formed nodes.  [wf shift q n]: [n] is a node as the operations
    build it at depth [shift], below the hash prefix [q].
    - A bitmap node sits at a shift [0, 5, .., 25]; its array holds one
      pair per set bit of its bitmap, in ascending order of the bits.
    - The pair of bit [j] is a leaf pair, whose key has the prefix [q]
      and the slice [j], or a subtrie pair, whose child is well formed
      one level down below the prefix extended by [j].
    - A collision node sits below the last slice, at a shift that is a
      multiple of 5 again; its keys are pairwise different and all have
      the prefix [q]. *)
Inductive wf : N -> Z -> node -> Prop :=
| wf_BitmapNode s q bm arr :
    (s <= 25)%N -> (s mod 5 = 0)%N -> 0 <= bm < 2 ^ 32 ->
    wf_array s q (bit_positions bm) arr ->
    wf s q (BitmapNode bm arr)
| wf_CollisionNode s q kvs :
    (25 < s)%N -> (s mod 5 = 0)%N -> NoDup (map fst kvs) ->
    Forall (fun kv => low s (hash (fst kv)) = q) kvs ->
    wf s q (CollisionNode (flat kvs))
with wf_slot : N -> Z -> Z -> obj -> obj -> Prop :=
| wf_leaf s q j k v :
    low s (hash k) = q -> slice s (hash k) = j ->
    wf_slot s q j (key_obj k) (val_obj v)
| wf_sub s q j c :
    wf (s + 5) (q + 2 ^ Z.of_N s * j) c ->
    wf_slot s q j (ONode c) ONone
with wf_array : N -> Z -> list Z -> list obj -> Prop :=
| wf_array_nil s q : wf_array s q [] []
| wf_array_cons s q j js x y arr :
    wf_slot s q j x y -> wf_array s q js arr ->
    wf_array s q (j :: js) (x :: y :: arr).

Definition wf_root (r : option node) : Prop :=
  match r with None => True | Some n => wf 0 0 n end.

(** The item lists of the collision nodes of a trie. *)
Fixpoint collisions (n : node) : list (list obj) :=
  match n with
  | BitmapNode _ arr =>
      flat_map (fun x => match x with ONode c => collisions c | _ => [] end) arr
  | CollisionNode items => [items]
  end.

(** The number of entries of a trie: its leaf pairs and the pairs of its
    collision nodes. *)
Fixpoint entries (n : node) : Z :=
  match n with
  | BitmapNode _ arr =>
      (fix pairs (l : list obj) : Z :=
         match l with
         | x :: _ :: l' =>
             match x with ONode c => entries c | _ => 1 end + pairs l'
         | _ => 0
         end) arr
  | CollisionNode items => Z.of_nat (length (evens items))
  end.

Definition entries_root (r : option node) : Z :=
  match r with None => 0 | Some n => entries n end.

(** Whether a call of [find] runs, at some level, the branch of
    [BitmapNode.find] guarded by [node_or_val is None]: the same descent
    as [find], recording the branch instead of the value. *)
Fixpoint takes_None_branch (self : node) (shift : N) (hash_val : Z) (k : key) : bool :=
  match self with
  | BitmapNode _bitmap _array =>
      let bit := bitpos shift hash_val in
      if Z.land _bitmap bit =? 0 then false else
      let idx := _popcount (Z.land _bitmap (bit - 1)) in
      match item (fun node_or_val =>
               Ok (match node_or_val with
                   | ONone => true
                   | ONode n => takes_None_branch n (shift + 5) hash_val k
                   | _ => false
                   end)) _array (Z.to_nat (idx * 2)) with
      | Ok b => b
      | Raise _ => false
      end
  | CollisionNode _ => false
  end.

(** [set] of each pair in turn. *)
Definition set_all (kvs : list (key * value)) (c : HAMT) : result HAMT :=
  fold_left (fun r kv => c <- r ;; set c (fst kv) (snd kv)) kvs (Ok c).

(** The number of node levels of a trie. *)
Fixpoint height (n : node) : nat :=
  match n with
  | BitmapNode _ arr =>
      S (fold_right (fun x m => Nat.max (match x with ONode c => height c | _ => O end) m) O arr)
  | CollisionNode _ => 1
  end.

(** ** The module over an object store

    The functions above take a node for its content.  The ones below run
    the same statements over a store of objects, in which a node, a list
    and a container are objects with an identity (their address), a slot
    of a list holds [None], a key, a value or a reference, [x[i] = v]
    overwrites the list object [x], and [is] on nodes compares
    addresses.  The store tells a version that is shared from one that is
    copied, and an object that is written from one that is not. *)

Module Store.

Inductive pyval := PNone | PKey (h i : Z) | PVal (i : Z) | PRef (a : nat).

Inductive object :=
| List (items : list pyval)
| Bitmap (_bitmap : Z) (_array : nat)
| Collision (_items : nat)
| Hamt (_root : pyval) (_size : Z).

Definition store := list object.

(** A statement: from a store, to a result and a store. *)
Definition M (A : Type) : Type := store -> result A * store.

Definition ret {A} (a : A) : M A := fun st => (Ok a, st).

Definition raise {A} (e : exn) : M A := fun st => (Raise e, st).

Definition bind {A B} (m : M A) (f : A -> M B) : M B :=
  fun st =>
    match m st with
    | (Ok a, st') => f a st'
    | (Raise e, st') => (Raise e, st')
    end.

Notation "x <~ m ;; k" := (bind m (fun x => k))
  (at level 61, m at next level, right associativity).

(** A new object, at the next address. *)
Definition alloc (o : object) : M nat := fun st => (Ok (length st), st ++ [o]).

(** The object at an address; an address is read only once it is
    allocated, the error stands for a state no program reaches. *)
Definition load (a : nat) : M object :=
  fun st =>
    match nth_error st a with
    | Some o => (Ok o, st)
    | None => (Raise AttributeError, st)
    end.

Fixpoint update (st : store) (a : nat) (o : object) : store :=
  match st, a with
  | [], _ => []
  | _ :: st', O => o :: st'
  | x :: st', S a' => x :: update st' a' o
  end.

(** The object at an address is overwritten. *)
Definition write (a : nat) (o : object) : M unit := fun st => (Ok tt, update st a o).

Definition pk (k : key) : pyval :=
  match k with KNone => PNone | KObj h i => PKey h i end.

Definition pv (v : value) : pyval :=
  match v with VNone => PNone | VObj i => PVal i end.

Definition hash_of (p : pyval) : Z :=
  match p with PNone => hash_None | PKey h _ => h | _ => 0 end.

Definition py_eq (x : pyval) (k : key) : bool :=
  match x, k with
  | PNone, KNone => true
  | PKey h i, KObj h' i' => (h =? h') && (i =? i')
  | _, _ => false
  end.

Definition py_is (x : pyval) (v : value) : bool :=
  match x, v with
  | PNone, VNone => true
  | PVal i, VObj j => i =? j
  | _, _ => false
  end.

Definition is_None (x : pyval) : bool :=
  match x with PNone => true | _ => false end.

(** Lists. *)

Definition items_of (a : nat) : M (list pyval) :=
  o <~ load a ;;
  match o with
  | List l => ret l
  | _ => raise AttributeError
  end.

Fixpoint replace_nth (l : list pyval) (n : nat) (x : pyval) : option (list pyval) :=
  match l, n with
  | [], _ => None
  | _ :: l', O => Some (x :: l')
  | y :: l', S n' =>
      match replace_nth l' n' x with Some l'' => Some (y :: l'') | None => None end
  end.

(** [a[i]] *)
Definition getitem (a : nat) (i : Z) : M pyval :=
  l <~ items_of a ;;
  match nth_error l (Z.to_nat i) with
  | Some x => ret x
  | None => raise IndexError
  end.

(** [a[i] = x] *)
Definition setitem (a : nat) (i : Z) (x : pyval) : M unit :=
  l <~ items_of a ;;
  match replace_nth l (Z.to_nat i) x with
  | Some l' => write a (List l')
  | None => raise IndexError
  end.

(** [a[:]] *)
Definition copy (a : nat) : M nat := l <~ items_of a ;; alloc (List l).

(** [a[:i] = xs] and [a[i:] = xs] *)
Definition set_slice_to (a : nat) (i : Z) (xs : list pyval) : M unit :=
  l <~ items_of a ;; write a (List (xs ++ skipn (Z.to_nat i) l)).

Definition set_slice_from (a : nat) (i : Z) (xs : list pyval) : M unit :=
  l <~ items_of a ;; write a (List (firstn (Z.to_nat i) l ++ xs)).

Fixpoint index_of (items : list pyval) (i : Z) (k : key) : option Z :=
  match items with
  | [] => None
  | x :: rest =>
      if py_eq x k then Some i else
      match rest with
      | [] => None
      | _ :: rest' => index_of rest' (i + 2) k
      end
  end.

Fixpoint evens (l : list pyval) : list pyval :=
  match l with
  | x :: _ :: l' => x :: evens l'
  | [x] => [x]
  | [] => []
  end.

(** Nodes.  [depth] bounds the nested calls, as the interpreter does. *)

Fixpoint find (depth : nat) (self : nat) (shift : N) (hash_val : Z) (k : key) : M pyval :=
  match depth with
  | O => raise RecursionError
  | S depth' =>
      o <~ load self ;;
      match o with
      | Bitmap _bitmap _array =>
          let bit := bitpos shift hash_val in
          if Z.land _bitmap bit =? 0 then raise KeyError else
          let idx := _popcount (Z.land _bitmap (bit - 1)) in
          node_or_val <~ getitem _array (idx * 2) ;;
          match node_or_val with
          | PNone =>
              key_or_null <~ getitem _array (idx * 2) ;;
              val_or_node <~ getitem _array (idx * 2 + 1) ;;
              if py_eq key_or_null k then ret val_or_node else raise KeyError
          | PRef n => find depth' n (shift + 5) hash_val k
          | _ =>
              if py_eq node_or_val k then getitem _array (idx * 2 + 1)
              else raise KeyError
          end
      | Collision _items =>
          l <~ items_of _items ;;
          match index_of l 0 k with
          | Some i => getitem _items (i + 1)
          | None => raise KeyError
          end
      | _ => raise AttributeError
      end
  end.

Fixpoint _create_node (depth : nat) (shift : N) (key1 val1 : pyval) (hash2 : Z)
  (key2 val2 : pyval) : M nat :=
  match depth with
  | O => raise RecursionError
  | S depth' =>
      let hash1 := hash_of key1 in
      if (25 <? shift)%N then
        items <~ alloc (List [key1; val1; key2; val2]) ;;
        alloc (Collision items)
      else
      let mask1 := slice shift hash1 in
      let mask2 := slice shift hash2 in
      if mask1 =? mask2 then
        node <~ _create_node depth' (shift + 5) key1 val1 hash2 key2 val2 ;;
        let bitmap := Z.shiftl 1 mask1 in
        array <~ alloc (List [PRef node; PNone]) ;;
        alloc (Bitmap bitmap array)
      else
        let bitmap := Z.lor (Z.shiftl 1 mask1) (Z.shiftl 1 mask2) in
        if mask1 <? mask2 then
          array <~ alloc (List [key1; val1; key2; val2]) ;;
          alloc (Bitmap bitmap array)
        else
          array <~ alloc (List [key2; val2; key1; val1]) ;;
          alloc (Bitmap bitmap array)
  end.

Fixpoint assoc (depth : nat) (self : nat) (shift : N) (hash_val : Z) (k : key) (v : value)
  : M nat :=
  match depth with
  | O => raise RecursionError
  | S depth' =>
      o <~ load self ;;
      match o with
      | Bitmap _bitmap _array =>
          let bit := bitpos shift hash_val in
          let idx := _popcount (Z.land _bitmap (bit - 1)) in
          if negb (Z.land _bitmap bit =? 0) then
            key_or_node <~ getitem _array (idx * 2) ;;
            val_or_node <~ getitem _array (idx * 2 + 1) ;;
            if is_None key_or_node && is_None val_or_node then ret self else
            match key_or_node with
            | PRef n =>
                new_node <~ assoc depth' n (shift + 5) hash_val k v ;;
                if (new_node =? n)%nat then ret self else
                new_array <~ copy _array ;;
                _ <~ setitem new_array (idx * 2) (PRef new_node) ;;
                alloc (Bitmap _bitmap new_array)
            | _ =>
                if py_eq key_or_node k then
                  if py_is val_or_node v then ret self else
                  new_array <~ copy _array ;;
                  _ <~ setitem new_array (idx * 2 + 1) (pv v) ;;
                  alloc (Bitmap _bitmap new_array)
                else
                  new_node <~
                    (if (25 <=? shift)%N then
                       items <~ alloc (List [key_or_node; val_or_node; pk k; pv v]) ;;
                       alloc (Collision items)
                     else
                       _create_node recursion_limit (shift + 5) key_or_node val_or_node
                         hash_val (pk k) (pv v)) ;;
                  new_array <~ copy _array ;;
                  _ <~ setitem new_array (idx * 2) (PRef new_node) ;;
                  _ <~ setitem new_array (idx * 2 + 1) PNone ;;
                  alloc (Bitmap _bitmap new_array)
            end
          else
            let n := _popcount _bitmap in
            new_array <~ alloc (List (repeat PNone (Z.to_nat (2 * (n + 1))))) ;;
            old <~ items_of _array ;;
            _ <~ set_slice_to new_array (idx * 2) (firstn (Z.to_nat (idx * 2)) old) ;;
            _ <~ setitem new_array (idx * 2) (pk k) ;;
            _ <~ setitem new_array (idx * 2 + 1) (pv v) ;;
            _ <~ set_slice_from new_array (idx * 2 + 2) (skipn (Z.to_nat (idx * 2)) old) ;;
            alloc (Bitmap (Z.lor _bitmap bit) new_array)
      | Collision _items =>
          l <~ items_of _items ;;
          match index_of l 0 k with
          | Some i =>
              old <~ getitem _items (i + 1) ;;
              if py_is old v then ret self else
              new_items <~ copy _items ;;
              _ <~ setitem new_items (i + 1) (pv v) ;;
              alloc (Collision new_items)
          | None =>
              new_items <~ alloc (List (l ++ [pk k; pv v])) ;;
              alloc (Collision new_items)
          end
      | _ => raise AttributeError
      end
  end.

(** [without] returns [None] or a node. *)
Fixpoint without (depth : nat) (self : nat) (shift : N) (hash_val : Z) (k : key) : M pyval :=
  match depth with
  | O => raise RecursionError
  | S depth' =>
      o <~ load self ;;
      match o with
      | Bitmap _bitmap _array =>
          let bit := bitpos shift hash_val in
          if Z.land _bitmap bit =? 0 then raise KeyError else
          let idx := _popcount (Z.land _bitmap (bit - 1)) in
          key_or_node <~ getitem _array (idx * 2) ;;
          val_or_node <~ getitem _array (idx * 2 + 1) ;;
          let remove_slot : M pyval :=
            if _popcount _bitmap =? 1 then ret PNone else
            old <~ items_of _array ;;
            new_array <~ alloc (List (firstn (Z.to_nat (idx * 2)) old ++
                                      skipn (Z.to_nat (idx * 2 + 2)) old)) ;;
            node <~ alloc (Bitmap (Z.land _bitmap (Z.lnot bit)) new_array) ;;
            ret (PRef node) in
          match key_or_node with
          | PRef n =>
              new_node <~ without depth' n (shift + 5) hash_val k ;;
              match new_node with
              | PNone => remove_slot
              | PRef n' =>
                  if (n' =? n)%nat then ret (PRef self) else
                  new_array <~ copy _array ;;
                  _ <~ setitem new_array (idx * 2) new_node ;;
                  node <~ alloc (Bitmap _bitmap new_array) ;;
                  ret (PRef node)
              | _ =>
                  new_array <~ copy _array ;;
                  _ <~ setitem new_array (idx * 2) new_node ;;
                  node <~ alloc (Bitmap _bitmap new_array) ;;
                  ret (PRef node)
              end
          | _ =>
              if negb (py_eq key_or_node k) then raise KeyError else remove_slot
          end
      | Collision _items =>
          l <~ items_of _items ;;
          match index_of l 0 k with
          | Some i =>
              new_items <~ alloc (List (firstn (Z.to_nat i) l ++ skipn (Z.to_nat (i + 2)) l)) ;;
              l' <~ items_of new_items ;;
              if Z.of_nat (length l') =? 2 then ret PNone else
              node <~ alloc (Collision new_items) ;;
              ret (PRef node)
          | None => raise KeyError
          end
      | _ => raise AttributeError
      end
  end.

Fixpoint iter (depth : nat) (self : nat) : M (list pyval) :=
  match depth with
  | O => raise RecursionError
  | S depth' =>
      o <~ load self ;;
      match o with
      | Bitmap _ _array =>
          l <~ items_of _array ;;
          (fix loop (l : list pyval) : M (list pyval) :=
             match l with
             | [] => ret []
             | key_or_node :: rest =>
                 match rest with
                 | [] => raise IndexError
                 | val_or_node :: rest' =>
                     ks <~ match key_or_node with
                           | PRef n => iter depth' n
                           | PNone => ret []
                           | _ => ret [key_or_node]
                           end ;;
                     ks' <~ loop rest' ;;
                     ret (ks ++ ks')
                 end
             end) l
      | Collision _items => l <~ items_of _items ;; ret (evens l)
      | _ => raise AttributeError
      end
  end.

(** The facade. *)

Definition fields (self : nat) : M (pyval * Z) :=
  o <~ load self ;;
  match o with
  | Hamt root size => ret (root, size)
  | _ => raise AttributeError
  end.

(** [HAMT()] *)
Definition new : M nat := alloc (Hamt PNone 0).

(** [self._root = r] and [self._size = n] *)
Definition set_root (self : nat) (r : pyval) : M unit :=
  f <~ fields self ;; write self (Hamt r (snd f)).

Definition set_size (self : nat) (n : Z) : M unit :=
  f <~ fields self ;; write self (Hamt (fst f) n).

Definition _assoc_with_added (node : pyval) (shift : N) (hash_val : Z) (k : key) (v : value)
  : M (nat * bool) :=
  match node with
  | PRef node =>
      fun st =>
        let handler : M (nat * bool) :=
          new_node <~ assoc recursion_limit node shift hash_val k v ;; ret (new_node, true) in
        match (existing <~ find recursion_limit node shift hash_val k ;;
               new_node <~ assoc recursion_limit node shift hash_val k v ;;
               ret (new_node, false)) st with
        | (Raise KeyError, st') => handler st'
        | r => r
        end
  | _ =>
      array <~ alloc (List [pk k; pv v]) ;;
      new_node <~ alloc (Bitmap (bitpos shift hash_val) array) ;;
      ret (new_node, true)
  end.

Definition get (self : nat) (k : key) (default : pyval) : M pyval :=
  f <~ fields self ;;
  match fst f with
  | PRef root =>
      fun st =>
        match find recursion_limit root 0 (hash k) k st with
        | (Raise KeyError, st') => (Ok default, st')
        | r => r
        end
  | _ => ret default
  end.

Definition __getitem__ (self : nat) (k : key) : M pyval :=
  f <~ fields self ;;
  match fst f with
  | PRef root => find recursion_limit root 0 (hash k) k
  | _ => raise KeyError
  end.

Definition set (self : nat) (k : key) (v : value) : M nat :=
  new_hamt <~ new ;;
  f <~ fields self ;;
  match fst f with
  | PRef root =>
      r <~ _assoc_with_added (PRef root) 0 (hash k) k v ;;
      _ <~ set_root new_hamt (PRef (fst r)) ;;
      _ <~ set_size new_hamt (snd f + (if snd r then 1 else 0)) ;;
      ret new_hamt
  | _ =>
      array <~ alloc (List [pk k; pv v]) ;;
      node <~ alloc (Bitmap (Z.shiftl 1 (Z.land (hash k) 0x1f)) array) ;;
      _ <~ set_root new_hamt (PRef node) ;;
      _ <~ set_size new_hamt 1 ;;
      ret new_hamt
  end.

Definition delete (self : nat) (k : key) : M nat :=
  f <~ fields self ;;
  match fst f with
  | PRef root =>
      new_root <~ without recursion_limit root 0 (hash k) k ;;
      new_hamt <~ new ;;
      _ <~ set_root new_hamt new_root ;;
      _ <~ set_size new_hamt (snd f - 1) ;;
      ret new_hamt
  | _ => raise KeyError
  end.

Definition __contains__ (self : nat) (k : key) : M bool :=
  f <~ fields self ;;
  match fst f with
  | PRef root =>
      fun st =>
        match find recursion_limit root 0 (hash k) k st with
        | (Ok _, st') => (Ok true, st')
        | (Raise KeyError, st') => (Ok false, st')
        | (Raise e, st') => (Raise e, st')
        end
  | _ => ret false
  end.

Definition __len__ (self : nat) : M Z := f <~ fields self ;; ret (snd f).

Definition __iter__ (self : nat) : M (list pyval) :=
  f <~ fields self ;;
  match fst f with
  | PRef root => iter recursion_limit root
  | _ => ret []
  end.

(** The stores a program can build: from the empty store, by [HAMT()],
    and by [set] and [delete] on any object there is. *)
Inductive reachable : store -> Prop :=
| reachable_start : reachable []
| reachable_new st : reachable st -> reachable (snd (new st))
| reachable_set st a k v :
    reachable st -> (a < length st)%nat -> reachable (snd (set a k v st))
| reachable_delete st a k :
    reachable st -> (a < length st)%nat -> reachable (snd (delete a k st)).

(** [repr st a n]: the object at [a] is a node whose content is [n]. *)
Inductive repr (st : store) : nat -> node -> Prop :=
| repr_Bitmap a bm array l arr :
    nth_error st a = Some (Bitmap bm array) ->
    nth_error st array = Some (List l) ->
    Forall2 (repr_val st) l arr ->
    repr st a (BitmapNode bm arr)
| repr_Collision a items l arr :
    nth_error st a = Some (Collision items) ->
    nth_error st items = Some (List l) ->
    Forall2 (repr_val st) l arr ->
    repr st a (CollisionNode arr)
with repr_val (st : store) : pyval -> obj -> Prop :=
| repr_None : repr_val st PNone ONone
| repr_Key h i : repr_val st (PKey h i) (OKey h i)
| repr_Val i : repr_val st (PVal i) (OVal i)
| repr_Ref a n : repr st a n -> repr_val st (PRef a) (ONode n).

(** The object at [a] is a container whose content is [c]. *)
Definition repr_hamt (st : store) (a : nat) (c : HAMT) : Prop :=
  exists root,
    nth_error st a = Some (Hamt root (_size c)) /\
    match _root c with
    | None => root = PNone
    | Some n => exists r, root = PRef r /\ repr st r n
    end.

(** No container among the objects [e]. *)
Definition nodes_only (e : store) : Prop :=
  Forall (fun o => match o with Hamt _ _ => False | _ => True end) e.

(** A statement that reads: its outcome [x] from the store [st] is the
    result [r] computed on the content, and the store is unchanged. *)
Definition reads {A B} (R : A -> B -> Prop) (st : store) (x : result A * store)
  (r : result B) : Prop :=
  match r with
  | Ok b => exists a, x = (Ok a, st) /\ R a b
  | Raise ex => x = (Raise ex, st)
  end.

(** A statement that builds: its outcome [x] from the store [st] is the
    result [r] computed on the content, in a store that extends [st] by
    new objects. *)
Definition builds {A B} (R : store -> A -> B -> Prop) (st : store) (x : result A * store)
  (r : result B) : Prop :=
  exists e, snd x = st ++ e /\ nodes_only e /\
    match r with
    | Ok b => exists a, fst x = Ok a /\ R (st ++ e) a b
    | Raise ex => fst x = Raise ex
    end.

(** The node [assoc] returned: [self], or a new object. *)
Definition assoc_returns (st0 : store) (self : nat) (st : store) (a : nat)
  (r : assoc_result) : Prop :=
  match r with
  | Self => a = self /\ st = st0
  | New n => repr st a n /\ (length st0 <= a)%nat
  end.

(** What [without] returned: [self], [None], or a new object. *)
Definition without_returns (st0 : store) (self : nat) (st : store) (p : pyval)
  (r : without_result) : Prop :=
  match r with
  | Same => p = PRef self /\ st = st0
  | Gone => p = PNone
  | Node n => exists a, p = PRef a /\ repr st a n /\ (length st0 <= a)%nat
  end.

(** [without] over the store: where it returns it builds, where it raises
    it leaves the store as it was. *)
Definition removes (st0 : store) (self : nat) (st : store) (x : result pyval * store)
  (r : result without_result) : Prop :=
  match r with
  | Ok r' => builds (without_returns st0 self) st x (Ok r')
  | Raise ex => x = (Raise ex, st)
  end.

(** The observations of a container at [a] are the same in two stores. *)
Definition same_observations (st st' : store) (a : nat) : Prop :=
  fst (__len__ a st') = fst (__len__ a st) /\
  fst (__iter__ a st') = fst (__iter__ a st) /\
  forall k,
    fst (__contains__ a k st') = fst (__contains__ a k st) /\
    fst (__getitem__ a k st') = fst (__getitem__ a k st) /\
    forall d, fst (get a k d st') = fst (get a k d st).

End Store.

(** Every container of the store holds the content of a container that
    [set] and [delete] build from the empty one. *)
Definition consistent (st : Store.store) : Prop :=
  forall a root size,
    nth_error st a = Some (Store.Hamt root size) ->
    exists c, Store.repr_hamt st a c /\ reachable c.

(** ** More of the facade: the constructor, the views and equality *)

(** The root a container takes from [_assoc_with_added]: the node it
    returned, which is the root passed where [assoc] returned [self]. *)
Definition resolve_root (root : option node) (r : assoc_result) : option node :=
  match r with Self => root | New n => Some n end.

(** The loop of [HAMT.__init__] over the pairs of [items] (of
    [items.items()] where [items] has that method), on the container under
    construction. *)
Fixpoint init_loop (items : list (key * value)) (self : HAMT) : result HAMT :=
  match items with
  | [] => Ok self
  | (k, v) :: rest =>
      r <- _assoc_with_added (_root self) 0 (hash k) k v ;;
      let '(new_root, added) := r in
      init_loop rest
        (mkHAMT (resolve_root (_root self) new_root)
                (if added then _size self + 1 else _size self))
  end.

(** [HAMT(items)]; [HAMT()] and [HAMT([])] skip the loop. *)
Definition __init__ (items : list (key * value)) : result HAMT :=
  match items with
  | [] => Ok empty
  | _ => init_loop items empty
  end.

(** [__iter__] of a node as the generator it is: the keys it yields, and
    the exception that ends it where one does. *)
Fixpoint yields (self : node) : list obj * option exn :=
  match self with
  | BitmapNode _ _array =>
      (fix loop (l : list obj) : list obj * option exn :=
         match l with
         | [] => ([], None)
         | key_or_node :: rest =>
             match rest with
             | [] => ([], Some IndexError)
             | val_or_node :: rest' =>
                 let (ks, e) := match key_or_node with
                                | ONode n => yields n
                                | ONone => ([], None)
                                | _ => ([key_or_node], None)
                                end in
                 match e with
                 | Some ex => (ks, Some ex)
                 | None => let (ks', e') := loop rest' in (ks ++ ks', e')
                 end
             end
         end) _array
  | CollisionNode _items => (evens _items, None)
  end.

(** [iter(self)] of a container. *)
Definition generator (self : HAMT) : list obj * option exn :=
  match _root self with
  | None => ([], None)
  | Some root => yields root
  end.

(** An object that iteration yielded, as the key it is.  A well-formed
    trie yields keys only; the last case is never evaluated on one. *)
Definition as_key (o : obj) : option key :=
  match o with
  | ONone => Some KNone
  | OKey h i => Some (KObj h i)
  | _ => None
  end.

(** [self[k]] and [k in self] for a yielded object [k]. *)
Definition subscript (self : HAMT) (o : obj) : result obj :=
  match as_key o with
  | Some k => __getitem__ self k
  | None => Raise AttributeError
  end.


(** The comprehension [[body(k) for k in self]]: the generator is resumed
    after each [body], and the exception that ends it is raised then. *)
Fixpoint comprehension {A} (body : obj -> result A) (ks : list obj) (e : option exn)
  : result (list A) :=
  match ks with
  | [] => match e with Some ex => Raise ex | None => Ok [] end
  | k :: ks' =>
      x <- body k ;;
      xs <- comprehension body ks' e ;;
      Ok (x :: xs)
  end.



(** [[(k, self[k]) for k in self]] *)
Definition items (self : HAMT) : result (list (obj * obj)) :=
  let (ks, e) := generator self in
  comprehension (fun k => v <- subscript self k ;; Ok (k, v)) ks e.


(** ** What a trie stores *)

(** The leaf pairs of an array and of a trie, in the order of the arrays:
    every key with its value. *)
Fixpoint leaves_of (sub : node -> list (obj * obj)) (l : list obj) : list (obj * obj) :=
  match l with
  | x :: y :: l' =>
      match x with ONode c => sub c | _ => [(x, y)] end ++ leaves_of sub l'
  | _ => []
  end.

Fixpoint pairs_of (l : list obj) : list (obj * obj) :=
  match l with
  | x :: y :: l' => (x, y) :: pairs_of l'
  | _ => []
  end.

Fixpoint leaves (n : node) : list (obj * obj) :=
  match n with
  | BitmapNode _ arr => leaves_of leaves arr
  | CollisionNode items => pairs_of items
  end.

(** The pairs a node keeps where [without] returned. *)
Definition kept (n : node) (r : without_result) : list (obj * obj) :=
  match r with Same => leaves n | Gone => [] | Node n' => leaves n' end.

(** The leaf pairs of a container. *)
Definition contents (c : HAMT) : list (obj * obj) :=
  match _root c with None => [] | Some n => leaves n end.

(** The value of the first pair whose key equals [k]. *)
Fixpoint lookup (k : key) (l : list (obj * obj)) : result obj :=
  match l with
  | [] => Raise KeyError
  | (x, y) :: l' => if py_eq x k then Ok y else lookup k l'
  end.


(** The nodes of a trie: the root and the nodes below it. *)
Fixpoint nodes_of (sub : node -> list node) (l : list obj) : list node :=
  match l with
  | [] => []
  | x :: l' => match x with ONode c => sub c | _ => [] end ++ nodes_of sub l'
  end.

Fixpoint subnodes (n : node) : list node :=
  n :: match n with
       | BitmapNode _ arr => nodes_of subnodes arr
       | CollisionNode _ => []
       end.

(** * Properties *)

(** ** The bit count

    [_popcount] is the SWAR bit count: on a 32-bit word it returns the
    number of set bits. *)

Lemma testbit_small x w n : 0 <= x < 2 ^ w -> w <= n -> Z.testbit x n = false.
Proof.
  intros Hx Hn. destruct (Z.eq_dec x 0) as [->|Hx0]; [apply Z.bits_0|].
  assert (0 <= w) by (destruct (Z.leb_spec 0 w); [assumption|rewrite Z.pow_neg_r in Hx; lia]).
  apply Z.bits_above_log2; [lia|].
  assert (Z.log2 x < w) by (apply Z.log2_lt_pow2; lia). lia.
Qed.

Lemma small_testbit x w : 0 <= w -> 0 <= x -> (forall n, w <= n -> Z.testbit x n = false) -> x < 2 ^ w.
Proof.
  intros Hw Hx H. destruct (Z.eq_dec x 0) as [->|Hx0]; [lia|].
  apply Z.log2_lt_pow2; [lia|].
  destruct (Z.ltb_spec (Z.log2 x) w); [assumption|].
  pose proof (Z.bit_log2 x ltac:(lia)) as E. rewrite H in E by assumption. discriminate.
Qed.

Lemma add_pow2_lor w a b : 0 <= w -> 0 <= a < 2 ^ w -> a + 2 ^ w * b = Z.lor a (Z.shiftl b w).
Proof.
  intros Hw Ha.
  rewrite Z.shiftl_mul_pow2 by lia.
  assert (E : Z.land a (b * 2 ^ w) = 0); [| rewrite <- Z.lxor_lor, <- Z.add_nocarry_lxor by exact E; lia].
  apply Z.bits_inj'. intros n Hn. rewrite Z.land_spec, Z.bits_0.
  destruct (Z.ltb_spec n w).
  - rewrite Z.mul_pow2_bits_low by lia. apply andb_false_r.
  - rewrite (testbit_small a w n) by lia. reflexivity.
Qed.

Lemma land_split w a b c d : 0 <= w -> 0 <= a < 2 ^ w -> 0 <= c < 2 ^ w ->
  Z.land (a + 2 ^ w * b) (c + 2 ^ w * d) = Z.land a c + 2 ^ w * Z.land b d.
Proof.
  intros Hw Ha Hc.
  assert (Hac : 0 <= Z.land a c < 2 ^ w).
  { split. apply Z.land_nonneg; lia.
    apply small_testbit; [lia|apply Z.land_nonneg; lia|].
    intros n Hn. rewrite Z.land_spec, (testbit_small a w n) by lia. reflexivity. }
  rewrite !add_pow2_lor by assumption.
  apply Z.bits_inj'. intros n Hn.
  rewrite Z.land_spec, !Z.lor_spec, !Z.land_spec.
  destruct (Z.ltb_spec n w).
  - rewrite !Z.shiftl_spec_low by lia. rewrite !orb_false_r. reflexivity.
  - rewrite !Z.shiftl_spec by lia. rewrite Z.land_spec.
    rewrite (testbit_small a w n), (testbit_small c w n) by lia. reflexivity.
Qed.

Lemma fields_nonneg w l : 0 <= w -> Forall (in_field w) l -> 0 <= fields w l.
Proof. intros Hw; induction 1 as [|a l [Ha _] _ IH]; simpl; [lia|nia]. Qed.


Lemma shiftr_fields w a l : 0 <= w -> in_field w a -> Z.shiftr (fields w (a :: l)) w = fields w l.
Proof.
  intros Hw Ha. rewrite Z.shiftr_div_pow2 by assumption. simpl.
  rewrite Z.mul_comm, Z.div_add by lia. rewrite Z.div_small by exact Ha. reflexivity.
Qed.

Lemma land_full w a : 0 <= w -> in_field w a -> Z.land a (2 ^ w - 1) = a.
Proof.
  intros Hw Ha. change (2 ^ w - 1) with (Z.pred (2 ^ w)). rewrite <- Z.ones_equiv, Z.land_ones by assumption.
  apply Z.mod_small. exact Ha.
Qed.

Lemma land_mask_fields w mask l : 0 < w -> Forall (in_field w) l ->
  Z.land (fields w l) (mask_fields w mask) = fields w (masked mask l).
Proof.
  intros Hw Hl; revert mask; induction Hl as [|a l Ha Hl IH]; intros [|b mask].
  - reflexivity.
  - reflexivity.
  - unfold mask_fields. simpl. apply Z.land_0_r.
  - unfold mask_fields in *. simpl.
    assert (0 < 2 ^ w) by (apply Z.pow_pos_nonneg; lia).
    rewrite land_split; [|lia|exact Ha|destruct b; lia].
    rewrite IH. destruct b; [rewrite land_full by (assumption || lia)|rewrite Z.land_0_r]; reflexivity.
Qed.

Ltac in_fields := repeat constructor; unfold in_field; simpl; lia.

Lemma swar_popcount b0 b1 b2 b3 b4 b5 b6 b7 b8 b9 b10 b11 b12 b13 b14 b15
  b16 b17 b18 b19 b20 b21 b22 b23 b24 b25 b26 b27 b28 b29 b30 b31 :
  Forall (in_field 1) [b0; b1; b2; b3; b4; b5; b6; b7; b8; b9; b10; b11; b12; b13; b14; b15;
     b16; b17; b18; b19; b20; b21; b22; b23; b24; b25; b26; b27; b28; b29; b30; b31] ->
  _popcount (fields 1 [b0; b1; b2; b3; b4; b5; b6; b7; b8; b9; b10; b11; b12; b13; b14; b15;
     b16; b17; b18; b19; b20; b21; b22; b23; b24; b25; b26; b27; b28; b29; b30; b31])
  = b0 + b1 + b2 + b3 + b4 + b5 + b6 + b7 + b8 + b9 + b10 + b11 + b12 + b13 + b14 + b15 +
     b16 + b17 + b18 + b19 + b20 + b21 + b22 + b23 + b24 + b25 + b26 + b27 + b28 + b29 + b30 + b31.
Proof.
  intros HB. unfold _popcount.
  assert (HB' := HB).
  repeat match goal with H : Forall _ (_ :: _) |- _ => apply Forall_cons_iff in H; destruct H as [? H] end.
  unfold in_field in *. change (2 ^ 1) with 2 in *.
  (* step 1 *)
  rewrite shiftr_fields by (unfold in_field; lia).
  change 0x55555555 with (mask_fields 1 (alt 16)).
  rewrite land_mask_fields by (lia || in_fields).
  cbn [alt masked].
  match goal with |- context [?a - ?b] =>
    replace (a - b) with (fields 2 [b0 + b1; b2 + b3; b4 + b5; b6 + b7; b8 + b9; b10 + b11; b12 + b13; b14 + b15;
       b16 + b17; b18 + b19; b20 + b21; b22 + b23; b24 + b25; b26 + b27; b28 + b29; b30 + b31])
     by (unfold fields; cbn [fold_right]; ring) end.
  cbv zeta.
  (* step 2 *)
  rewrite shiftr_fields by (unfold in_field; simpl; lia).
  change 0x33333333 with (mask_fields 2 (alt 8)).
  rewrite !land_mask_fields by (lia || in_fields).
  cbn [alt masked].
  match goal with |- context [fields 2 ?l + fields 2 ?m] =>
    replace (fields 2 l + fields 2 m) with
      (fields 4 [b0 + b1 + (b2 + b3); b4 + b5 + (b6 + b7); b8 + b9 + (b10 + b11); b12 + b13 + (b14 + b15);
       b16 + b17 + (b18 + b19); b20 + b21 + (b22 + b23); b24 + b25 + (b26 + b27); b28 + b29 + (b30 + b31)])
     by (unfold fields; cbn [fold_right]; ring) end.
  (* step 3 *)
  rewrite shiftr_fields by (unfold in_field; simpl; lia).
  change 0x0f0f0f0f with (mask_fields 4 (alt 4)).
  match goal with |- context [fields 4 ?l + fields 4 ?m] =>
    replace (fields 4 l + fields 4 m) with
      (fields 4 [b0 + b1 + (b2 + b3) + (b4 + b5 + (b6 + b7)); b4 + b5 + (b6 + b7) + (b8 + b9 + (b10 + b11));
         b8 + b9 + (b10 + b11) + (b12 + b13 + (b14 + b15)); b12 + b13 + (b14 + b15) + (b16 + b17 + (b18 + b19));
         b16 + b17 + (b18 + b19) + (b20 + b21 + (b22 + b23)); b20 + b21 + (b22 + b23) + (b24 + b25 + (b26 + b27));
         b24 + b25 + (b26 + b27) + (b28 + b29 + (b30 + b31)); b28 + b29 + (b30 + b31)])
     by (unfold fields; cbn [fold_right]; ring) end.
  rewrite land_mask_fields by (lia || in_fields).
  cbn [alt masked].
  set (c0 := b0 + b1 + (b2 + b3) + (b4 + b5 + (b6 + b7))).
  set (c1 := b8 + b9 + (b10 + b11) + (b12 + b13 + (b14 + b15))).
  set (c2 := b16 + b17 + (b18 + b19) + (b20 + b21 + (b22 + b23))).
  set (c3 := b24 + b25 + (b26 + b27) + (b28 + b29 + (b30 + b31))).
  assert (Hc : 0 <= c0 <= 8 /\ 0 <= c1 <= 8 /\ 0 <= c2 <= 8 /\ 0 <= c3 <= 8) by (subst c0 c1 c2 c3; lia).
  replace (fields 4 [c0; 0; c1; 0; c2; 0; c3; 0]) with (fields 8 [c0; c1; c2; c3])
    by (unfold fields; cbn [fold_right]; ring).
  (* steps 4 and 5 *)
  rewrite shiftr_fields by (unfold in_field; simpl; lia).
  replace (fields 8 [c0; c1; c2; c3] + fields 8 [c1; c2; c3])
    with (fields 16 [c0 + c1 + 256 * (c1 + c2); c2 + c3 + 256 * c3])
    by (unfold fields; cbn [fold_right]; ring).
  rewrite shiftr_fields by (unfold in_field; change (2 ^ 16) with 65536; lia).
  change 0x3f with (Z.ones 6). rewrite Z.land_ones by lia.
  unfold fields; cbn [fold_right].
  replace (c0 + c1 + 256 * (c1 + c2) + 2 ^ 16 * (c2 + c3 + 256 * c3 + 2 ^ 16 * 0) + (c2 + c3 + 256 * c3 + 2 ^ 16 * 0))
    with (c0 + c1 + c2 + c3 + (4 * (c1 + c2) + 1024 * (c2 + c3 + 256 * c3) + 4 * c3) * 2 ^ 6) by ring.
  rewrite Z.mod_add by lia. rewrite Z.mod_small by (simpl; lia).
  subst c0 c1 c2 c3. ring.
Qed.

Lemma fields_bits n x : fields 1 (bits n x) = x mod 2 ^ Z.of_nat n.
Proof.
  revert x; induction n as [|n IH]; intros x.
  - simpl. rewrite Z.mod_1_r. reflexivity.
  - cbn [bits fields fold_right]. fold (fields 1 (bits n (x / 2))). rewrite IH.
    rewrite Nat2Z.inj_succ, Z.pow_succ_r by lia.
    rewrite (Z.rem_mul_r x 2 (2 ^ Z.of_nat n)) by lia. reflexivity.
Qed.

Lemma bits_in_field n x : Forall (in_field 1) (bits n x).
Proof.
  revert x; induction n; intros x; constructor; auto.
  unfold in_field. change (2 ^ 1) with 2. apply Z.mod_pos_bound. lia.
Qed.

Lemma sum_bits n x k : 0 <= x ->
  fold_right Z.add 0 (bits n x) = 
  Z.of_nat (length (filter (fun j => Z.testbit x (Z.of_nat j - Z.of_nat k)) (seq k n))).
Proof.
  revert x k; induction n as [|n IH]; intros x k Hx.
  - reflexivity.
  - cbn [bits fold_right seq filter]. rewrite (IH (x / 2) (S k)) by (apply Z.div_pos; lia).
    rewrite Z.sub_diag. rewrite <- Z.bit0_mod.
    erewrite filter_ext_in with (l := seq (S k) n).
    2:{ intros j Hj. apply in_seq in Hj.
        replace (Z.of_nat j - Z.of_nat (S k)) with (Z.pred (Z.of_nat j - Z.of_nat k)) by lia.
        rewrite <- Z.div2_div, Z.div2_spec, Z.shiftr_spec by lia.
        replace (Z.pred _ + 1) with (Z.of_nat j - Z.of_nat k) by lia. reflexivity. }
    destruct (Z.testbit x 0); simpl Z.b2z; cbn [length]; lia.
Qed.

Theorem popcount_spec bm : 0 <= bm < 2 ^ 32 -> _popcount bm = Z.of_nat (length (bit_positions bm)).
Proof.
  intros Hbm. unfold bit_positions, positions.
  rewrite filter_map_swap, length_map.
  rewrite <- (Z.mod_small bm (2 ^ 32)) at 1 by exact Hbm.
  change 32 with (Z.of_nat 32) at 1. rewrite <- fields_bits.
  pose proof (sum_bits 32 bm 0 ltac:(lia)) as E.
  erewrite filter_ext in E by (intros j; rewrite Z.sub_0_r; reflexivity).
  rewrite <- E. clear E.
  pose proof (bits_in_field 32 bm) as HB.
  cbv [bits] in *.
  rewrite swar_popcount by exact HB.
  cbn [fold_right]. ring.
Qed.

(** ** Bitmaps as lists of positions *)

Lemma slice_range s h : 0 <= slice s h < 32.
Proof.
  unfold slice. change 0x1f with (Z.ones 5). rewrite Z.land_ones by lia.
  apply Z.mod_pos_bound. reflexivity.
Qed.

Lemma bitpos_pow2 s h : bitpos s h = 2 ^ slice s h.
Proof. unfold bitpos. apply Z.shiftl_1_l. Qed.

Lemma land_pow2_eqb bm j : 0 <= j -> (Z.land bm (2 ^ j) =? 0) = negb (Z.testbit bm j).
Proof.
  intros Hj. destruct (Z.testbit bm j) eqn:E; simpl.
  - apply Z.eqb_neq. intros H.
    assert (T : Z.testbit (Z.land bm (2 ^ j)) j = true)
      by (rewrite Z.land_spec, E, Z.pow2_bits_true by assumption; reflexivity).
    rewrite H, Z.bits_0 in T. discriminate.
  - apply Z.eqb_eq. apply Z.bits_inj'. intros n Hn.
    rewrite Z.land_spec, Z.bits_0, Z.pow2_bits_eqb by assumption.
    destruct (Z.eqb_spec j n) as [->|]; [rewrite E|rewrite andb_false_r]; reflexivity.
Qed.

Lemma positions_split j : 0 <= j < 32 -> positions = below j ++ j :: above j.
Proof.
  intros Hj.
  assert (In j positions) as Hin.
  { unfold positions. apply in_map_iff. exists (Z.to_nat j). split; [lia|].
    apply in_seq. lia. }
  vm_compute in Hin.
  repeat (destruct Hin as [<-|Hin]; [vm_compute; reflexivity|]). contradiction.
Qed.

Lemma in_positions i : In i positions <-> 0 <= i < 32.
Proof.
  unfold positions. rewrite in_map_iff. split.
  - intros (n & <- & Hn). apply in_seq in Hn. lia.
  - intros Hi. exists (Z.to_nat i). split; [lia|]. apply in_seq. lia.
Qed.

(** From here on [positions] is used through the two lemmas above only. *)
#[global] Opaque positions.

Lemma in_below i j : In i (below j) <-> 0 <= i < 32 /\ i < j.
Proof. unfold below. rewrite filter_In, in_positions, Z.ltb_lt. reflexivity. Qed.

Lemma in_above i j : In i (above j) <-> 0 <= i < 32 /\ j < i.
Proof. unfold above. rewrite filter_In, in_positions, Z.ltb_lt. reflexivity. Qed.

#[global] Opaque below above.

Lemma bit_positions_split bm j : 0 <= j < 32 ->
  bit_positions bm =
  filter (Z.testbit bm) (below j) ++
  (if Z.testbit bm j then [j] else []) ++ filter (Z.testbit bm) (above j).
Proof.
  intros Hj. unfold bit_positions.
  transitivity (filter (Z.testbit bm) (below j ++ j :: above j)).
  - f_equal. apply positions_split. exact Hj.
  - rewrite filter_app. generalize (below j), (above j). intros l1 l2.
    cbn [filter]. destruct (Z.testbit bm j); reflexivity.
Qed.

Lemma word_land_r bm m : 0 <= bm < 2 ^ 32 -> 0 <= Z.land bm m < 2 ^ 32.
Proof.
  intros Hbm. assert (0 <= Z.land bm m) by (apply Z.land_nonneg; lia).
  split; [assumption|]. apply small_testbit; [lia|assumption|].
  intros n Hn. rewrite Z.land_spec, (testbit_small bm 32 n) by lia. reflexivity.
Qed.

Lemma word_lor_pow2 bm j : 0 <= bm < 2 ^ 32 -> 0 <= j < 32 -> 0 <= Z.lor bm (2 ^ j) < 2 ^ 32.
Proof.
  intros Hbm Hj. assert (0 <= 2 ^ j) by (apply Z.pow_nonneg; lia).
  assert (0 <= Z.lor bm (2 ^ j)) by (apply Z.lor_nonneg; lia).
  split; [assumption|]. apply small_testbit; [lia|assumption|].
  intros n Hn. rewrite Z.lor_spec, (testbit_small bm 32 n), Z.pow2_bits_false by lia.
  reflexivity.
Qed.

Lemma filter_ext_below (f g : Z -> bool) j :
  (forall i, 0 <= i < j -> f i = g i) -> filter f (below j) = filter g (below j).
Proof. intros H. apply filter_ext_in. intros i Hi. apply in_below in Hi. apply H. lia. Qed.

Lemma filter_ext_above (f g : Z -> bool) j :
  (forall i, j < i -> f i = g i) -> filter f (above j) = filter g (above j).
Proof. intros H. apply filter_ext_in. intros i Hi. apply in_above in Hi. apply H. lia. Qed.

Lemma filter_none {A} (f : A -> bool) l : (forall x, In x l -> f x = false) -> filter f l = [].
Proof.
  induction l as [|a l IH]; intros H; [reflexivity|]. simpl.
  rewrite (H a) by (left; reflexivity). apply IH. intros x Hx. apply H. right. exact Hx.
Qed.

Lemma bit_positions_low bm j : 0 <= j < 32 ->
  bit_positions (Z.land bm (2 ^ j - 1)) = filter (Z.testbit bm) (below j).
Proof.
  intros Hj. rewrite (bit_positions_split _ j Hj).
  change (2 ^ j - 1) with (Z.pred (2 ^ j)). rewrite <- Z.ones_equiv.
  rewrite Z.land_spec, Z.ones_spec_high, andb_false_r by lia.
  assert (E : filter (Z.testbit (Z.land bm (Z.ones j))) (above j) = []).
  { apply filter_none. intros i Hi. apply in_above in Hi.
    rewrite Z.land_spec, Z.ones_spec_high by lia. apply andb_false_r. }
  rewrite E, !app_nil_r. apply filter_ext_below. intros i Hi.
  rewrite Z.land_spec, Z.ones_spec_low by lia. apply andb_true_r.
Qed.

Lemma popcount_low bm j : 0 <= bm < 2 ^ 32 -> 0 <= j < 32 ->
  _popcount (Z.land bm (2 ^ j - 1)) = Z.of_nat (length (filter (Z.testbit bm) (below j))).
Proof.
  intros Hbm Hj. rewrite popcount_spec by (apply word_land_r; assumption).
  rewrite bit_positions_low by assumption. reflexivity.
Qed.

Lemma bit_positions_set bm j : 0 <= j < 32 ->
  bit_positions (Z.lor bm (2 ^ j)) =
  filter (Z.testbit bm) (below j) ++ j :: filter (Z.testbit bm) (above j).
Proof.
  intros Hj. rewrite (bit_positions_split _ j Hj).
  rewrite Z.lor_spec, Z.pow2_bits_true, orb_true_r by lia.
  f_equal; [|cbn [app]; f_equal]; [apply filter_ext_below|apply filter_ext_above];
    intros i Hi; rewrite Z.lor_spec, Z.pow2_bits_false by lia; apply orb_false_r.
Qed.

Lemma bit_positions_clear bm j : 0 <= j < 32 ->
  bit_positions (Z.land bm (Z.lnot (2 ^ j))) =
  filter (Z.testbit bm) (below j) ++ filter (Z.testbit bm) (above j).
Proof.
  intros Hj. rewrite (bit_positions_split _ j Hj).
  rewrite Z.land_spec, Z.lnot_spec, Z.pow2_bits_true, andb_false_r by lia.
  f_equal; [apply filter_ext_below|apply filter_ext_above];
    intros i Hi; rewrite Z.land_spec, Z.lnot_spec, Z.pow2_bits_false by lia; apply andb_true_r.
Qed.

(** ** Lists read and written at the end of a prefix *)

Lemma item_app {A} (k : obj -> result A) a1 x rest :
  item k (a1 ++ x :: rest) (length a1) = k x.
Proof. induction a1 as [|a a1 IH]; simpl; [reflexivity|exact IH]. Qed.

Lemma setitem_app a1 x rest z :
  setitem (a1 ++ x :: rest) (length a1) z = Ok (a1 ++ z :: rest).
Proof.
  induction a1 as [|a a1 IH]; simpl; [reflexivity|]. rewrite IH. reflexivity.
Qed.

Lemma firstn_exact (a1 rest : list obj) : firstn (length a1) (a1 ++ rest) = a1.
Proof. induction a1 as [|a a1 IH]; simpl; [destruct rest|rewrite IH]; reflexivity. Qed.

Lemma skipn_exact (a1 rest : list obj) : skipn (length a1) (a1 ++ rest) = rest.
Proof. induction a1 as [|a a1 IH]; simpl; [reflexivity|exact IH]. Qed.

Section Slot.
(** A pair [x, y] of an array found at the index [n]. *)
Variables (a1 a2 : list obj) (x y : obj) (n : Z).
Hypothesis Hn : Z.to_nat n = length a1.
Hypothesis Hn0 : 0 <= n.

Lemma item_slot {A} (k : obj -> result A) :
  item k (a1 ++ x :: y :: a2) (Z.to_nat n) = k x.
Proof. rewrite Hn. apply item_app. Qed.

Lemma getitem_slot_key : getitem (a1 ++ x :: y :: a2) n = Ok x.
Proof. unfold getitem. apply item_slot. Qed.

Lemma getitem_slot_val : getitem (a1 ++ x :: y :: a2) (n + 1) = Ok y.
Proof.
  unfold getitem. replace (Z.to_nat (n + 1)) with (length (a1 ++ [x])).
  - change (a1 ++ x :: y :: a2) with (a1 ++ [x] ++ y :: a2).
    rewrite app_assoc. apply item_app.
  - rewrite length_app. simpl. lia.
Qed.

Lemma set_item_slot_key z :
  set_item (a1 ++ x :: y :: a2) n z = Ok (a1 ++ z :: y :: a2).
Proof. unfold set_item. rewrite Hn. apply setitem_app. Qed.

Lemma set_item_slot_val z :
  set_item (a1 ++ x :: y :: a2) (n + 1) z = Ok (a1 ++ x :: z :: a2).
Proof.
  unfold set_item. replace (Z.to_nat (n + 1)) with (length (a1 ++ [x])).
  - change (a1 ++ x :: y :: a2) with (a1 ++ [x] ++ y :: a2).
    rewrite app_assoc, setitem_app, <- app_assoc. reflexivity.
  - rewrite length_app. simpl. lia.
Qed.

Lemma slice_to_slot rest : slice_to (a1 ++ rest) n = a1.
Proof. unfold slice_to. rewrite Hn. apply firstn_exact. Qed.

Lemma slice_from_slot rest : slice_from (a1 ++ rest) n = rest.
Proof. unfold slice_from. rewrite Hn. apply skipn_exact. Qed.

Lemma slice_to_slot2 rest : slice_to (a1 ++ x :: y :: rest) (n + 2) = a1 ++ [x; y].
Proof.
  unfold slice_to. replace (Z.to_nat (n + 2)) with (length (a1 ++ [x; y])).
  - change (a1 ++ x :: y :: rest) with (a1 ++ [x; y] ++ rest).
    rewrite app_assoc. apply firstn_exact.
  - rewrite length_app. simpl. lia.
Qed.

Lemma slice_from_slot2 : slice_from (a1 ++ x :: y :: a2) (n + 2) = a2.
Proof.
  unfold slice_from. replace (Z.to_nat (n + 2)) with (length (a1 ++ [x; y])).
  - change (a1 ++ x :: y :: a2) with (a1 ++ [x; y] ++ a2).
    rewrite app_assoc. apply skipn_exact.
  - rewrite length_app. simpl. lia.
Qed.
End Slot.

(** ** The array of a well-formed bitmap node *)

Lemma wf_array_length s q js arr :
  wf_array s q js arr -> length arr = (2 * length js)%nat.
Proof. induction 1; simpl; lia. Qed.

Lemma wf_array_app s q l1 l2 a1 a2 :
  wf_array s q l1 a1 -> wf_array s q l2 a2 -> wf_array s q (l1 ++ l2) (a1 ++ a2).
Proof. induction 1; intros H2; simpl; [exact H2|constructor; auto]. Qed.

Lemma wf_array_app_inv s q l1 l2 arr :
  wf_array s q (l1 ++ l2) arr ->
  exists a1 a2, arr = a1 ++ a2 /\ wf_array s q l1 a1 /\ wf_array s q l2 a2.
Proof.
  revert arr; induction l1 as [|j l1 IH]; intros arr H.
  - exists [], arr. repeat split; [constructor|exact H].
  - inversion H as [|? ? ? ? x y arr' Hs Ha]; subst.
    destruct (IH _ Ha) as (a1 & a2 & -> & H1 & H2).
    exists (x :: y :: a1), a2. repeat split; [constructor; assumption|assumption].
Qed.

Lemma wf_array_cons_inv s q j js arr :
  wf_array s q (j :: js) arr ->
  exists x y a2, arr = x :: y :: a2 /\ wf_slot s q j x y /\ wf_array s q js a2.
Proof. intros H; inversion H; subst. eauto 6. Qed.

(** What the operations compute at a bitmap node, and the shape of the
    array around the slot they address. *)
Lemma bitmap_slot s q bm arr h :
  0 <= bm < 2 ^ 32 -> wf_array s q (bit_positions bm) arr ->
  let j := slice s h in
  let bit := bitpos s h in
  let idx := _popcount (Z.land bm (bit - 1)) in
  exists lo hi a1,
    wf_array s q lo a1 /\ Z.to_nat (idx * 2) = length a1 /\ 0 <= idx * 2 /\
    (forall i, In i lo -> i <> j) /\ (forall i, In i hi -> i <> j) /\
    (((Z.land bm bit =? 0) = false /\
      bit_positions bm = lo ++ j :: hi /\
      bit_positions (Z.land bm (Z.lnot bit)) = lo ++ hi /\
      exists x y a2, arr = a1 ++ x :: y :: a2 /\ wf_slot s q j x y /\ wf_array s q hi a2)
     \/
     ((Z.land bm bit =? 0) = true /\
      bit_positions bm = lo ++ hi /\
      bit_positions (Z.lor bm bit) = lo ++ j :: hi /\
      exists a2, arr = a1 ++ a2 /\ wf_array s q hi a2)).
Proof.
  intros Hbm Hwf j bit idx. subst bit idx. rewrite bitpos_pow2. fold j.
  pose proof (slice_range s h) as Hj. fold j in Hj.
  rewrite popcount_low by assumption.
  rewrite land_pow2_eqb by lia.
  rewrite (bit_positions_clear bm j Hj), (bit_positions_set bm j Hj).
  rewrite (bit_positions_split bm j Hj) in Hwf |- *.
  set (lo := filter (Z.testbit bm) (below j)) in *.
  set (hi := filter (Z.testbit bm) (above j)) in *.
  apply wf_array_app_inv in Hwf. destruct Hwf as (a1 & rest & -> & Hlo & Hrest).
  exists lo, hi, a1. split; [exact Hlo|].
  pose proof (wf_array_length _ _ _ _ Hlo) as Hlen.
  split; [lia|]. split; [lia|].
  split; [intros i Hi; apply filter_In in Hi; destruct Hi as [Hi _]; apply in_below in Hi; lia|].
  split; [intros i Hi; apply filter_In in Hi; destruct Hi as [Hi _]; apply in_above in Hi; lia|].
  destruct (Z.testbit bm j); simpl in *.
  - left. repeat split.
    apply wf_array_cons_inv in Hrest. destruct Hrest as (x & y & a2 & -> & Hs & Ha2).
    exists x, y, a2. auto.
  - right. repeat split. exists rest. auto.
Qed.

(** ** Induction on nodes *)

Lemma node_induction (P : node -> Prop) :
  (forall bm arr, (forall c, In (ONode c) arr -> P c) -> P (BitmapNode bm arr)) ->
  (forall items, (forall c, In (ONode c) items -> P c) -> P (CollisionNode items)) ->
  forall n, P n.
Proof.
  intros HB HC. fix IH 1.
  assert (Hall : forall l c, In (ONode c) l -> P c).
  { induction l as [|x l IHl]; intros c Hin.
    - destruct Hin.
    - destruct Hin as [E|Hin]; [|exact (IHl c Hin)].
      destruct x as [| | |n]; try discriminate E.
      pose proof (IH n) as Pn. injection E as <-. exact Pn. }
  intros [bm arr|items]; [apply HB|apply HC]; apply Hall.
Qed.

Lemma in_slot (c : node) a1 y a2 : In (ONode c) (a1 ++ ONode c :: y :: a2).
Proof. apply in_or_app. right. left. reflexivity. Qed.

(** ** Keys, values and collision lists *)

Lemma py_eq_key_obj k' k : py_eq (key_obj k') k = true <-> k' = k.
Proof.
  destruct k' as [|h i], k as [|h' i']; simpl; split; intros H;
    try reflexivity; try discriminate.
  - apply andb_true_iff in H. destruct H as [H1 H2].
    apply Z.eqb_eq in H1, H2. subst. reflexivity.
  - injection H as -> ->. rewrite !Z.eqb_refl. reflexivity.
Qed.

Lemma py_eq_refl k : py_eq (key_obj k) k = true.
Proof. apply py_eq_key_obj. reflexivity. Qed.

Lemma py_is_val_obj v' v : py_is (val_obj v') v = true <-> v' = v.
Proof.
  destruct v' as [|i], v as [|i']; simpl; split; intros H;
    try reflexivity; try discriminate.
  - apply Z.eqb_eq in H. subst. reflexivity.
  - injection H as ->. apply Z.eqb_refl.
Qed.

Lemma val_obj_inj v v' : val_obj v = val_obj v' -> v = v'.
Proof. destruct v, v'; simpl; intros H; congruence. Qed.

Lemma key_obj_inj k k' : key_obj k = key_obj k' -> k = k'.
Proof. destruct k, k'; simpl; intros H; congruence. Qed.

Lemma hash_obj_key k : hash_obj (key_obj k) = hash k.
Proof. destruct k; reflexivity. Qed.

Lemma key_obj_not_node k n : key_obj k <> ONode n.
Proof. destruct k; discriminate. Qed.

Lemma flat_app l1 l2 : flat (l1 ++ l2) = flat l1 ++ flat l2.
Proof. induction l1 as [|[k v] l1 IH]; simpl; [|rewrite IH]; reflexivity. Qed.

Lemma flat_length l : length (flat l) = (2 * length l)%nat.
Proof. induction l as [|[k v] l IH]; simpl; lia. Qed.

(** The scan of a collision list stops at the first pair of the key. *)
Lemma index_of_flat kvs i k :
  (index_of (flat kvs) i k = None /\ ~ In k (map fst kvs)) \/
  (exists l1 v l2, kvs = l1 ++ (k, v) :: l2 /\ ~ In k (map fst l1) /\
                   index_of (flat kvs) i k = Some (i + 2 * Z.of_nat (length l1))).
Proof.
  revert i; induction kvs as [|[k' v'] kvs IH]; intros i.
  - left. split; [reflexivity|intros []].
  - cbn [flat index_of]. destruct (py_eq (key_obj k') k) eqn:E.
    + apply py_eq_key_obj in E. subst k'. right. exists [], v', kvs.
      repeat split; [intros []|]. simpl. f_equal. lia.
    + assert (k' <> k) by (intros ->; rewrite py_eq_refl in E; discriminate).
      destruct (IH (i + 2)) as [[E1 H1]|(l1 & v & l2 & -> & H1 & E1)].
      * left. split; [exact E1|]. simpl. intros [?|?]; auto.
      * right. exists ((k', v') :: l1), v, l2. repeat split.
        -- simpl. intros [?|?]; auto.
        -- rewrite E1. f_equal. simpl length. lia.
Qed.

Section Pair.
(** The pair of [k] in a collision list, after [l1]. *)
Variables (l1 l2 : list (key * value)) (k : key) (v : value).
Let i := 0 + 2 * Z.of_nat (length l1).

Lemma flat_pair : flat (l1 ++ (k, v) :: l2) = flat l1 ++ key_obj k :: val_obj v :: flat l2.
Proof. rewrite flat_app. reflexivity. Qed.

Lemma i_length : Z.to_nat i = length (flat l1).
Proof. subst i. rewrite flat_length. lia. Qed.

Lemma getitem_pair : getitem (flat (l1 ++ (k, v) :: l2)) (i + 1) = Ok (val_obj v).
Proof. rewrite flat_pair. apply getitem_slot_val; [apply i_length|subst i; lia]. Qed.

Lemma set_item_pair v' :
  set_item (flat (l1 ++ (k, v) :: l2)) (i + 1) (val_obj v') = Ok (flat (l1 ++ (k, v') :: l2)).
Proof.
  rewrite flat_pair, set_item_slot_val; [|apply i_length|subst i; lia].
  rewrite flat_app. reflexivity.
Qed.

Lemma remove_pair :
  slice_to (flat (l1 ++ (k, v) :: l2)) i ++ slice_from (flat (l1 ++ (k, v) :: l2)) (i + 2)
  = flat (l1 ++ l2).
Proof.
  rewrite flat_pair, slice_to_slot, slice_from_slot2, flat_app;
    [reflexivity|apply i_length|subst i; lia|apply i_length].
Qed.
End Pair.

(** ** The operations at a bitmap node, by the state of the addressed bit *)

Section BitSet.
Variables (bm : Z) (s : N) (h : Z) (a1 a2 : list obj) (x y : obj).
Local Abbreviation idx := (_popcount (Z.land bm (bitpos s h - 1))).
Hypothesis Hbit : (Z.land bm (bitpos s h) =? 0) = false.
Hypothesis Hn : Z.to_nat (idx * 2) = length a1.
Hypothesis Hn0 : 0 <= idx * 2.

Lemma find_bit_set k :
  find (BitmapNode bm (a1 ++ x :: y :: a2)) s h k =
  match x with
  | ONode n => find n (s + 5) h k
  | _ => if py_eq x k then Ok y else Raise KeyError
  end.
Proof.
  cbn [find]. rewrite Hbit. cbv zeta. rewrite item_slot by assumption.
  destruct x; try reflexivity;
    rewrite ?getitem_slot_key, ?getitem_slot_val by assumption; reflexivity.
Qed.

Lemma assoc_bit_set k v :
  assoc (BitmapNode bm (a1 ++ x :: y :: a2)) s h k v =
  if is_None x && is_None y then Ok Self else
  match x with
  | ONode n =>
      new_node <- assoc n (s + 5) h k v ;;
      match new_node with
      | Self => Ok Self
      | New n' => Ok (New (BitmapNode bm (a1 ++ ONode n' :: y :: a2)))
      end
  | _ =>
      if py_eq x k then
        if py_is y v then Ok Self
        else Ok (New (BitmapNode bm (a1 ++ x :: val_obj v :: a2)))
      else
        new_node <-
          (if (25 <=? s)%N then Ok (CollisionNode [x; y; key_obj k; val_obj v])
           else match _create_node recursion_limit (s + 5) x y h (key_obj k) (val_obj v) with
                | Some n => Ok n
                | None => Raise RecursionError
                end) ;;
        Ok (New (BitmapNode bm (a1 ++ ONode new_node :: ONone :: a2)))
  end.
Proof.
  cbn [assoc]. rewrite Hbit. cbv zeta. cbn [negb]. rewrite item_slot by assumption.
  rewrite getitem_slot_val by assumption. cbn [bind].
  destruct (is_None x && is_None y); [reflexivity|].
  destruct x as [|hx ix|ix|n].
  - destruct (py_eq ONone k).
    + destruct (py_is y v); [reflexivity|]. rewrite set_item_slot_val by assumption. reflexivity.
    + destruct (if (25 <=? s)%N then _ else _) as [nn|e]; [|reflexivity]. cbn [bind].
      rewrite set_item_slot_key by assumption. cbn [bind].
      rewrite set_item_slot_val by assumption. reflexivity.
  - destruct (py_eq (OKey hx ix) k).
    + destruct (py_is y v); [reflexivity|]. rewrite set_item_slot_val by assumption. reflexivity.
    + destruct (if (25 <=? s)%N then _ else _) as [nn|e]; [|reflexivity]. cbn [bind].
      rewrite set_item_slot_key by assumption. cbn [bind].
      rewrite set_item_slot_val by assumption. reflexivity.
  - destruct (py_eq (OVal ix) k).
    + destruct (py_is y v); [reflexivity|]. rewrite set_item_slot_val by assumption. reflexivity.
    + destruct (if (25 <=? s)%N then _ else _) as [nn|e]; [|reflexivity]. cbn [bind].
      rewrite set_item_slot_key by assumption. cbn [bind].
      rewrite set_item_slot_val by assumption. reflexivity.
  - destruct (assoc n (s + 5) h k v) as [[|n']|e]; try reflexivity. cbn [bind].
    rewrite set_item_slot_key by assumption. reflexivity.
Qed.

Lemma without_bit_set k :
  without (BitmapNode bm (a1 ++ x :: y :: a2)) s h k =
  match x with
  | ONode n =>
      new_node <- without n (s + 5) h k ;;
      match new_node with
      | Same => Ok Same
      | Gone =>
          if _popcount bm =? 1 then Ok Gone
          else Ok (Node (BitmapNode (Z.land bm (Z.lnot (bitpos s h))) (a1 ++ a2)))
      | Node n' => Ok (Node (BitmapNode bm (a1 ++ ONode n' :: y :: a2)))
      end
  | _ =>
      if negb (py_eq x k) then Raise KeyError else
      if _popcount bm =? 1 then Ok Gone
      else Ok (Node (BitmapNode (Z.land bm (Z.lnot (bitpos s h))) (a1 ++ a2)))
  end.
Proof.
  cbn [without]. rewrite Hbit. cbv zeta. rewrite item_slot by assumption.
  rewrite getitem_slot_val by assumption. cbn [bind].
  rewrite slice_to_slot, slice_from_slot2 by assumption.
  destruct x as [| | |n]; try reflexivity.
  destruct (without n (s + 5) h k) as [[| |n']|e]; try reflexivity. cbn [bind].
  rewrite set_item_slot_key by assumption. reflexivity.
Qed.
End BitSet.

Section BitUnset.
Variables (bm : Z) (s : N) (h : Z) (a1 a2 : list obj).
Local Abbreviation idx := (_popcount (Z.land bm (bitpos s h - 1))).
Hypothesis Hbit : (Z.land bm (bitpos s h) =? 0) = true.
Hypothesis Hn : Z.to_nat (idx * 2) = length a1.
Hypothesis Hn0 : 0 <= idx * 2.
Hypothesis Hroom : (length a1 + 2 <= Z.to_nat (2 * (_popcount bm + 1)))%nat.

Lemma find_bit_unset k : find (BitmapNode bm (a1 ++ a2)) s h k = Raise KeyError.
Proof. cbn [find]. rewrite Hbit. reflexivity. Qed.

Lemma without_bit_unset k : without (BitmapNode bm (a1 ++ a2)) s h k = Raise KeyError.
Proof. cbn [without]. rewrite Hbit. reflexivity. Qed.

Lemma assoc_bit_unset k v :
  assoc (BitmapNode bm (a1 ++ a2)) s h k v =
  Ok (New (BitmapNode (Z.lor bm (bitpos s h)) (a1 ++ key_obj k :: val_obj v :: a2))).
Proof.
  cbn [assoc]. rewrite Hbit. cbv zeta. cbn [negb].
  rewrite slice_to_slot by assumption.
  destruct (Z.to_nat (2 * (_popcount bm + 1)) - length a1)%nat as [|[|m]] eqn:Em; [lia|lia|].
  replace (Z.to_nat (2 * (_popcount bm + 1))) with (length a1 + S (S m))%nat by lia.
  rewrite repeat_app.
  rewrite slice_from_slot by (rewrite repeat_length; assumption).
  cbn [repeat].
  rewrite set_item_slot_key by assumption. cbn [bind].
  rewrite set_item_slot_val by assumption. cbn [bind].
  rewrite slice_to_slot2 by assumption.
  rewrite slice_from_slot by assumption.
  rewrite <- app_assoc. reflexivity.
Qed.
End BitUnset.

(** ** Hash prefixes *)

Lemma slice_div s h : slice s h = (h / 2 ^ Z.of_N s) mod 32.
Proof.
  unfold slice. change 0x1f with (Z.ones 5).
  rewrite Z.land_ones, Z.shiftr_div_pow2 by lia. reflexivity.
Qed.

Lemma low_step s h : low (s + 5) h = low s h + 2 ^ Z.of_N s * slice s h.
Proof.
  unfold low. rewrite slice_div, N2Z.inj_add, Z.pow_add_r by lia.
  change (2 ^ Z.of_N 5) with 32. apply Z.rem_mul_r; [|lia].
  apply Z.pow_nonzero; lia.
Qed.

Lemma low_0 h : low 0 h = 0.
Proof. unfold low. apply Z.mod_1_r. Qed.

(** Two hashes with the same [s'] low bits have the same [s] low bits,
    for [s <= s']. *)
Lemma low_le s s' h1 h2 : (s <= s')%N -> low s' h1 = low s' h2 -> low s h1 = low s h2.
Proof.
  unfold low. intros Hs H.
  assert (E : forall h, h mod 2 ^ Z.of_N s = (h mod 2 ^ Z.of_N s') mod 2 ^ Z.of_N s).
  { intros h. replace (Z.of_N s') with (Z.of_N s + (Z.of_N s' - Z.of_N s)) by lia.
    rewrite Z.pow_add_r by lia.
    rewrite Z.rem_mul_r by (try apply Z.pow_nonzero; try apply Z.pow_pos_nonneg; lia).
    rewrite Z.mul_comm, Z.mod_add by (apply Z.pow_nonzero; lia).
    rewrite Z.mod_mod by (apply Z.pow_nonzero; lia). reflexivity. }
  rewrite (E h1), (E h2), H. reflexivity.
Qed.

(** ** Bitmaps of one and of two bits *)

Lemma word_pow2 m : 0 <= m < 32 -> 0 <= 2 ^ m < 2 ^ 32.
Proof.
  intros Hm. split; [apply Z.pow_nonneg; lia|]. apply Z.pow_lt_mono_r; lia.
Qed.

Lemma bit_positions_pow2 m : 0 <= m < 32 -> bit_positions (2 ^ m) = [m].
Proof.
  intros Hm. rewrite <- (Z.lor_0_l (2 ^ m)), bit_positions_set by assumption.
  assert (E : forall l, filter (Z.testbit 0) l = [])
    by (intros l; apply filter_none; intros; apply Z.bits_0).
  rewrite !E. reflexivity.
Qed.

Lemma bit_positions_two m1 m2 : 0 <= m1 -> m1 < m2 < 32 ->
  bit_positions (Z.lor (2 ^ m1) (2 ^ m2)) = [m1; m2].
Proof.
  intros H1 H2. rewrite bit_positions_set by lia.
  assert (E : filter (Z.testbit (2 ^ m1)) (above m2) = []).
  { apply filter_none. intros i Hi. apply in_above in Hi. apply Z.pow2_bits_false. lia. }
  rewrite E.
  pose proof (bit_positions_split (2 ^ m1) m2 ltac:(lia)) as S.
  rewrite bit_positions_pow2, E, Z.pow2_bits_false, !app_nil_r in S by lia.
  rewrite <- S. reflexivity.
Qed.

(** ** Fresh subtries *)

Lemma create_node_wf depth : forall s q k1 v1 k2 v2,
  (s <= 30)%N -> (s mod 5 = 0)%N ->
  low s (hash k1) = q -> low s (hash k2) = q -> k1 <> k2 ->
  (N.to_nat ((30 - s) / 5) < depth)%nat ->
  exists n,
    _create_node depth s (key_obj k1) (val_obj v1) (hash k2) (key_obj k2) (val_obj v2) = Some n
    /\ wf s q n.
Proof.
  induction depth as [|d IH]; intros s q k1 v1 k2 v2 Hs Hs5 Hq1 Hq2 Hk Hd;
    [exfalso; exact (Nat.nlt_0_r _ Hd)|].
  cbn [_create_node]. cbv zeta. rewrite hash_obj_key.
  destruct (N.ltb_spec 25 s) as [H25|H25].
  - eexists. split; [reflexivity|].
    apply (wf_CollisionNode s q [(k1, v1); (k2, v2)]); [exact H25|exact Hs5| |].
    + repeat constructor; simpl; intuition congruence.
    + repeat constructor; assumption.
  - pose proof (slice_range s (hash k1)) as R1. pose proof (slice_range s (hash k2)) as R2.
    destruct (Z.eqb_spec (slice s (hash k1)) (slice s (hash k2))) as [E|E].
    + assert (H5 : ((s + 5) mod 5 = 0)%N).
      { rewrite <- N.Div0.add_mod_idemp_l, Hs5. reflexivity. }
      assert (Hd' : (N.to_nat ((30 - (s + 5)) / 5) < d)%nat).
      { replace (30 - s)%N with (30 - (s + 5) + 1 * 5)%N in Hd by lia.
        rewrite N.div_add in Hd by lia. lia. }
      destruct (IH (s + 5)%N (q + 2 ^ Z.of_N s * slice s (hash k1)) k1 v1 k2 v2)
        as (n & -> & Hn); [lia|exact H5| | |exact Hk|exact Hd'|].
      * rewrite low_step, Hq1. reflexivity.
      * rewrite low_step, Hq2, E. reflexivity.
      * eexists. split; [reflexivity|]. rewrite Z.shiftl_1_l.
        constructor; [lia|assumption|apply word_pow2; assumption|].
        rewrite bit_positions_pow2 by assumption.
        repeat constructor. exact Hn.
    + destruct (Z.ltb_spec (slice s (hash k1)) (slice s (hash k2))) as [L|L];
        (eexists; split; [reflexivity|]); rewrite !Z.shiftl_1_l.
      * constructor; [lia|assumption|apply word_lor_pow2; [apply word_pow2|]; assumption|].
        rewrite bit_positions_two by lia. repeat constructor; auto.
      * constructor; [lia|assumption|apply word_lor_pow2; [apply word_pow2|]; assumption|].
        rewrite Z.lor_comm, bit_positions_two by lia. repeat constructor; auto.
Qed.

(** ** The operations on well-formed nodes *)

Lemma wf_bitmap_inv s q bm arr :
  wf s q (BitmapNode bm arr) ->
  (s <= 25)%N /\ (s mod 5 = 0)%N /\ 0 <= bm < 2 ^ 32 /\ wf_array s q (bit_positions bm) arr.
Proof. intros H; inversion H; subst; auto. Qed.

Lemma wf_collision_inv s q items :
  wf s q (CollisionNode items) ->
  exists kvs, items = flat kvs /\ (25 < s)%N /\ (s mod 5 = 0)%N /\
              NoDup (map fst kvs) /\ Forall (fun kv => low s (hash (fst kv)) = q) kvs.
Proof. intros H; inversion H; subst; eauto 8. Qed.

Lemma wf_slot_inv s q j x y :
  wf_slot s q j x y ->
  (exists k v, x = key_obj k /\ y = val_obj v /\ low s (hash k) = q /\ slice s (hash k) = j) \/
  (exists c, x = ONode c /\ y = ONone /\ wf (s + 5) (q + 2 ^ Z.of_N s * j) c).
Proof. intros H; inversion H; subst; [left|right]; eauto 8. Qed.

Lemma match_key_obj {A} k (f : node -> A) (g : A) :
  match key_obj k with ONode n => f n | _ => g end = g.
Proof. destruct k; reflexivity. Qed.

Lemma wf_bitmap_replace s q bm lo j hi a1 x y a2 :
  (s <= 25)%N -> (s mod 5 = 0)%N -> 0 <= bm < 2 ^ 32 ->
  bit_positions bm = lo ++ j :: hi ->
  wf_array s q lo a1 -> wf_slot s q j x y -> wf_array s q hi a2 ->
  wf s q (BitmapNode bm (a1 ++ x :: y :: a2)).
Proof.
  intros H25 H5 Hbm Hbp Hlo Hs Hhi. constructor; try assumption.
  rewrite Hbp. apply wf_array_app; [assumption|]. constructor; assumption.
Qed.

Lemma wf_bitmap_remove s q bm bit lo hi a1 a2 :
  (s <= 25)%N -> (s mod 5 = 0)%N -> 0 <= bm < 2 ^ 32 ->
  bit_positions (Z.land bm (Z.lnot bit)) = lo ++ hi ->
  wf_array s q lo a1 -> wf_array s q hi a2 ->
  wf s q (BitmapNode (Z.land bm (Z.lnot bit)) (a1 ++ a2)).
Proof.
  intros H25 H5 Hbm Hbp Hlo Hhi. constructor; try assumption.
  - apply word_land_r. assumption.
  - rewrite Hbp. apply wf_array_app; assumption.
Qed.

Lemma NoDup_map_remove (l1 l2 : list (key * value)) kv :
  NoDup (map fst (l1 ++ kv :: l2)) -> NoDup (map fst (l1 ++ l2)).
Proof. rewrite !map_app. cbn [map]. apply NoDup_remove_1. Qed.

Lemma NoDup_snoc {A} (l : list A) x : NoDup l -> ~ In x l -> NoDup (l ++ [x]).
Proof.
  induction 1 as [|a l Ha Hl IH]; simpl; intros Hx.
  - constructor; [intros []|constructor].
  - constructor; [|apply IH; tauto].
    intros Hin. apply in_app_or in Hin. destruct Hin as [?|[->|[]]]; tauto.
Qed.

Lemma Forall_remove {A} (P : A -> Prop) l1 x l2 :
  Forall P (l1 ++ x :: l2) -> Forall P (l1 ++ l2).
Proof.
  rewrite !Forall_app. intros [H1 H2]. split; [assumption|]. inversion H2; assumption.
Qed.

Lemma Forall_replace {A} (P : A -> Prop) l1 x x' l2 :
  Forall P (l1 ++ x :: l2) -> P x' -> Forall P (l1 ++ x' :: l2).
Proof.
  rewrite !Forall_app. intros [H1 H2] Hx. split; [assumption|].
  inversion H2; constructor; assumption.
Qed.

(** [find] and [without] fail together, with [KeyError]; where they
    succeed, [find] returns a value and [without] a well-formed node or
    none. *)
Lemma find_without_wf n : forall s q h k, wf s q n ->
  (find n s h k = Raise KeyError /\ without n s h k = Raise KeyError) \/
  (exists v r, find n s h k = Ok (val_obj v) /\ without n s h k = Ok r /\
               r <> Same /\ forall n', r = Node n' -> wf s q n').
Proof.
  induction n as [bm arr IH|items] using node_induction; intros s q h k Hwf.
  - destruct (wf_bitmap_inv _ _ _ _ Hwf) as (H25 & H5 & Hbm & Harr).
    destruct (bitmap_slot s q bm arr h Hbm Harr)
      as (lo & hi & a1 & Hlo & Hn & Hn0 & _ & _ &
          [(Hbit & Hbp & Hclr & x & y & a2 & -> & Hslot & Hhi)
          |(Hbit & Hbp & Hset & a2 & -> & Hhi)]).
    + rewrite find_bit_set, without_bit_set by assumption.
      assert (Hrm : exists r,
         (if _popcount bm =? 1 then Ok Gone
          else Ok (Node (BitmapNode (Z.land bm (Z.lnot (bitpos s h))) (a1 ++ a2)))) = Ok r /\
         r <> Same /\ forall n', r = Node n' -> wf s q n').
      { destruct (_popcount bm =? 1); eexists; (split; [reflexivity|]).
        - split; [discriminate|intros ? [=]].
        - split; [discriminate|]. intros n' [= <-].
          eapply wf_bitmap_remove; eassumption. }
      destruct Hrm as (r0 & Er0 & Hr0).
      destruct (wf_slot_inv _ _ _ _ _ Hslot) as [(k' & v' & -> & -> & Hq & Hj)|(c & -> & -> & Hc)].
      * rewrite !match_key_obj.
        destruct (py_eq (key_obj k') k); cbn [negb]; [right|left; split; reflexivity].
        rewrite Er0. exists v', r0. auto.
      * destruct (IH c (in_slot _ _ _ _) _ _ h k Hc)
          as [[-> ->]|(v & r & -> & -> & Hr & Hw)]; [left; split; reflexivity|].
        right. cbn [bind]. destruct r as [| |n']; [contradiction| |].
        -- rewrite Er0. exists v, r0. auto.
        -- eexists v, _; split; [reflexivity|]; split; [reflexivity|].
           split; [discriminate|]. intros ? [= <-].
           eapply wf_bitmap_replace; try eassumption. constructor. apply Hw. reflexivity.
    + left. rewrite find_bit_unset, without_bit_unset by assumption. split; reflexivity.
  - destruct (wf_collision_inv _ _ _ Hwf) as (kvs & -> & H25 & H5 & Hnd & Hq). cbn [find without].
    destruct (index_of_flat kvs 0 k) as [[E Hni]|(l1 & v & l2 & -> & Hni & E)]; rewrite E.
    + left. split; reflexivity.
    + right. rewrite getitem_pair, remove_pair.
      exists v. destruct (_ =? 2); eexists; (split; [reflexivity|]); (split; [reflexivity|]);
        (split; [discriminate|]); intros n' [= <-].
      constructor; [assumption|assumption|eapply NoDup_map_remove|eapply Forall_remove];
        eassumption.
Qed.

(** [assoc] returns, and what it returns is well formed. *)
Lemma assoc_wf n : forall s q k v, wf s q n -> low s (hash k) = q ->
  exists r, assoc n s (hash k) k v = Ok r /\ wf s q (resolve n r).
Proof.
  induction n as [bm arr IH|items] using node_induction; intros s q k v Hwf Hk.
  - destruct (wf_bitmap_inv _ _ _ _ Hwf) as (H25 & H5 & Hbm & Harr).
    subst q. destruct (bitmap_slot s (low s (hash k)) bm arr (hash k) Hbm Harr)
      as (lo & hi & a1 & Hlo & Hn & Hn0 & _ & _ &
          [(Hbit & Hbp & Hclr & x & y & a2 & -> & Hslot & Hhi)
          |(Hbit & Hbp & Hset & a2 & -> & Hhi)]).
    + rewrite assoc_bit_set by assumption.
      destruct (is_None x && is_None y); [exists Self; split; [reflexivity|exact Hwf]|].
      destruct (wf_slot_inv _ _ _ _ _ Hslot) as [(k' & v' & -> & -> & Hq & Hj)|(c & -> & -> & Hc)].
      * rewrite match_key_obj.
        destruct (py_eq (key_obj k') k) eqn:Ek.
        -- apply py_eq_key_obj in Ek. subst k'.
           destruct (py_is (val_obj v') v); [exists Self; split; [reflexivity|exact Hwf]|].
           eexists. split; [reflexivity|]. cbn [resolve].
           eapply wf_bitmap_replace; try eassumption. constructor; assumption.
        -- assert (Hne : k' <> k) by (intros ->; rewrite py_eq_refl in Ek; discriminate).
           assert (Hsub : exists nn,
             (if (25 <=? s)%N then Ok (CollisionNode [key_obj k'; val_obj v'; key_obj k; val_obj v])
              else match _create_node recursion_limit (s + 5) (key_obj k') (val_obj v')
                             (hash k) (key_obj k) (val_obj v) with
                   | Some n => Ok n
                   | None => Raise RecursionError
                   end) = Ok nn /\
             wf (s + 5) (low s (hash k) + 2 ^ Z.of_N s * slice s (hash k)) nn).
           { assert (L1 : low (s + 5) (hash k') = low s (hash k) + 2 ^ Z.of_N s * slice s (hash k))
               by (rewrite low_step, Hq, Hj; reflexivity).
             assert (L2 : low (s + 5) (hash k) = low s (hash k) + 2 ^ Z.of_N s * slice s (hash k))
               by apply low_step.
             assert (H55 : ((s + 5) mod 5 = 0)%N)
               by (rewrite <- N.Div0.add_mod_idemp_l, H5; reflexivity).
             destruct (N.leb_spec 25 s).
             - eexists. split; [reflexivity|].
               apply (wf_CollisionNode _ _ [(k', v'); (k, v)]); [lia|exact H55| |].
               + repeat constructor; simpl; intuition congruence.
               + repeat constructor; assumption.
             - destruct (create_node_wf recursion_limit (s + 5)%N _ k' v' k v
                           ltac:(lia) H55 L1 L2 Hne) as (nn & -> & Hnn).
               + assert ((30 - (s + 5)) / 5 <= 6)%N
                   by (apply N.Div0.div_le_upper_bound; lia).
                 unfold recursion_limit. lia.
               + exists nn. split; [reflexivity|exact Hnn]. }
           destruct Hsub as (nn & -> & Hnn). cbn [bind].
           eexists. split; [reflexivity|]. cbn [resolve].
           eapply wf_bitmap_replace; try eassumption. constructor. exact Hnn.
      * destruct (IH c (in_slot _ _ _ _) _ _ k v Hc (low_step _ _)) as (r & -> & Hr).
        cbn [bind]. destruct r as [|n']; [exists Self; split; [reflexivity|exact Hwf]|].
        eexists. split; [reflexivity|]. cbn [resolve] in *.
        eapply wf_bitmap_replace; try eassumption. constructor. exact Hr.
    + rewrite assoc_bit_unset; try assumption.
      * eexists. split; [reflexivity|]. cbn [resolve].
        rewrite bitpos_pow2 in *. pose proof (slice_range s (hash k)).
        constructor; [assumption|assumption|apply word_lor_pow2; assumption|].
        rewrite Hset. apply wf_array_app; [assumption|].
        constructor; [constructor; reflexivity|assumption].
      * rewrite popcount_spec, Hbp by assumption.
        rewrite (wf_array_length _ _ _ _ Hlo), length_app. lia.
  - destruct (wf_collision_inv _ _ _ Hwf) as (kvs & -> & H25 & H5 & Hnd & Hq). cbn [assoc].
    destruct (index_of_flat kvs 0 k) as [[E Hni]|(l1 & v' & l2 & -> & Hni & E)]; rewrite E.
    + eexists. split; [reflexivity|]. cbn [resolve].
      change (flat kvs ++ [key_obj k; val_obj v]) with (flat kvs ++ flat [(k, v)]).
      rewrite <- flat_app. constructor; [assumption|assumption| |].
      * rewrite map_app. cbn [map fst]. apply NoDup_snoc; assumption.
      * apply Forall_app. split; [assumption|]. constructor; [exact Hk|constructor].
    + rewrite getitem_pair. cbn [bind].
      destruct (py_is (val_obj v') v); [exists Self; split; [reflexivity|exact Hwf]|].
      rewrite set_item_pair. cbn [bind]. eexists. split; [reflexivity|]. cbn [resolve].
      constructor; [assumption|assumption| |].
      * rewrite map_app in *. exact Hnd.
      * eapply Forall_replace; [eassumption|]. cbn [fst].
        apply (Forall_elt _ _ _ Hq).
Qed.

(** Writing back the value a key is bound to returns the node itself. *)
Lemma find_assoc_self n : forall s q h k v, wf s q n ->
  find n s h k = Ok (val_obj v) -> assoc n s h k v = Ok Self.
Proof.
  induction n as [bm arr IH|items] using node_induction; intros s q h k v Hwf Hf.
  - destruct (wf_bitmap_inv _ _ _ _ Hwf) as (H25 & H5 & Hbm & Harr).
    destruct (bitmap_slot s q bm arr h Hbm Harr)
      as (lo & hi & a1 & Hlo & Hn & Hn0 & _ & _ &
          [(Hbit & Hbp & Hclr & x & y & a2 & -> & Hslot & Hhi)
          |(Hbit & Hbp & Hset & a2 & -> & Hhi)]).
    + rewrite find_bit_set in Hf by assumption. rewrite assoc_bit_set by assumption.
      destruct (is_None x && is_None y); [reflexivity|].
      destruct (wf_slot_inv _ _ _ _ _ Hslot) as [(k' & v' & -> & -> & Hq & Hj)|(c & -> & -> & Hc)].
      * rewrite match_key_obj in Hf. rewrite match_key_obj.
        destruct (py_eq (key_obj k') k); [|discriminate].
        injection Hf as Hf. rewrite Hf.
        rewrite (proj2 (py_is_val_obj v v) eq_refl). reflexivity.
      * rewrite (IH c (in_slot _ _ _ _) _ _ h k v Hc Hf). reflexivity.
    + rewrite find_bit_unset in Hf by assumption. discriminate.
  - destruct (wf_collision_inv _ _ _ Hwf) as (kvs & -> & H25 & H5 & Hnd & Hq). cbn [find assoc] in *.
    destruct (index_of_flat kvs 0 k) as [[E Hni]|(l1 & v' & l2 & -> & Hni & E)];
      rewrite E in *; [discriminate|].
    rewrite getitem_pair in *. injection Hf as Hf. cbn [bind]. rewrite Hf.
    rewrite (proj2 (py_is_val_obj v v) eq_refl). reflexivity.
Qed.

(** ** Reachable containers *)

Lemma slice_0 h : slice 0 h = Z.land h 0x1f.
Proof. unfold slice. rewrite Z.shiftr_0_r. reflexivity. Qed.

Lemma wf_single s q k v :
  (s <= 25)%N -> (s mod 5 = 0)%N -> low s (hash k) = q ->
  wf s q (BitmapNode (bitpos s (hash k)) [key_obj k; val_obj v]).
Proof.
  intros H25 H5 Hq. rewrite bitpos_pow2. pose proof (slice_range s (hash k)).
  constructor; [assumption|assumption|apply word_pow2; assumption|].
  rewrite bit_positions_pow2 by assumption. repeat constructor. assumption.
Qed.

Lemma find_wf n s q h k : wf s q n ->
  find n s h k = Raise KeyError \/ exists v, find n s h k = Ok (val_obj v).
Proof.
  intros Hwf. destruct (find_without_wf n s q h k Hwf) as [[E _]|(v & r & E & _)]; eauto.
Qed.

(** What [_assoc_with_added] returns on a well-formed root. *)
Lemma assoc_with_added_wf root k v : wf 0 0 root ->
  exists r added,
    _assoc_with_added (Some root) 0 (hash k) k v = Ok (r, added) /\
    assoc root 0 (hash k) k v = Ok r /\
    wf 0 0 (resolve root r) /\
    (added = true <-> find root 0 (hash k) k = Raise KeyError).
Proof.
  intros Hwf. destruct (assoc_wf root 0 0 k v Hwf (low_0 _)) as (r & Ea & Hr).
  unfold _assoc_with_added. rewrite Ea.
  destruct (find_wf root 0 0 (hash k) k Hwf) as [Ef|(v' & Ef)]; rewrite Ef; cbn [bind].
  - exists r, true. repeat split; auto.
  - exists r, false. repeat split; auto; discriminate.
Qed.

Lemma set_wf c k v : wf_root (_root c) ->
  exists c', set c k v = Ok c' /\ wf_root (_root c').
Proof.
  unfold set, wf_root. destruct (_root c) as [root|]; intros Hwf.
  - destruct (assoc_with_added_wf root k v Hwf) as (r & added & -> & _ & Hr & _).
    cbn [bind]. eexists. split; [reflexivity|exact Hr].
  - eexists. split; [reflexivity|]. cbn [_root]. rewrite <- slice_0.
    apply (wf_single 0 0 k v); [lia|reflexivity|apply low_0].
Qed.

Lemma delete_wf c k c' : wf_root (_root c) -> delete c k = Ok c' -> wf_root (_root c').
Proof.
  unfold delete, wf_root. destruct (_root c) as [root|]; intros Hwf H; [|discriminate].
  destruct (find_without_wf root 0 0 (hash k) k Hwf) as [[_ E]|(v & r & _ & E & Hr & Hw)];
    rewrite E in H; [discriminate|].
  injection H as <-. cbn [_root]. destruct r as [| |n']; [contradiction|exact I|].
  apply Hw. reflexivity.
Qed.

Lemma reachable_wf c : reachable c -> wf_root (_root c).
Proof.
  induction 1 as [|c k v c' _ IH E|c k c' _ IH E].
  - exact I.
  - destruct (set_wf c k v IH) as (c'' & E' & Hwf). congruence.
  - eapply delete_wf; eassumption.
Qed.

(** ** Results without the recursion limit *)

Lemma bind_no_rec {A B} (r : result A) (f : A -> result B) :
  r <> Raise RecursionError -> (forall a, f a <> Raise RecursionError) ->
  bind r f <> Raise RecursionError.
Proof.
  destruct r as [a|e]; simpl; auto. intros H _ E. apply H. injection E as ->. reflexivity.
Qed.

Lemma item_no_rec {A} (k : obj -> result A) l n :
  (forall x, In x l -> k x <> Raise RecursionError) -> item k l n <> Raise RecursionError.
Proof.
  revert n; induction l as [|x l IH]; intros n Hk; simpl; [discriminate|].
  destruct n; [apply Hk; left; reflexivity|apply IH; intros y Hy; apply Hk; right; exact Hy].
Qed.

Lemma getitem_no_rec l n : getitem l n <> Raise RecursionError.
Proof. apply item_no_rec. discriminate. Qed.

Lemma set_item_no_rec l n x : set_item l n x <> Raise RecursionError.
Proof.
  unfold set_item. generalize (Z.to_nat n). clear n.
  induction l as [|y l IH]; intros n; simpl; [discriminate|].
  destruct n; [discriminate|]. apply bind_no_rec; [apply IH|discriminate].
Qed.

(** [_create_node] returns within [(30 - shift) / 5 + 1] nested calls. *)
Lemma create_node_total depth : forall s key1 val1 hash2 key2 val2,
  (N.to_nat ((30 - s) / 5) < depth)%nat ->
  exists n, _create_node depth s key1 val1 hash2 key2 val2 = Some n.
Proof.
  induction depth as [|d IH]; intros s key1 val1 hash2 key2 val2 Hd;
    [exfalso; exact (Nat.nlt_0_r _ Hd)|].
  cbn [_create_node]. cbv zeta.
  destruct (N.ltb_spec 25 s) as [H25|H25]; [eexists; reflexivity|].
  destruct (_ =? _).
  - destruct (IH (s + 5)%N key1 val1 hash2 key2 val2) as (n & ->); [|eexists; reflexivity].
    replace (30 - s)%N with (30 - (s + 5) + 1 * 5)%N in Hd by lia.
    rewrite N.div_add in Hd by lia. lia.
  - destruct (_ <? _); eexists; reflexivity.
Qed.

Lemma assoc_no_rec n : forall s h k v, assoc n s h k v <> Raise RecursionError.
Proof.
  induction n as [bm arr IH|items] using node_induction; intros s h k v.
  - cbn [assoc]. cbv zeta. destruct (negb _).
    + assert (Hnew : forall x y,
                (if (25 <=? s)%N then Ok (CollisionNode [x; y; key_obj k; val_obj v])
                 else match _create_node recursion_limit (s + 5) x y h (key_obj k) (val_obj v) with
                      | Some n => Ok n
                      | None => Raise RecursionError
                      end) <> Raise RecursionError).
      { intros x y. destruct (N.leb_spec 25 s); [discriminate|].
        destruct (create_node_total recursion_limit (s + 5)%N x y h (key_obj k) (val_obj v))
          as (n & ->); [|discriminate].
        assert ((30 - (s + 5)) / 5 <= 6)%N by (apply N.Div0.div_le_upper_bound; lia).
        unfold recursion_limit. lia. }
      assert (Hleaf : forall x y,
                (if py_eq x k
                 then if py_is y v then Ok Self
                      else new_array <- set_item arr (_popcount (Z.land bm (bitpos s h - 1)) * 2 + 1)
                                          (val_obj v) ;;
                           Ok (New (BitmapNode bm new_array))
                 else new_node <-
                        (if (25 <=? s)%N then Ok (CollisionNode [x; y; key_obj k; val_obj v])
                         else match _create_node recursion_limit (s + 5) x y h (key_obj k) (val_obj v) with
                              | Some n => Ok n
                              | None => Raise RecursionError
                              end) ;;
                      new_array <- set_item arr (_popcount (Z.land bm (bitpos s h - 1)) * 2)
                                     (ONode new_node) ;;
                      new_array0 <- set_item new_array
                                      (_popcount (Z.land bm (bitpos s h - 1)) * 2 + 1) ONone ;;
                      Ok (New (BitmapNode bm new_array0))) <> Raise RecursionError).
      { intros x y. destruct (py_eq x k).
        - destruct (py_is y v); [discriminate|].
          apply bind_no_rec; [apply set_item_no_rec|discriminate].
        - apply bind_no_rec; [apply Hnew|]. intros nn.
          apply bind_no_rec; [apply set_item_no_rec|]. intros a.
          apply bind_no_rec; [apply set_item_no_rec|discriminate]. }
      apply item_no_rec. intros x Hx.
      apply bind_no_rec; [apply getitem_no_rec|]. intros y.
      destruct (is_None x && is_None y); [discriminate|].
      destruct x as [| | |c]; try apply Hleaf.
      apply bind_no_rec; [apply IH; exact Hx|]. intros [|n']; [discriminate|].
      apply bind_no_rec; [apply set_item_no_rec|discriminate].
    + apply bind_no_rec; [apply set_item_no_rec|]. intros a.
      apply bind_no_rec; [apply set_item_no_rec|discriminate].
  - cbn [assoc]. destruct (index_of items 0 k); [|discriminate].
    apply bind_no_rec; [apply getitem_no_rec|]. intros y.
    destruct (py_is y v); [discriminate|].
    apply bind_no_rec; [apply set_item_no_rec|discriminate].
Qed.

(** ** Collision nodes *)

Lemma wf_array_child s q js arr c :
  wf_array s q js arr -> In (ONode c) arr -> exists q', wf (s + 5) q' c.
Proof.
  induction 1 as [|s q j js x y arr Hs _ IH]; intros Hin; [destruct Hin|].
  destruct (wf_slot_inv _ _ _ _ _ Hs) as [(k & v & -> & -> & _)|(c' & -> & -> & Hc)];
    destruct Hin as [E|[E|Hin]]; auto; try discriminate E.
  - exfalso. exact (key_obj_not_node _ _ E).
  - destruct v; discriminate E.
  - injection E as <-. eauto.
Qed.

Lemma low_30 s h1 h2 : (25 < s)%N -> (s mod 5 = 0)%N ->
  low s h1 = low s h2 -> h1 mod 2 ^ 30 = h2 mod 2 ^ 30.
Proof.
  intros H25 H5 H. apply (low_le 30 s h1 h2); [|exact H].
  destruct (N.le_gt_cases 30 s) as [?|Hlt]; [assumption|exfalso].
  assert (E : s = (5 * (s / 5) + s mod 5)%N) by (apply N.div_mod; lia).
  rewrite H5 in E. lia.
Qed.

Lemma collisions_wf n : forall s q items, wf s q n -> In items (collisions n) ->
  exists kvs, items = flat kvs /\ NoDup (map fst kvs) /\
    forall k1 k2, In k1 (map fst kvs) -> In k2 (map fst kvs) ->
                  hash k1 mod 2 ^ 30 = hash k2 mod 2 ^ 30.
Proof.
  induction n as [bm arr IH|items'] using node_induction; intros s q items Hwf Hin.
  - destruct (wf_bitmap_inv _ _ _ _ Hwf) as (_ & _ & _ & Harr).
    cbn [collisions] in Hin. apply in_flat_map in Hin. destruct Hin as (x & Hx & Hin).
    destruct x as [| | |c]; try destruct Hin.
    destruct (wf_array_child _ _ _ _ _ Harr Hx) as (q' & Hc).
    exact (IH c Hx _ _ _ Hc Hin).
  - destruct (wf_collision_inv _ _ _ Hwf) as (kvs & -> & H25 & H5 & Hnd & Hq).
    destruct Hin as [<-|[]]. exists kvs. repeat split; [assumption|].
    intros k1 k2 H1 H2. apply (low_30 s); try assumption.
    rewrite Forall_forall in Hq.
    apply in_map_iff in H1, H2. destruct H1 as (kv1 & <- & H1), H2 as (kv2 & <- & H2).
    rewrite (Hq _ H1), (Hq _ H2). reflexivity.
Qed.

(** ** The branch of [find] for a [None] entry *)

Section NoneBranch.
Variables (bm : Z) (s : N) (h : Z) (a1 a2 : list obj) (x y : obj).
Local Abbreviation idx := (_popcount (Z.land bm (bitpos s h - 1))).
Hypothesis Hbit : (Z.land bm (bitpos s h) =? 0) = false.
Hypothesis Hn : Z.to_nat (idx * 2) = length a1.

Lemma takes_None_branch_bit_set k :
  takes_None_branch (BitmapNode bm (a1 ++ x :: y :: a2)) s h k =
  match x with
  | ONone => true
  | ONode n => takes_None_branch n (s + 5) h k
  | _ => false
  end.
Proof. cbn [takes_None_branch]. rewrite Hbit. cbv zeta. rewrite Hn, item_app. reflexivity. Qed.
End NoneBranch.

Lemma split_prefix P a b q j :
  0 < P -> 0 <= a < P -> 0 <= q < P -> a + P * b = q + P * j -> a = q /\ b = j.
Proof. intros HP Ha Hq E. assert (b = j) by nia. subst. lia. Qed.

Lemma low_range s h : 0 <= low s h < 2 ^ Z.of_N s.
Proof. unfold low. apply Z.mod_pos_bound. apply Z.pow_pos_nonneg; lia. Qed.

(** A lookup that runs the branch has met the leaf pair of the key
    [None], and the lookup of [None] finds that pair. *)
Lemma takes_None_branch_wf n : forall s q h k, wf s q n -> 0 <= q < 2 ^ Z.of_N s ->
  takes_None_branch n s h k = true ->
  low s hash_None = q /\ exists v, find n s hash_None KNone = Ok v.
Proof.
  induction n as [bm arr IH|items] using node_induction; intros s q h k Hwf Hq Ht;
    [|discriminate Ht].
  destruct (wf_bitmap_inv _ _ _ _ Hwf) as (H25 & H5 & Hbm & Harr).
  destruct (bitmap_slot s q bm arr h Hbm Harr)
    as (lo & hi & a1 & Hlo & Hn & Hn0 & _ & _ &
        [(Hbit & Hbp & Hclr & x & y & a2 & -> & Hslot & Hhi)
        |(Hbit & Hbp & Hset & a2 & -> & Hhi)]).
  2:{ cbn [takes_None_branch] in Ht. rewrite Hbit in Ht. discriminate Ht. }
  rewrite takes_None_branch_bit_set in Ht by assumption.
  assert (Hsame : slice s hash_None = slice s h ->
                  find (BitmapNode bm (a1 ++ x :: y :: a2)) s hash_None KNone =
                  match x with
                  | ONode n => find n (s + 5) hash_None KNone
                  | _ => if py_eq x KNone then Ok y else Raise KeyError
                  end).
  { intros E. apply find_bit_set; unfold bitpos; rewrite E; assumption. }
  destruct (wf_slot_inv _ _ _ _ _ Hslot) as [(k' & v' & -> & -> & Hk' & Hj)|(c & -> & -> & Hc)].
  - destruct k'; [|discriminate Ht]. split; [exact Hk'|].
    rewrite (Hsame Hj). eexists. reflexivity.
  - pose proof (slice_range s h) as Hr.
    assert (HP : 0 < 2 ^ Z.of_N s) by (apply Z.pow_pos_nonneg; lia).
    destruct (IH c (in_slot _ _ _ _) _ _ h k Hc) as (Hl & v & Hv); [| exact Ht |].
    + rewrite N2Z.inj_add, Z.pow_add_r by lia. change (2 ^ Z.of_N 5) with 32. nia.
    + rewrite low_step in Hl.
      destruct (split_prefix _ _ _ _ _ HP (low_range s hash_None) Hq Hl) as [E1 E2].
      split; [exact E1|]. rewrite (Hsame E2). eauto.
Qed.

(** ** Runs of [set] *)

Lemma set_all_reachable kvs : forall c c',
  reachable c -> set_all kvs c = Ok c' -> reachable c'.
Proof.
  unfold set_all. induction kvs as [|[k v] kvs IH]; intros c c' Hc H; simpl in H.
  - injection H as <-. exact Hc.
  - destruct (set c k v) as [c1|e] eqn:E.
    + exact (IH c1 c' (reachable_set _ _ _ _ Hc E) H).
    + exfalso. clear -H. induction kvs as [|kv kvs IH]; simpl in H; [discriminate|auto].
Qed.

(** * The claims *)

(** C1 (the code departs from the claim).  Insert-then-lookup: looking up
    [k] in [c.set(k, v)] yields [v].  At the container holding the key
    [None] with the value [None], [set(None, v)] returns a container in
    which [None] is still bound to [None]: [assoc] takes a leaf pair
    [(None, None)] for an empty slot and returns the node unchanged. *)
Theorem set_over_None_pair_is_lost :
  exists c c',
    set empty KNone VNone = Ok c /\
    set c KNone (VObj 1) = Ok c' /\
    __getitem__ c' KNone = Ok (val_obj VNone) /\
    val_obj VNone <> val_obj (VObj 1) /\
    c' = c.
Proof.
  eexists. eexists. split; [reflexivity|]. split; [reflexivity|].
  split; [reflexivity|]. split; [discriminate|reflexivity].
Qed.

(** C2 (the code departs from the claim).  Deleting a key of a collision
    node of two entries keeps the other key.  At the container of two keys
    of hash 0, deleting the first one loses the second as well:
    [CollisionNode.without] returns [None] for the one remaining entry and
    [BitmapNode.without] drops the slot, so the remaining pair is attached
    nowhere. *)
Theorem collision_delete_loses_sibling :
  exists c c',
    set_all [(KObj 0 1, VObj 1); (KObj 0 2, VObj 2)] empty = Ok c /\
    In [OKey 0 1; OVal 1; OKey 0 2; OVal 2] (collisions (match _root c with
                                                         | Some n => n
                                                         | None => CollisionNode []
                                                         end)) /\
    __contains__ c (KObj 0 2) = Ok true /\
    delete c (KObj 0 1) = Ok c' /\
    __contains__ c' (KObj 0 2) = Ok false /\
    __getitem__ c' (KObj 0 2) = Raise KeyError /\
    __iter__ c' = Ok [].
Proof.
  eexists. eexists. split; [vm_compute; reflexivity|].
  split; [vm_compute; auto|].
  repeat split; vm_compute; reflexivity.
Qed.

(** C3 (the code departs from the claim).  The stored size is the number
    of entries reachable from the root.  After the deletion of C2 the
    container is reachable, its size is 1 and its root holds no entry: the
    deletion removed two entries and the size went down by one. *)
Theorem size_differs_from_entries :
  exists c c',
    set_all [(KObj 0 1, VObj 1); (KObj 0 2, VObj 2)] empty = Ok c /\
    __len__ c = 2 /\ entries_root (_root c) = 2 /\
    delete c (KObj 0 1) = Ok c' /\
    reachable c' /\
    __len__ c' = 1 /\ entries_root (_root c') = 0.
Proof.
  eexists. eexists. split; [vm_compute; reflexivity|].
  split; [reflexivity|]. split; [reflexivity|]. split; [vm_compute; reflexivity|].
  split; [|split; reflexivity].
  eapply (reachable_delete _ (KObj 0 1));
    [eapply (set_all_reachable [(KObj 0 1, VObj 1); (KObj 0 2, VObj 2)] empty);
       [constructor|vm_compute; reflexivity]
    |vm_compute; reflexivity].
Qed.

(** C6 (the code departs from the claim).  Iteration yields every key
    present.  The container holding the key [None] alone contains [None]
    and iterates over nothing: [BitmapNode.__iter__] skips a leaf pair
    whose key is [None], where [CollisionNode.__iter__] yields every
    key. *)
Theorem iteration_skips_None_key :
  exists c,
    set empty KNone (VObj 1) = Ok c /\
    __contains__ c KNone = Ok true /\
    __getitem__ c KNone = Ok (OVal 1) /\
    __iter__ c = Ok [].
Proof. eexists. repeat split; reflexivity. Qed.

(** C5, as the code has it.  In every reachable container the items of a
    collision node are the pairs of keys that are pairwise different and
    whose hashes agree on their 30 low bits, the bits the six slices
    above the node consume. *)
Theorem collision_keys_share_low_bits c root items :
  reachable c -> _root c = Some root -> In items (collisions root) ->
  exists kvs, items = flat kvs /\ NoDup (map fst kvs) /\
    forall k1 k2, In k1 (map fst kvs) -> In k2 (map fst kvs) ->
                  hash k1 mod 2 ^ 30 = hash k2 mod 2 ^ 30.
Proof.
  intros Hc Hroot Hin. pose proof (reachable_wf c Hc) as Hwf.
  rewrite Hroot in Hwf. exact (collisions_wf root 0 0 items Hwf Hin).
Qed.

Lemma collision_keys_share_low_bits_witness :
  exists kvs, [OKey 0 1; OVal 1; OKey 0 2; OVal 2] = flat kvs /\ NoDup (map fst kvs) /\
    forall k1 k2, In k1 (map fst kvs) -> In k2 (map fst kvs) ->
                  hash k1 mod 2 ^ 30 = hash k2 mod 2 ^ 30.
Proof.
  eapply (collision_keys_share_low_bits _ _ _).
  - eapply (set_all_reachable [(KObj 0 1, VObj 1); (KObj 0 2, VObj 2)] empty);
      [constructor|vm_compute; reflexivity].
  - reflexivity.
  - vm_compute. auto.
Defined.

(** C5 as stated fails: two keys whose hashes agree on the 30 low bits
    and differ in bit 30 are stored in one collision node. *)
Lemma collision_keys_differ_in_hash32 :
  exists c root items,
    set_all [(KObj 0 1, VObj 1); (KObj (2 ^ 30) 2, VObj 2)] empty = Ok c /\
    reachable c /\ _root c = Some root /\ In items (collisions root) /\
    In (key_obj (KObj 0 1)) (evens items) /\
    In (key_obj (KObj (2 ^ 30) 2)) (evens items) /\
    hash (KObj 0 1) mod 2 ^ 32 <> hash (KObj (2 ^ 30) 2) mod 2 ^ 32.
Proof.
  eexists. eexists. eexists. split; [vm_compute; reflexivity|].
  split; [eapply (set_all_reachable [(KObj 0 1, VObj 1); (KObj (2 ^ 30) 2, VObj 2)] empty);
            [constructor|vm_compute; reflexivity]|].
  split; [reflexivity|]. split; [vm_compute; left; reflexivity|].
  split; [vm_compute; auto|]. split; [vm_compute; auto|]. vm_compute. discriminate.
Qed.

(** C8.  For a key [k] present in a reachable container [c], bound to the
    value object [o]: [c.set(k, o)] returns a container with the size of
    [c] and the root of [c], the very node object: [assoc] returns [self]
    at the root. *)
Theorem set_stored_value_is_noop c k o :
  reachable c -> __getitem__ c k = Ok o ->
  exists v root,
    o = val_obj v /\ _root c = Some root /\
    assoc root 0 (hash k) k v = Ok Self /\
    _assoc_with_added (Some root) 0 (hash k) k v = Ok (Self, false) /\
    set c k v = Ok c.
Proof.
  intros Hc Hget. pose proof (reachable_wf c Hc) as Hwf.
  unfold __getitem__, set, wf_root in *. destruct c as [[root|] size]; cbn [_root _size] in *;
    [|discriminate].
  destruct (find_wf root 0 0 (hash k) k Hwf) as [E|(v & E)]; rewrite E in Hget;
    [discriminate|]. injection Hget as <-.
  pose proof (find_assoc_self root 0 0 (hash k) k v Hwf E) as Ea.
  exists v, root. split; [reflexivity|]. split; [reflexivity|]. split; [exact Ea|].
  assert (Eaa : _assoc_with_added (Some root) 0 (hash k) k v = Ok (Self, false))
    by (unfold _assoc_with_added; rewrite E, Ea; reflexivity).
  split; [exact Eaa|]. rewrite Eaa. cbn [bind resolve]. rewrite Z.add_0_r. reflexivity.
Qed.

Lemma set_stored_value_is_noop_witness :
  exists v root,
    OVal 7 = val_obj v /\ Some (BitmapNode 2 [OKey 1 1; OVal 7]) = Some root /\
    assoc root 0 (hash (KObj 1 1)) (KObj 1 1) v = Ok Self /\
    _assoc_with_added (Some root) 0 (hash (KObj 1 1)) (KObj 1 1) v = Ok (Self, false) /\
    set (mkHAMT (Some (BitmapNode 2 [OKey 1 1; OVal 7])) 1) (KObj 1 1) v =
    Ok (mkHAMT (Some (BitmapNode 2 [OKey 1 1; OVal 7])) 1).
Proof.
  apply (set_stored_value_is_noop (mkHAMT (Some (BitmapNode 2 [OKey 1 1; OVal 7])) 1)
           (KObj 1 1) (OVal 7)).
  - apply (reachable_set empty (KObj 1 1) (VObj 7)); [constructor|reflexivity].
  - reflexivity.
Defined.

(** C9, as the code has it.  In a reachable container that does not
    contain the key [None], no lookup runs the branch of
    [BitmapNode.find] guarded by [node_or_val is None]. *)
Theorem None_branch_needs_None_key c root k :
  reachable c -> _root c = Some root -> __contains__ c KNone = Ok false ->
  takes_None_branch root 0 (hash k) k = false.
Proof.
  intros Hc Hroot Hno. pose proof (reachable_wf c Hc) as Hwf.
  unfold __contains__ in Hno. rewrite Hroot in Hno, Hwf. cbn [wf_root] in Hwf.
  destruct (takes_None_branch root 0 (hash k) k) eqn:E; [exfalso|reflexivity].
  destruct (takes_None_branch_wf root 0 0 (hash k) k Hwf ltac:(simpl; lia) E) as (_ & v & Hv).
  cbn [hash] in Hno. rewrite Hv in Hno. discriminate Hno.
Qed.

Lemma None_branch_needs_None_key_witness :
  takes_None_branch (BitmapNode 2 [OKey 1 1; OVal 7]) 0 (hash (KObj 1 1)) (KObj 1 1) = false.
Proof.
  apply (None_branch_needs_None_key (mkHAMT (Some (BitmapNode 2 [OKey 1 1; OVal 7])) 1)).
  - apply (reachable_set empty (KObj 1 1) (VObj 7)); [constructor|reflexivity].
  - reflexivity.
  - reflexivity.
Defined.

(** C9 as stated fails: the lookup of [None] in the container holding the
    key [None] runs the branch. *)
Lemma None_branch_is_taken :
  exists c root,
    set empty KNone (VObj 1) = Ok c /\ reachable c /\ _root c = Some root /\
    takes_None_branch root 0 (hash KNone) KNone = true /\
    __getitem__ c KNone = Ok (OVal 1).
Proof.
  eexists. eexists. split; [reflexivity|].
  split; [apply (reachable_set empty KNone (VObj 1)); [constructor|reflexivity]|].
  repeat split; reflexivity.
Qed.

(** C10.  [_create_node] returns on every input, within
    [(30 - shift) / 5 + 1] nested calls: each call passes [shift + 5] and
    a shift above 25 ends the recursion.  So [assoc] never exceeds the
    recursion limit, and [set] returns a container on every reachable
    one. *)
Theorem create_node_terminates :
  (forall shift key1 val1 hash2 key2 val2 extra,
     exists n,
       _create_node (N.to_nat ((30 - shift) / 5) + 1 + extra) shift key1 val1 hash2 key2 val2
       = Some n) /\
  (forall shift key1 val1 hash2 key2 val2,
     (25 < shift)%N ->
     _create_node 1 shift key1 val1 hash2 key2 val2 =
     Some (CollisionNode [key1; val1; key2; val2])) /\
  (forall self shift hash_val k v, assoc self shift hash_val k v <> Raise RecursionError) /\
  (forall c k v, reachable c -> exists c', set c k v = Ok c').
Proof.
  split; [|split; [|split]].
  - intros. apply create_node_total. lia.
  - intros shift key1 val1 hash2 key2 val2 H. cbn [_create_node].
    destruct (N.ltb_spec 25 shift); [reflexivity|lia].
  - intros. apply assoc_no_rec.
  - intros c k v Hc. destruct (set_wf c k v (reachable_wf c Hc)) as (c' & E & _). eauto.
Qed.

Lemma create_node_terminates_witness :
  exists c', set (mkHAMT (Some (BitmapNode 2 [OKey 1 1; OVal 7])) 1) (KObj 33 2) (VObj 8) = Ok c'.
Proof.
  apply (proj2 (proj2 (proj2 create_node_terminates))).
  apply (reachable_set empty (KObj 1 1) (VObj 7)); [constructor|reflexivity].
Defined.

(** * The object store *)

(** ** Stores *)

Lemma nth_error_ext (st e : Store.store) a o :
  nth_error st a = Some o -> nth_error (st ++ e) a = Some o.
Proof.
  intros H. rewrite nth_error_app1; [exact H|]. apply nth_error_Some. congruence.
Qed.

Lemma nth_error_new (st e : Store.store) o : nth_error (st ++ o :: e) (length st) = Some o.
Proof. rewrite nth_error_app2, Nat.sub_diag by lia. reflexivity. Qed.

Lemma update_new st o o' e :
  Store.update (st ++ o :: e) (length st) o' = st ++ o' :: e.
Proof. induction st as [|x st IH]; simpl; [reflexivity|rewrite IH; reflexivity]. Qed.

Lemma update_other st a o b :
  a <> b -> nth_error (Store.update st a o) b = nth_error st b.
Proof.
  revert a b; induction st as [|x st IH]; intros a b Hab; [destruct a; reflexivity|].
  destruct a, b; simpl; try reflexivity; [congruence|]. apply IH. congruence.
Qed.

Lemma load_at st a o : nth_error st a = Some o -> Store.load a st = (Ok o, st).
Proof. unfold Store.load. intros ->. reflexivity. Qed.

Lemma items_of_at st a l :
  nth_error st a = Some (Store.List l) -> Store.items_of a st = (Ok l, st).
Proof. intros H. unfold Store.items_of, Store.bind. rewrite (load_at _ _ _ H). reflexivity. Qed.

Lemma getitem_at st a l i :
  nth_error st a = Some (Store.List l) ->
  Store.getitem a i st =
  (match nth_error l (Z.to_nat i) with Some x => Ok x | None => Raise IndexError end, st).
Proof.
  intros H. unfold Store.getitem, Store.bind. rewrite (items_of_at _ _ _ H).
  destruct (nth_error l (Z.to_nat i)); reflexivity.
Qed.

Lemma copy_at st a l :
  nth_error st a = Some (Store.List l) ->
  Store.copy a st = (Ok (length st), st ++ [Store.List l]).
Proof. intros H. unfold Store.copy, Store.bind. rewrite (items_of_at _ _ _ H). reflexivity. Qed.

(** A list that was just allocated is written in place. *)
Lemma setitem_new st l e i x :
  Store.setitem (length st) i x (st ++ Store.List l :: e) =
  match Store.replace_nth l (Z.to_nat i) x with
  | Some l' => (Ok tt, st ++ Store.List l' :: e)
  | None => (Raise IndexError, st ++ Store.List l :: e)
  end.
Proof.
  unfold Store.setitem, Store.bind. rewrite (items_of_at _ _ l) by apply nth_error_new.
  destruct (Store.replace_nth l (Z.to_nat i) x); [|reflexivity].
  unfold Store.write. rewrite update_new. reflexivity.
Qed.

Lemma set_slice_to_new st l e i xs :
  Store.set_slice_to (length st) i xs (st ++ Store.List l :: e) =
  (Ok tt, st ++ Store.List (xs ++ skipn (Z.to_nat i) l) :: e).
Proof.
  unfold Store.set_slice_to, Store.bind. rewrite (items_of_at _ _ l) by apply nth_error_new.
  unfold Store.write. rewrite update_new. reflexivity.
Qed.

Lemma set_slice_from_new st l e i xs :
  Store.set_slice_from (length st) i xs (st ++ Store.List l :: e) =
  (Ok tt, st ++ Store.List (firstn (Z.to_nat i) l ++ xs) :: e).
Proof.
  unfold Store.set_slice_from, Store.bind. rewrite (items_of_at _ _ l) by apply nth_error_new.
  unfold Store.write. rewrite update_new. reflexivity.
Qed.

(** ** Lists of the store and lists of the nodes *)

Section Related.
Variable R : Store.pyval -> obj -> Prop.

Lemma related_nth l arr n :
  Forall2 R l arr ->
  match nth_error l n, nth_error arr n with
  | Some p, Some o => R p o
  | None, None => True
  | _, _ => False
  end.
Proof.
  intros H; revert n; induction H as [|p o l arr Hpo _ IH]; intros [|n]; simpl; auto.
  apply IH.
Qed.

Lemma related_replace l arr n p o :
  Forall2 R l arr -> R p o ->
  match Store.replace_nth l n p, setitem arr n o with
  | Some l', Ok arr' => Forall2 R l' arr'
  | None, Raise IndexError => True
  | _, _ => False
  end.
Proof.
  intros H Hpo; revert n; induction H as [|p' o' l arr Hpo' H IH]; intros [|n]; simpl; auto.
  specialize (IH n). destruct (Store.replace_nth l n p), (setitem arr n o) as [arr'|[]];
    simpl; auto.
Qed.

Lemma related_firstn l arr n : Forall2 R l arr -> Forall2 R (firstn n l) (firstn n arr).
Proof.
  intros H; revert n; induction H; intros [|n]; simpl; auto.
Qed.

Lemma related_skipn l arr n : Forall2 R l arr -> Forall2 R (skipn n l) (skipn n arr).
Proof.
  intros H; revert n; induction H; intros [|n]; simpl; auto.
Qed.

Lemma related_repeat n : R Store.PNone ONone -> Forall2 R (repeat Store.PNone n) (repeat ONone n).
Proof. intros H; induction n; simpl; auto. Qed.

Lemma related_length l arr : Forall2 R l arr -> length l = length arr.
Proof. induction 1; simpl; auto. Qed.
End Related.

Lemma item_nth {A} (k : obj -> result A) l n :
  item k l n = match nth_error l n with Some x => k x | None => Raise IndexError end.
Proof. revert n; induction l as [|x l IH]; intros [|n]; simpl; auto. Qed.

Lemma getitem_nth l i :
  getitem l i = match nth_error l (Z.to_nat i) with Some x => Ok x | None => Raise IndexError end.
Proof. unfold getitem. apply item_nth. Qed.

(** ** Values of the store and values of the nodes *)

Lemma repr_val_py_eq st p o k : Store.repr_val st p o -> Store.py_eq p k = py_eq o k.
Proof. intros []; destruct k; reflexivity. Qed.

Lemma repr_val_py_is st p o v : Store.repr_val st p o -> Store.py_is p v = py_is o v.
Proof. intros []; destruct v; reflexivity. Qed.

Lemma repr_val_is_None st p o : Store.repr_val st p o -> Store.is_None p = is_None o.
Proof. intros []; reflexivity. Qed.

Lemma repr_val_hash st p o : Store.repr_val st p o -> Store.hash_of p = hash_obj o.
Proof. intros []; reflexivity. Qed.

Lemma repr_val_key st k : Store.repr_val st (Store.pk k) (key_obj k).
Proof. destruct k; constructor. Qed.

Lemma repr_val_value st v : Store.repr_val st (Store.pv v) (val_obj v).
Proof. destruct v; constructor. Qed.

Lemma related_index_of st l arr k :
  Forall2 (Store.repr_val st) l arr ->
  forall i, Store.index_of l i k = index_of arr i k.
Proof.
  intros H.
  assert ((forall i, Store.index_of l i k = index_of arr i k) /\
          (forall p o, Store.repr_val st p o ->
                       forall i, Store.index_of (p :: l) i k = index_of (o :: arr) i k))
    as [G _]; [|exact G].
  induction H as [|p o l arr Hpo H [IH1 IH2]].
  - split; [reflexivity|]. intros p o Hpo i. simpl.
    rewrite (repr_val_py_eq _ _ _ k Hpo). reflexivity.
  - split; [apply IH2; exact Hpo|]. intros p' o' Hpo' i. simpl.
    rewrite (repr_val_py_eq _ _ _ k Hpo'). destruct (py_eq o' k); [reflexivity|]. apply IH1.
Qed.

Lemma related_evens st l arr :
  Forall2 (Store.repr_val st) l arr -> Forall2 (Store.repr_val st) (Store.evens l) (evens arr).
Proof.
  intros H.
  assert (Forall2 (Store.repr_val st) (Store.evens l) (evens arr) /\
          forall p o, Store.repr_val st p o ->
                      Forall2 (Store.repr_val st) (Store.evens (p :: l)) (evens (o :: arr)))
    as [G _]; [|exact G].
  induction H as [|p o l arr Hpo H [IH1 IH2]].
  - split; [constructor|]. intros p o Hpo. simpl. auto.
  - split; [apply IH2; exact Hpo|]. intros p' o' Hpo'. simpl. auto.
Qed.

(** ** Nodes of the store *)

Lemma repr_val_ext_in st e l arr :
  (forall c, In (ONode c) arr -> forall a, Store.repr st a c -> Store.repr (st ++ e) a c) ->
  Forall2 (Store.repr_val st) l arr -> Forall2 (Store.repr_val (st ++ e)) l arr.
Proof.
  intros Hin H. induction H as [|p o l arr Hpo H IH]; constructor.
  - destruct Hpo; constructor. apply (Hin n); [left; reflexivity|assumption].
  - apply IH. intros c Hc. apply Hin. right. exact Hc.
Qed.

(** An object that represents a node still does in a larger store. *)
Lemma repr_ext n : forall st e a, Store.repr st a n -> Store.repr (st ++ e) a n.
Proof.
  induction n as [bm arr IH|items IH] using node_induction; intros st e a H;
    inversion H as [? ? array l ? Ha Hl Hr|? items' l ? Ha Hl Hr]; subst.
  - eapply Store.repr_Bitmap; [apply nth_error_ext; eassumption..|].
    apply repr_val_ext_in; [|assumption]. intros c Hc a'. apply IH. exact Hc.
  - eapply Store.repr_Collision; [apply nth_error_ext; eassumption..|].
    apply repr_val_ext_in; [|assumption]. intros c Hc a'. apply IH. exact Hc.
Qed.

Lemma repr_val_ext st e p o : Store.repr_val st p o -> Store.repr_val (st ++ e) p o.
Proof. intros []; constructor. apply repr_ext. assumption. Qed.

Lemma related_ext st e l arr :
  Forall2 (Store.repr_val st) l arr -> Forall2 (Store.repr_val (st ++ e)) l arr.
Proof. intros H. eapply Forall2_impl; [|exact H]. intros p o. apply repr_val_ext. Qed.

Lemma repr_bound st a n : Store.repr st a n -> (a < length st)%nat.
Proof. intros H; inversion H; subst; apply nth_error_Some; congruence. Qed.

Lemma height_child bm arr c : In (ONode c) arr -> (height c < height (BitmapNode bm arr))%nat.
Proof.
  cbn [height]. induction arr as [|x arr IH]; intros Hin; [destruct Hin|].
  cbn [fold_right]. destruct Hin as [->|Hin]; [lia|]. specialize (IH Hin). lia.
Qed.

Lemma height_pos n : (1 <= height n)%nat.
Proof. destruct n; simpl; lia. Qed.

(** A value read in related lists. *)
Lemma related_getitem st a l arr i :
  nth_error st a = Some (Store.List l) -> Forall2 (Store.repr_val st) l arr ->
  Store.reads (Store.repr_val st) st (Store.getitem a i st) (getitem arr i).
Proof.
  intros Ha Hr. rewrite (getitem_at _ _ _ _ Ha), getitem_nth.
  pose proof (related_nth _ _ _ (Z.to_nat i) Hr) as Hn.
  destruct (nth_error l (Z.to_nat i)), (nth_error arr (Z.to_nat i)); try contradiction;
    simpl; eauto.
Qed.

Lemma reads_bind {A B A' B'} (R : A -> B -> Prop) (R' : A' -> B' -> Prop) st
  (m : Store.M A) (f : A -> Store.M A') (r : result B) (g : B -> result B') :
  Store.reads R st (m st) r ->
  (forall a b, R a b -> Store.reads R' st (f a st) (g b)) ->
  Store.reads R' st (Store.bind m f st) (bind r g).
Proof.
  unfold Store.reads at 1, Store.bind. destruct r as [b|ex]; cbn [bind].
  - intros (a & -> & Hab) Hf. apply Hf. exact Hab.
  - intros -> _. reflexivity.
Qed.

(** ** [find] over the store *)

Lemma find_refines n : forall st a s hv k d,
  Store.repr st a n -> (height n <= d)%nat ->
  Store.reads (Store.repr_val st) st (Store.find d a s hv k st) (find n s hv k).
Proof.
  induction n as [bm arr IH|items IH] using node_induction; intros st a s hv k d H Hd;
    (destruct d as [|d];
     [match type of Hd with (height ?t <= _)%nat => pose proof (height_pos t); lia end|]);
    inversion H as [? ? array l ? Ha Hl Hr|? items' l ? Ha Hl Hr]; subst;
    cbn [Store.find find]; unfold Store.bind at 1; rewrite (load_at _ _ _ Ha).
  - cbv zeta. destruct (Z.land bm (bitpos s hv) =? 0); [reflexivity|].
    set (idx := _popcount (Z.land bm (bitpos s hv - 1))).
    pose proof (related_getitem st array l arr (idx * 2 + 1) Hl Hr) as Hval.
    pose proof (related_getitem st array l arr (idx * 2) Hl Hr) as Hkey.
    rewrite item_nth. rewrite getitem_nth in Hkey.
    unfold Store.bind at 1.
    destruct (nth_error arr (Z.to_nat (idx * 2))) as [o|] eqn:Ea;
      [destruct Hkey as (p & Ep & Hp)|rewrite Hkey; reflexivity].
    rewrite Ep.
    destruct Hp as [|hk ik|iv|a' c Hc].
    + apply (reads_bind (Store.repr_val st)).
      { rewrite Ep, getitem_nth, Ea. exists Store.PNone. split; [reflexivity|constructor]. }
      intros p o Hpo. apply (reads_bind (Store.repr_val st)); [exact Hval|].
      intros p' o' Hpo'. rewrite (repr_val_py_eq _ _ _ k Hpo).
      destruct (py_eq o k); [exists p'; split; [reflexivity|assumption]|reflexivity].
    + destruct k as [|h' i']; [reflexivity|]. cbn [Store.py_eq py_eq].
      destruct ((hk =? h') && (ik =? i')); [exact Hval|reflexivity].
    + destruct k; reflexivity.
    + apply IH; [eapply nth_error_In; eassumption|assumption|].
      pose proof (height_child bm arr c (nth_error_In _ _ Ea)). lia.
  - unfold Store.bind at 1. rewrite (items_of_at _ _ _ Hl).
    rewrite (related_index_of _ _ _ k Hr 0).
    destruct (index_of items 0 k) as [i|]; [|reflexivity].
    apply (related_getitem st items' l items); assumption.
Qed.

(** ** New objects *)

Lemma fresh_bitmap st bm l arr :
  Forall2 (Store.repr_val st) l arr ->
  Store.repr (st ++ [Store.List l; Store.Bitmap bm (length st)]) (S (length st))
    (BitmapNode bm arr).
Proof.
  intros H. apply (Store.repr_Bitmap _ _ _ (length st) l).
  - change (st ++ [Store.List l; Store.Bitmap bm (length st)])
      with (st ++ [Store.List l] ++ [Store.Bitmap bm (length st)]).
    rewrite app_assoc.
    replace (S (length st)) with (length (st ++ [Store.List l]))
      by (rewrite length_app; simpl; lia).
    apply nth_error_new.
  - apply nth_error_new.
  - apply related_ext. exact H.
Qed.

Lemma fresh_collision st l arr :
  Forall2 (Store.repr_val st) l arr ->
  Store.repr (st ++ [Store.List l; Store.Collision (length st)]) (S (length st))
    (CollisionNode arr).
Proof.
  intros H. apply (Store.repr_Collision _ _ (length st) l).
  - change (st ++ [Store.List l; Store.Collision (length st)])
      with (st ++ [Store.List l] ++ [Store.Collision (length st)]).
    rewrite app_assoc.
    replace (S (length st)) with (length (st ++ [Store.List l]))
      by (rewrite length_app; simpl; lia).
    apply nth_error_new.
  - apply nth_error_new.
  - apply related_ext. exact H.
Qed.

Lemma alloc_list_node st l (mk : nat -> Store.object) :
  Store.bind (Store.alloc (Store.List l)) (fun a => Store.alloc (mk a)) st =
  (Ok (S (length st)), st ++ [Store.List l; mk (length st)]).
Proof.
  unfold Store.bind, Store.alloc. rewrite length_app, <- app_assoc. simpl.
  rewrite Nat.add_1_r. reflexivity.
Qed.

Lemma nodes_only_list_bitmap l bm a : Store.nodes_only [Store.List l; Store.Bitmap bm a].
Proof. repeat constructor. Qed.

Lemma nodes_only_list_collision l a : Store.nodes_only [Store.List l; Store.Collision a].
Proof. repeat constructor. Qed.

Lemma nodes_only_app e1 e2 : Store.nodes_only e1 -> Store.nodes_only e2 -> Store.nodes_only (e1 ++ e2).
Proof. intros H1 H2. apply Forall_app. split; assumption. Qed.

(** A statement that builds, followed by one that builds from the store
    it left. *)
Lemma builds_bind {A B A' B'} (R1 : Store.store -> A -> B -> Prop)
  (R : Store.store -> A' -> B' -> Prop) st (m : Store.M A) (f : A -> Store.M A')
  (r : result B) (g : B -> result B') :
  Store.builds R1 st (m st) r ->
  (forall e1 a b, Store.nodes_only e1 -> R1 (st ++ e1) a b ->
                  Store.builds R (st ++ e1) (f a (st ++ e1)) (g b)) ->
  Store.builds R st (Store.bind m f st) (bind r g).
Proof.
  unfold Store.bind. intros (e1 & Hs & Hn & Hr) Hf.
  destruct (m st) as [x st1]. cbn [fst snd] in *. subst st1.
  destruct r as [b|ex]; cbn [bind].
  - destruct Hr as (a & -> & Hab).
    destruct (Hf e1 a b Hn Hab) as (e2 & Hs2 & Hn2 & Hr2).
    exists (e1 ++ e2). split; [rewrite Hs2; symmetry; apply app_assoc|].
    split; [apply nodes_only_app; assumption|]. rewrite app_assoc. exact Hr2.
  - subst x. exists e1. auto.
Qed.

Lemma builds_done {A B} (R : Store.store -> A -> B -> Prop) st e a b :
  Store.nodes_only e -> R (st ++ e) a b -> Store.builds R st (Ok a, st ++ e) (Ok b).
Proof. intros Hn Hr. exists e. cbn [fst snd]. eauto. Qed.

Lemma builds_raise {A B} (R : Store.store -> A -> B -> Prop) st e ex :
  Store.nodes_only e -> Store.builds R st (Raise ex, st ++ e) (Raise ex).
Proof. intros Hn. exists e. cbn [fst snd]. auto. Qed.

Lemma builds_raise0 {A B} (R : Store.store -> A -> B -> Prop) st ex :
  Store.builds R st (Raise ex, st) (Raise ex).
Proof. exists []. rewrite app_nil_r. repeat split. constructor. Qed.

Lemma builds_done0 {A B} (R : Store.store -> A -> B -> Prop) st a b :
  R st a b -> Store.builds R st (Ok a, st) (Ok b).
Proof.
  intros Hr. exists []. rewrite app_nil_r. split; [reflexivity|]. split; [constructor|].
  exists a. split; [reflexivity|exact Hr].
Qed.

Lemma reads_builds {A B} (R : A -> B -> Prop) st x r :
  Store.reads R st x r -> Store.builds (fun _ => R) st x r.
Proof.
  unfold Store.reads. destruct r as [b|ex].
  - intros (a & -> & Hr). apply builds_done0. exact Hr.
  - intros ->. apply builds_raise0.
Qed.

Lemma builds_impl {A B} (R1 R2 : Store.store -> A -> B -> Prop) st x r :
  Store.builds R1 st x r -> (forall st' a b, R1 st' a b -> R2 st' a b) ->
  Store.builds R2 st x r.
Proof.
  intros (e & Hs & Hn & Hr) H. exists e. split; [exact Hs|]. split; [exact Hn|].
  destruct r; [|exact Hr]. destruct Hr as (a' & E & Hr). eauto.
Qed.

(** ** [_create_node] over the store *)

Lemma create_node_refines d : forall s key1 val1 hash2 key2 val2 p1 q1 p2 q2 st,
  Store.repr_val st p1 key1 -> Store.repr_val st q1 val1 ->
  Store.repr_val st p2 key2 -> Store.repr_val st q2 val2 ->
  Store.builds (fun st' a n => Store.repr st' a n /\ (length st <= a)%nat) st
    (Store._create_node d s p1 q1 hash2 p2 q2 st)
    (match _create_node d s key1 val1 hash2 key2 val2 with
     | Some n => Ok n
     | None => Raise RecursionError
     end).
Proof.
  induction d as [|d IH]; intros s key1 val1 hash2 key2 val2 p1 q1 p2 q2 st H1 H2 H3 H4.
  - apply builds_raise0.
  - cbn [Store._create_node _create_node]. cbv zeta.
    rewrite (repr_val_hash _ _ _ H1).
    destruct (25 <? s)%N.
    + rewrite alloc_list_node. apply builds_done; [apply nodes_only_list_collision|].
      split; [|lia]. apply fresh_collision. repeat constructor; assumption.
    + destruct (slice s (hash_obj key1) =? slice s hash2).
      * specialize (IH (s + 5)%N key1 val1 hash2 key2 val2 p1 q1 p2 q2 st H1 H2 H3 H4).
        destruct (_create_node d (s + 5) key1 val1 hash2 key2 val2) as [node|].
        -- apply (builds_bind _ _ st _ _ (Ok node)
                    (fun node => Ok (BitmapNode (Z.shiftl 1 (slice s (hash_obj key1)))
                                       [ONode node; ONone])) IH).
           intros e1 a n Hn [Hr Hle]. cbv beta.
           rewrite alloc_list_node. apply builds_done; [apply nodes_only_list_bitmap|].
           split; [|rewrite length_app; lia]. apply fresh_bitmap.
           repeat constructor. exact Hr.
        -- apply (builds_bind _ _ st _ _ (Raise RecursionError)
                    (fun node => Ok (BitmapNode (Z.shiftl 1 (slice s (hash_obj key1)))
                                       [ONode node; ONone])) IH).
           intros e1 a n Hn [Hr Hle]. cbv beta.
           rewrite alloc_list_node. apply builds_done; [apply nodes_only_list_bitmap|].
           split; [|rewrite length_app; lia]. apply fresh_bitmap.
           repeat constructor. exact Hr.
      * destruct (slice s (hash_obj key1) <? slice s hash2);
          rewrite alloc_list_node; (apply builds_done; [apply nodes_only_list_bitmap|]);
          (split; [|lia]); apply fresh_bitmap; repeat constructor; assumption.
Qed.

(** ** Copies written before they are shared *)

Lemma copy_set_alloc st array l i p (mk : nat -> Store.object) :
  nth_error st array = Some (Store.List l) ->
  Store.bind (Store.copy array) (fun new_array =>
    Store.bind (Store.setitem new_array i p) (fun _ => Store.alloc (mk new_array))) st =
  match Store.replace_nth l (Z.to_nat i) p with
  | Some l' => (Ok (S (length st)), st ++ [Store.List l'; mk (length st)])
  | None => (Raise IndexError, st ++ [Store.List l])
  end.
Proof.
  intros H. unfold Store.bind at 1. rewrite (copy_at _ _ _ H).
  unfold Store.bind. rewrite setitem_new.
  destruct (Store.replace_nth l (Z.to_nat i) p); [|reflexivity].
  unfold Store.alloc. rewrite length_app, <- app_assoc. simpl. rewrite Nat.add_1_r. reflexivity.
Qed.

Lemma copy_set_set_alloc st array l i p j q (mk : nat -> Store.object) :
  nth_error st array = Some (Store.List l) ->
  Store.bind (Store.copy array) (fun new_array =>
    Store.bind (Store.setitem new_array i p) (fun _ =>
      Store.bind (Store.setitem new_array j q) (fun _ => Store.alloc (mk new_array)))) st =
  match Store.replace_nth l (Z.to_nat i) p with
  | Some l' =>
      match Store.replace_nth l' (Z.to_nat j) q with
      | Some l'' => (Ok (S (length st)), st ++ [Store.List l''; mk (length st)])
      | None => (Raise IndexError, st ++ [Store.List l'])
      end
  | None => (Raise IndexError, st ++ [Store.List l])
  end.
Proof.
  intros H. unfold Store.bind at 1. rewrite (copy_at _ _ _ H).
  unfold Store.bind at 1. rewrite setitem_new.
  destruct (Store.replace_nth l (Z.to_nat i) p) as [l'|]; [|reflexivity].
  unfold Store.bind. rewrite setitem_new.
  destruct (Store.replace_nth l' (Z.to_nat j) q); [|reflexivity].
  unfold Store.alloc. rewrite length_app, <- app_assoc. simpl. rewrite Nat.add_1_r. reflexivity.
Qed.

(** The array of a node with one more pair, built in a new list. *)
Lemma insert_alloc st array old n i p q (mk : nat -> Store.object) :
  nth_error st array = Some (Store.List old) ->
  Store.bind (Store.alloc (Store.List (repeat Store.PNone n))) (fun new_array =>
    Store.bind (Store.items_of array) (fun old =>
      Store.bind (Store.set_slice_to new_array i (firstn (Z.to_nat i) old)) (fun _ =>
        Store.bind (Store.setitem new_array i p) (fun _ =>
          Store.bind (Store.setitem new_array (i + 1) q) (fun _ =>
            Store.bind (Store.set_slice_from new_array (i + 2) (skipn (Z.to_nat i) old))
              (fun _ => Store.alloc (mk new_array))))))) st =
  match Store.replace_nth (firstn (Z.to_nat i) old ++ skipn (Z.to_nat i) (repeat Store.PNone n))
          (Z.to_nat i) p with
  | Some l1 =>
      match Store.replace_nth l1 (Z.to_nat (i + 1)) q with
      | Some l2 =>
          (Ok (S (length st)),
           st ++ [Store.List (firstn (Z.to_nat (i + 2)) l2 ++ skipn (Z.to_nat i) old);
                  mk (length st)])
      | None => (Raise IndexError, st ++ [Store.List l1])
      end
  | None =>
      (Raise IndexError,
       st ++ [Store.List (firstn (Z.to_nat i) old ++ skipn (Z.to_nat i) (repeat Store.PNone n))])
  end.
Proof.
  intros H. unfold Store.bind at 1. unfold Store.alloc at 1.
  unfold Store.bind at 1. rewrite (items_of_at _ _ old) by (apply nth_error_ext; exact H).
  unfold Store.bind at 1. rewrite set_slice_to_new.
  unfold Store.bind at 1. rewrite setitem_new.
  destruct (Store.replace_nth _ (Z.to_nat i) p) as [l1|]; [|reflexivity].
  unfold Store.bind at 1. rewrite setitem_new.
  destruct (Store.replace_nth l1 (Z.to_nat (i + 1)) q) as [l2|]; [|reflexivity].
  unfold Store.bind. rewrite set_slice_from_new.
  unfold Store.alloc. rewrite length_app, <- app_assoc. simpl. rewrite Nat.add_1_r. reflexivity.
Qed.

Lemma nodes_only_list l : Store.nodes_only [Store.List l].
Proof. repeat constructor. Qed.

(** A read, followed by a statement that builds. *)
Lemma reads_then_builds {A B A' B'} (R1 : A -> B -> Prop)
  (R : Store.store -> A' -> B' -> Prop) st (m : Store.M A) (f : A -> Store.M A')
  (r : result B) (g : B -> result B') :
  Store.reads R1 st (m st) r ->
  (forall a b, R1 a b -> Store.builds R st (f a st) (g b)) ->
  Store.builds R st (Store.bind m f st) (bind r g).
Proof.
  unfold Store.reads, Store.bind. destruct r as [b|ex]; cbn [bind].
  - intros (a & -> & Hab) Hf. apply Hf. exact Hab.
  - intros -> _. apply builds_raise0.
Qed.

(** The node built from a copy of the array with one slot replaced. *)
Lemma replaced_refines st0 self st array l arr bm i p o :
  (length st0 <= length st)%nat ->
  nth_error st array = Some (Store.List l) ->
  Forall2 (Store.repr_val st) l arr -> Store.repr_val st p o ->
  Store.builds (Store.assoc_returns st0 self) st
    (Store.bind (Store.copy array) (fun new_array =>
       Store.bind (Store.setitem new_array i p) (fun _ =>
         Store.alloc (Store.Bitmap bm new_array))) st)
    (new_array <- set_item arr i o ;; Ok (New (BitmapNode bm new_array))).
Proof.
  intros Hle Ha Hr Hpo. rewrite (copy_set_alloc _ _ _ _ _ _ Ha).
  pose proof (related_replace _ _ _ (Z.to_nat i) _ _ Hr Hpo) as Hrep.
  unfold set_item.
  destruct (Store.replace_nth l (Z.to_nat i) p) as [l'|], (setitem arr (Z.to_nat i) o) as [arr'|[]];
    try contradiction; cbn [bind].
  - apply builds_done; [apply nodes_only_list_bitmap|].
    split; [apply fresh_bitmap; exact Hrep|lia].
  - apply builds_raise. apply nodes_only_list.
Qed.

Lemma replaced_collision_refines st0 self st items l arr i p o :
  (length st0 <= length st)%nat ->
  nth_error st items = Some (Store.List l) ->
  Forall2 (Store.repr_val st) l arr -> Store.repr_val st p o ->
  Store.builds (Store.assoc_returns st0 self) st
    (Store.bind (Store.copy items) (fun new_items =>
       Store.bind (Store.setitem new_items i p) (fun _ =>
         Store.alloc (Store.Collision new_items))) st)
    (new_items <- set_item arr i o ;; Ok (New (CollisionNode new_items))).
Proof.
  intros Hle Ha Hr Hpo. rewrite (copy_set_alloc _ _ _ _ _ _ Ha).
  pose proof (related_replace _ _ _ (Z.to_nat i) _ _ Hr Hpo) as Hrep.
  unfold set_item.
  destruct (Store.replace_nth l (Z.to_nat i) p) as [l'|], (setitem arr (Z.to_nat i) o) as [arr'|[]];
    try contradiction; cbn [bind].
  - apply builds_done; [apply nodes_only_list_collision|].
    split; [apply fresh_collision; exact Hrep|lia].
  - apply builds_raise. apply nodes_only_list.
Qed.

(** The node built from a copy of the array with a pair replaced by a
    subtrie pair. *)
Lemma replaced_pair_refines st0 self st array l arr bm i p o :
  (length st0 <= length st)%nat ->
  nth_error st array = Some (Store.List l) ->
  Forall2 (Store.repr_val st) l arr -> Store.repr_val st p o ->
  Store.builds (Store.assoc_returns st0 self) st
    (Store.bind (Store.copy array) (fun new_array =>
       Store.bind (Store.setitem new_array i p) (fun _ =>
         Store.bind (Store.setitem new_array (i + 1) Store.PNone) (fun _ =>
           Store.alloc (Store.Bitmap bm new_array)))) st)
    (new_array <- set_item arr i o ;;
     new_array <- set_item new_array (i + 1) ONone ;;
     Ok (New (BitmapNode bm new_array))).
Proof.
  intros Hle Ha Hr Hpo. rewrite (copy_set_set_alloc _ _ _ _ _ _ _ _ Ha).
  pose proof (related_replace _ _ _ (Z.to_nat i) _ _ Hr Hpo) as Hrep.
  unfold set_item.
  destruct (Store.replace_nth l (Z.to_nat i) p) as [l'|], (setitem arr (Z.to_nat i) o) as [arr'|[]];
    try contradiction; cbn [bind]; [|apply builds_raise; apply nodes_only_list].
  pose proof (related_replace _ _ _ (Z.to_nat (i + 1)) _ _ Hrep (Store.repr_None st)) as Hrep'.
  destruct (Store.replace_nth l' (Z.to_nat (i + 1)) Store.PNone) as [l''|],
           (setitem arr' (Z.to_nat (i + 1)) ONone) as [arr''|[]];
    try contradiction; cbn [bind]; [|apply builds_raise; apply nodes_only_list].
  apply builds_done; [apply nodes_only_list_bitmap|].
  split; [apply fresh_bitmap; exact Hrep'|lia].
Qed.

(** The node built with one more pair. *)
Lemma inserted_refines self st array l arr bm n i k v :
  nth_error st array = Some (Store.List l) ->
  Forall2 (Store.repr_val st) l arr ->
  Store.builds (Store.assoc_returns st self) st
    (Store.bind (Store.alloc (Store.List (repeat Store.PNone n))) (fun new_array =>
       Store.bind (Store.items_of array) (fun old =>
         Store.bind (Store.set_slice_to new_array i (firstn (Z.to_nat i) old)) (fun _ =>
           Store.bind (Store.setitem new_array i (Store.pk k)) (fun _ =>
             Store.bind (Store.setitem new_array (i + 1) (Store.pv v)) (fun _ =>
               Store.bind (Store.set_slice_from new_array (i + 2) (skipn (Z.to_nat i) old))
                 (fun _ => Store.alloc (Store.Bitmap bm new_array))))))) st)
    (new_array <- set_item (slice_to arr i ++ slice_from (repeat ONone n) i) i (key_obj k) ;;
     new_array <- set_item new_array (i + 1) (val_obj v) ;;
     Ok (New (BitmapNode bm (slice_to new_array (i + 2) ++ slice_from arr i)))).
Proof.
  intros Ha Hr. rewrite (insert_alloc _ _ _ _ _ _ _ _ Ha).
  unfold set_item, slice_to, slice_from.
  assert (H0 : Forall2 (Store.repr_val st)
                 (firstn (Z.to_nat i) l ++ skipn (Z.to_nat i) (repeat Store.PNone n))
                 (firstn (Z.to_nat i) arr ++ skipn (Z.to_nat i) (repeat ONone n))).
  { apply Forall2_app; [apply related_firstn; exact Hr|].
    apply related_skipn. apply related_repeat. constructor. }
  pose proof (related_replace _ _ _ (Z.to_nat i) _ _ H0 (repr_val_key st k)) as H1.
  destruct (Store.replace_nth _ (Z.to_nat i) (Store.pk k)) as [l1|],
           (setitem _ (Z.to_nat i) (key_obj k)) as [arr1|[]];
    try contradiction; cbn [bind]; [|apply builds_raise; apply nodes_only_list].
  pose proof (related_replace _ _ _ (Z.to_nat (i + 1)) _ _ H1 (repr_val_value st v)) as H2.
  destruct (Store.replace_nth l1 (Z.to_nat (i + 1)) (Store.pv v)) as [l2|],
           (setitem arr1 (Z.to_nat (i + 1)) (val_obj v)) as [arr2|[]];
    try contradiction; cbn [bind]; [|apply builds_raise; apply nodes_only_list].
  apply builds_done; [apply nodes_only_list_bitmap|].
  split; [|lia]. apply fresh_bitmap.
  apply Forall2_app; [apply related_firstn; exact H2|apply related_skipn; exact Hr].
Qed.

(** ** [assoc] over the store *)

(** The case of a leaf pair. *)
Lemma assoc_leaf_refines st self array l arr bm s hv k v p o q o' i :
  nth_error st array = Some (Store.List l) ->
  Forall2 (Store.repr_val st) l arr ->
  Store.repr_val st p o -> Store.repr_val st q o' ->
  Store.builds (Store.assoc_returns st self) st
    ((if Store.py_eq p k then
        if Store.py_is q v then Store.ret self else
        Store.bind (Store.copy array) (fun new_array =>
          Store.bind (Store.setitem new_array (i + 1) (Store.pv v)) (fun _ =>
            Store.alloc (Store.Bitmap bm new_array)))
      else
        Store.bind
          (if (25 <=? s)%N then
             Store.bind (Store.alloc (Store.List [p; q; Store.pk k; Store.pv v]))
               (fun items => Store.alloc (Store.Collision items))
           else Store._create_node recursion_limit (s + 5) p q hv (Store.pk k) (Store.pv v))
          (fun new_node =>
             Store.bind (Store.copy array) (fun new_array =>
               Store.bind (Store.setitem new_array i (Store.PRef new_node)) (fun _ =>
                 Store.bind (Store.setitem new_array (i + 1) Store.PNone) (fun _ =>
                   Store.alloc (Store.Bitmap bm new_array)))))) st)
    (if py_eq o k then
       if py_is o' v then Ok Self else
       new_array <- set_item arr (i + 1) (val_obj v) ;;
       Ok (New (BitmapNode bm new_array))
     else
       new_node <-
         (if (25 <=? s)%N then Ok (CollisionNode [o; o'; key_obj k; val_obj v])
          else match _create_node recursion_limit (s + 5) o o' hv (key_obj k) (val_obj v) with
               | Some n => Ok n
               | None => Raise RecursionError
               end) ;;
       new_array <- set_item arr i (ONode new_node) ;;
       new_array <- set_item new_array (i + 1) ONone ;;
       Ok (New (BitmapNode bm new_array))).
Proof.
  intros Ha Hr Hp Hq.
  rewrite (repr_val_py_eq _ _ _ k Hp), (repr_val_py_is _ _ _ v Hq).
  destruct (py_eq o k).
  - destruct (py_is o' v).
    + apply builds_done0. split; reflexivity.
    + apply (replaced_refines st self st array l arr bm (i + 1) _ _ (le_n _) Ha Hr
               (repr_val_value st v)).
  - eapply (builds_bind (fun st' a n => Store.repr st' a n /\ (length st <= a)%nat)).
    + destruct (25 <=? s)%N.
      * rewrite alloc_list_node. apply builds_done; [apply nodes_only_list_collision|].
        split; [|lia]. apply fresh_collision.
        repeat constructor; auto using repr_val_key, repr_val_value.
      * apply create_node_refines; auto using repr_val_key, repr_val_value.
    + intros e1 a' n' Hn [Hr' Hle]. cbv beta.
      apply (replaced_pair_refines st self (st ++ e1) array l arr bm i).
      * rewrite length_app. lia.
      * apply nth_error_ext. exact Ha.
      * apply related_ext. exact Hr.
      * constructor. exact Hr'.
Qed.

Lemma assoc_refines n : forall st a s hv k v d,
  Store.repr st a n -> (height n <= d)%nat ->
  Store.builds (Store.assoc_returns st a) st (Store.assoc d a s hv k v st) (assoc n s hv k v).
Proof.
  induction n as [bm arr IH|items IH] using node_induction; intros st a s hv k v d H Hd;
    (destruct d as [|d];
     [match type of Hd with (height ?t <= _)%nat => pose proof (height_pos t); lia end|]);
    inversion H as [? ? array l ? Ha Hl Hr|? items' l ? Ha Hl Hr]; subst;
    cbn [Store.assoc assoc]; unfold Store.bind at 1; rewrite (load_at _ _ _ Ha).
  - cbv zeta. set (idx := _popcount (Z.land bm (bitpos s hv - 1))).
    destruct (negb (Z.land bm (bitpos s hv) =? 0)).
    + rewrite item_nth.
      pose proof (related_getitem st array l arr (idx * 2) Hl Hr) as Hkey.
      rewrite getitem_nth in Hkey. unfold Store.bind at 1.
      destruct (nth_error arr (Z.to_nat (idx * 2))) as [o|] eqn:Ea;
        [destruct Hkey as (p & -> & Hp)|rewrite Hkey; apply builds_raise0].
      apply (reads_then_builds (Store.repr_val st));
        [apply (related_getitem st array l arr); assumption|].
      intros q o' Hq.
      rewrite (repr_val_is_None _ _ _ Hp), (repr_val_is_None _ _ _ Hq).
      destruct (is_None o && is_None o'); [apply builds_done0; split; reflexivity|].
      destruct Hp as [|hk ik|iv|a' c Hc];
        [apply (assoc_leaf_refines st a array l arr); auto; constructor..|].
      assert (Hin : In (ONode c) arr) by (eapply nth_error_In; exact Ea).
      pose proof (height_child bm arr c Hin).
      eapply builds_bind; [apply (IH c Hin st a' (s + 5)%N hv k v d Hc); lia|].
      intros e1 a'' r Hn Hret. cbv beta. destruct r as [|n'].
      * destruct Hret as [-> Hst]. rewrite Nat.eqb_refl.
        apply builds_done0. split; [reflexivity|exact Hst].
      * destruct Hret as [Hr' Hle]. pose proof (repr_bound _ _ _ Hc).
        destruct (Nat.eqb_spec a'' a'); [lia|].
        apply (replaced_refines st a (st ++ e1) array l arr bm (idx * 2)).
        -- rewrite length_app. lia.
        -- apply nth_error_ext. exact Hl.
        -- apply related_ext. exact Hr.
        -- constructor. exact Hr'.
    + apply (inserted_refines a st array l arr); assumption.
  - unfold Store.bind at 1. rewrite (items_of_at _ _ _ Hl).
    rewrite (related_index_of _ _ _ k Hr 0).
    destruct (index_of items 0 k) as [i|].
    + apply (reads_then_builds (Store.repr_val st));
        [apply (related_getitem st items' l items); assumption|].
      intros q o' Hq. rewrite (repr_val_py_is _ _ _ v Hq).
      destruct (py_is o' v); [apply builds_done0; split; reflexivity|].
      apply (replaced_collision_refines st a st items' l items (i + 1) _ _ (le_n _) Hl Hr
               (repr_val_value st v)).
    + rewrite alloc_list_node. apply builds_done; [apply nodes_only_list_collision|].
      split; [|lia]. apply fresh_collision.
      apply Forall2_app; [exact Hr|]. repeat constructor; auto using repr_val_key, repr_val_value.
Qed.

(** ** [without] over the store *)

Lemma replace_nth_some l n x p :
  nth_error l n = Some x -> exists l', Store.replace_nth l n p = Some l'.
Proof.
  revert n; induction l as [|y l IH]; intros [|n] H; simpl in *; try discriminate; eauto.
  destruct (IH n H) as (l' & ->). eauto.
Qed.

Lemma reads_then_removes {A B} (R1 : A -> B -> Prop) st0 self st (m : Store.M A)
  (f : A -> Store.M Store.pyval) (r : result B) (g : B -> result without_result) :
  Store.reads R1 st (m st) r ->
  (forall a b, R1 a b -> Store.removes st0 self st (f a st) (g b)) ->
  Store.removes st0 self st (Store.bind m f st) (bind r g).
Proof.
  unfold Store.reads, Store.bind. destruct r as [b|ex]; cbn [bind].
  - intros (a & -> & Hab) Hf. apply Hf. exact Hab.
  - intros -> _. reflexivity.
Qed.

(** The node built without the addressed pair. *)
Lemma removed_refines st0 self st array l arr bm bm' i :
  (length st0 <= length st)%nat ->
  nth_error st array = Some (Store.List l) ->
  Forall2 (Store.repr_val st) l arr ->
  Store.builds (Store.without_returns st0 self) st
    ((if _popcount bm =? 1 then Store.ret Store.PNone else
      Store.bind (Store.items_of array) (fun old =>
        Store.bind (Store.alloc (Store.List (firstn (Z.to_nat i) old ++
                                             skipn (Z.to_nat (i + 2)) old))) (fun new_array =>
          Store.bind (Store.alloc (Store.Bitmap bm' new_array)) (fun node =>
            Store.ret (Store.PRef node))))) st)
    (if _popcount bm =? 1 then Ok Gone
     else Ok (Node (BitmapNode bm' (slice_to arr i ++ slice_from arr (i + 2))))).
Proof.
  intros Hle Ha Hr. destruct (_popcount bm =? 1).
  - apply builds_done0. reflexivity.
  - unfold Store.bind at 1. rewrite (items_of_at _ _ _ Ha).
    unfold Store.bind, Store.alloc, Store.ret. rewrite <- app_assoc, length_app. simpl.
    apply builds_done; [apply nodes_only_list_bitmap|].
    exists (length st + 1)%nat. split; [reflexivity|].
    rewrite Nat.add_1_r. split; [|lia]. apply fresh_bitmap.
    apply Forall2_app; [apply related_firstn|apply related_skipn]; exact Hr.
Qed.

Lemma without_refines n : forall st a s hv k d,
  Store.repr st a n -> (height n <= d)%nat ->
  Store.removes st a st (Store.without d a s hv k st) (without n s hv k).
Proof.
  induction n as [bm arr IH|items IH] using node_induction; intros st a s hv k d H Hd;
    (destruct d as [|d];
     [match type of Hd with (height ?t <= _)%nat => pose proof (height_pos t); lia end|]);
    inversion H as [? ? array l ? Ha Hl Hr|? items' l ? Ha Hl Hr]; subst;
    cbn [Store.without without]; unfold Store.bind at 1; rewrite (load_at _ _ _ Ha).
  - cbv zeta. set (idx := _popcount (Z.land bm (bitpos s hv - 1))).
    destruct (Z.land bm (bitpos s hv) =? 0); [reflexivity|].
    rewrite item_nth.
    pose proof (related_getitem st array l arr (idx * 2) Hl Hr) as Hkey.
    pose proof (related_nth _ _ _ (Z.to_nat (idx * 2)) Hr) as Hnth.
    rewrite getitem_nth in Hkey. unfold Store.bind at 1.
    destruct (nth_error arr (Z.to_nat (idx * 2))) as [o|] eqn:Ea;
      [destruct Hkey as (p & -> & Hp)|rewrite Hkey; reflexivity].
    apply (reads_then_removes (Store.repr_val st));
      [apply (related_getitem st array l arr); assumption|].
    intros q o' Hq.
    assert (Hrm : Store.removes st a st
              ((if _popcount bm =? 1 then Store.ret Store.PNone else
                Store.bind (Store.items_of array) (fun old =>
                  Store.bind (Store.alloc (Store.List (firstn (Z.to_nat (idx * 2)) old ++
                                skipn (Z.to_nat (idx * 2 + 2)) old))) (fun new_array =>
                    Store.bind (Store.alloc (Store.Bitmap (Z.land bm (Z.lnot (bitpos s hv)))
                                               new_array)) (fun node =>
                      Store.ret (Store.PRef node))))) st)
              (if _popcount bm =? 1 then Ok Gone
               else Ok (Node (BitmapNode (Z.land bm (Z.lnot (bitpos s hv)))
                                (slice_to arr (idx * 2) ++ slice_from arr (idx * 2 + 2)))))).
    { pose proof (removed_refines st a st array l arr bm (Z.land bm (Z.lnot (bitpos s hv)))
                    (idx * 2) (le_n _) Hl Hr) as G.
      destruct (_popcount bm =? 1); exact G. }
    destruct Hp as [|hk ik|iv|a' c Hc].
    + destruct k; [exact Hrm|reflexivity].
    + destruct k as [|h' i']; [reflexivity|]. cbn [Store.py_eq py_eq].
      destruct ((hk =? h') && (ik =? i')); [exact Hrm|reflexivity].
    + destruct k; reflexivity.
    + assert (Hin : In (ONode c) arr) by (eapply nth_error_In; exact Ea).
      pose proof (height_child bm arr c Hin).
      pose proof (IH c Hin st a' (s + 5)%N hv k d Hc ltac:(lia)) as Hrec.
      unfold Store.bind at 1. unfold Store.removes at 1 in Hrec.
      destruct (without c (s + 5) hv k) as [r|ex]; cbn [bind]; [|rewrite Hrec; reflexivity].
      destruct Hrec as (e1 & Hs & Hn & p & Hf & Hret).
      destruct (Store.without d a' (s + 5) hv k st) as [x st1]. cbn [fst snd] in *. subst x st1.
      destruct r as [| |n'].
      * destruct Hret as [-> Hst]. rewrite Nat.eqb_refl. rewrite Hst.
        apply builds_done0. split; reflexivity.
      * cbn [Store.without_returns] in Hret. subst p.
        pose proof (removed_refines st a (st ++ e1) array l arr bm
                      (Z.land bm (Z.lnot (bitpos s hv))) (idx * 2)) as G.
        destruct (_popcount bm =? 1).
        -- exists e1. cbn [fst snd Store.ret]. repeat split; try assumption.
           exists Store.PNone. split; reflexivity.
        -- destruct G as (e2 & Hs2 & Hn2 & p2 & Hf2 & Hr2);
             [rewrite length_app; lia|apply nth_error_ext; exact Hl|apply related_ext; exact Hr|].
           exists (e1 ++ e2). rewrite app_assoc. split; [exact Hs2|].
           split; [apply nodes_only_app; assumption|]. exists p2. split; [exact Hf2|exact Hr2].
      * destruct Hret as (a'' & -> & Hr' & Hle). pose proof (repr_bound _ _ _ Hc).
        destruct (Nat.eqb_spec a'' a'); [lia|].
        destruct (nth_error l (Z.to_nat (idx * 2))) as [p0|] eqn:El; [|contradiction].
        destruct (replace_nth_some l _ _ (Store.PRef a'') El) as (l' & El').
        pose proof (related_replace _ _ _ (Z.to_nat (idx * 2)) _ _ (related_ext st e1 _ _ Hr)
                      (Store.repr_Ref _ _ _ Hr')) as Hrep.
        rewrite El' in Hrep. unfold set_item.
        destruct (setitem arr (Z.to_nat (idx * 2)) (ONode n')) as [arr'|ex]; [|contradiction].
        cbn [bind].
        pose proof (copy_set_alloc (st ++ e1) array l (idx * 2) (Store.PRef a'')
                      (Store.Bitmap bm) (nth_error_ext _ e1 _ _ Hl)) as Hc3.
        rewrite El' in Hc3.
        exists (e1 ++ [Store.List l'; Store.Bitmap bm (length (st ++ e1))]).
        rewrite app_assoc.
        assert (Hrun : (Store.bind (Store.copy array) (fun new_array =>
                   Store.bind (Store.setitem new_array (idx * 2) (Store.PRef a'')) (fun _ =>
                     Store.bind (Store.alloc (Store.Bitmap bm new_array)) (fun node =>
                       Store.ret (Store.PRef node))))) (st ++ e1) =
                 (Ok (Store.PRef (S (length (st ++ e1)))),
                  (st ++ e1) ++ [Store.List l'; Store.Bitmap bm (length (st ++ e1))])).
        { revert Hc3. unfold Store.bind, Store.ret.
          destruct (Store.copy array (st ++ e1)) as [[na|?] st2]; [|discriminate].
          destruct (Store.setitem na (idx * 2) (Store.PRef a'') st2) as [[?|?] st3]; [|discriminate].
          destruct (Store.alloc (Store.Bitmap bm na) st3) as [[?|?] st4]; [|discriminate].
          intros [= -> ->]. reflexivity. }
        rewrite Hrun. cbn [fst snd]. split; [reflexivity|].
        split; [apply nodes_only_app; [assumption|apply nodes_only_list_bitmap]|].
        eexists. split; [reflexivity|]. eexists. split; [reflexivity|].
        split; [apply fresh_bitmap; exact Hrep|rewrite length_app; lia].
  - unfold Store.bind at 1. rewrite (items_of_at _ _ _ Hl).
    rewrite (related_index_of _ _ _ k Hr 0).
    destruct (index_of items 0 k) as [i|]; [|reflexivity].
    unfold Store.bind at 1. unfold Store.alloc at 1.
    unfold Store.bind at 1. rewrite (items_of_at _ _ _ (nth_error_new st [] _)).
    assert (Hrel : Forall2 (Store.repr_val st)
                     (firstn (Z.to_nat i) l ++ skipn (Z.to_nat (i + 2)) l)
                     (slice_to items i ++ slice_from items (i + 2)))
      by (apply Forall2_app; [apply related_firstn|apply related_skipn]; exact Hr).
    rewrite (related_length _ _ _ Hrel).
    destruct (_ =? 2).
    + exists [Store.List (firstn (Z.to_nat i) l ++ skipn (Z.to_nat (i + 2)) l)].
      cbn [fst snd Store.ret]. split; [reflexivity|]. split; [apply nodes_only_list|].
      exists Store.PNone. split; reflexivity.
    + unfold Store.bind, Store.alloc, Store.ret. rewrite <- app_assoc, length_app. simpl.
      apply builds_done; [apply nodes_only_list_collision|].
      exists (length st + 1)%nat. split; [reflexivity|].
      rewrite Nat.add_1_r. split; [|lia]. apply fresh_collision. exact Hrel.
Qed.

(** ** Values that are no nodes *)

Lemma repr_val_atom st st' p p' o :
  (forall c, o <> ONode c) ->
  Store.repr_val st p o -> Store.repr_val st' p' o -> p = p'.
Proof.
  intros Ho H H'. destruct H; inversion H'; subst; try reflexivity.
  exfalso. eapply Ho. reflexivity.
Qed.

Lemma related_atoms st st' ps ps' ks :
  Forall (fun o => forall c, o <> ONode c) ks ->
  Forall2 (Store.repr_val st) ps ks -> Forall2 (Store.repr_val st') ps' ks -> ps = ps'.
Proof.
  intros Hk H. revert ps'. induction H as [|p o ps ks Hpo H IH]; intros ps' H';
    inversion H'; subst; [reflexivity|].
  inversion Hk; subst. f_equal; [eapply repr_val_atom; eassumption|auto].
Qed.

Lemma val_obj_atom v c : val_obj v <> ONode c.
Proof. destruct v; discriminate. Qed.

(** ** The height of a well-formed trie *)

Lemma height_children bm arr m :
  (forall c, In (ONode c) arr -> (height c <= m)%nat) ->
  (height (BitmapNode bm arr) <= S m)%nat.
Proof.
  intros H. cbn [height]. apply le_n_S.
  induction arr as [|x arr IH]; cbn [fold_right]; [lia|].
  apply Nat.max_lub.
  - destruct x as [| | |c]; try lia. apply H. left. reflexivity.
  - apply IH. intros c Hc. apply H. right. exact Hc.
Qed.

Lemma wf_height n : forall s q, wf s q n ->
  match n with
  | BitmapNode _ _ => (height n + N.to_nat (s / 5) <= 7)%nat
  | CollisionNode _ => True
  end.
Proof.
  induction n as [bm arr IH|items IH] using node_induction; intros s q Hwf; [|exact I].
  destruct (wf_bitmap_inv _ _ _ _ Hwf) as (H25 & H5 & Hbm & Harr).
  assert (Hs : (s / 5 <= 5)%N) by (apply N.Div0.div_le_upper_bound; lia).
  assert (Hs5 : ((s + 5) / 5 = s / 5 + 1)%N).
  { replace (s + 5)%N with (s + 1 * 5)%N by lia. apply N.div_add. lia. }
  pose proof (height_children bm arr (6 - N.to_nat (s / 5))) as Hh.
  assert (height (BitmapNode bm arr) <= S (6 - N.to_nat (s / 5)))%nat; [|lia].
  apply Hh. intros c Hc.
  destruct (wf_array_child _ _ _ _ _ Harr Hc) as (q' & Hwc).
  specialize (IH c Hc _ _ Hwc). destruct c as [bm' arr'|items'].
  - cbv beta iota in IH. rewrite Hs5, N2Nat.inj_add in IH.
    change (N.to_nat 1) with 1%nat in IH. lia.
  - change (height (CollisionNode items')) with 1%nat. lia.
Qed.

Lemma wf_height_limit n s q : wf s q n -> (height n <= recursion_limit)%nat.
Proof.
  intros H. pose proof (wf_height n s q H) as Hh. unfold recursion_limit.
  destruct n; [cbv beta iota in Hh|].
  - apply Nat.le_trans with 7%nat;
      [revert Hh; generalize (N.to_nat (s / 5)); intros m Hh; lia|]. apply Nat.leb_le. vm_compute. reflexivity.
  - change (height (CollisionNode _items)) with 1%nat.
    apply Nat.leb_le. vm_compute. reflexivity.
Qed.

(** ** [__iter__] over the store *)

Lemma iter_refines n : forall st a d,
  Store.repr st a n -> (height n <= d)%nat ->
  Store.reads (Forall2 (Store.repr_val st)) st (Store.iter d a st) (iter n).
Proof.
  induction n as [bm arr IH|items IH] using node_induction; intros st a d H Hd;
    (destruct d as [|d];
     [match type of Hd with (height ?t <= _)%nat => pose proof (height_pos t); lia end|]);
    inversion H as [? ? array l ? Ha Hl Hr|? items' l ? Ha Hl Hr]; subst;
    cbn [Store.iter iter]; unfold Store.bind at 1; rewrite (load_at _ _ _ Ha);
    unfold Store.bind at 1; rewrite (items_of_at _ _ _ Hl); cbv beta iota.
  - assert (Hsub : forall c, In (ONode c) arr -> In (ONode c) arr) by auto.
    revert Hsub Hr. generalize arr at 1 3 4 as arr'. generalize l as l'.
    intros l' arr' Hsub Hr.
    assert (Hlen : (length l' <= length l')%nat) by lia.
    revert Hlen. generalize (length l') at 2 as m. intros m. revert l' arr' Hsub Hr.
    induction m as [|m IHm]; intros l' arr' Hsub Hr Hlen.
    + destruct Hr; [|simpl in Hlen; lia]. exists []. split; [reflexivity|constructor].
    + destruct Hr as [|p o l1 arr1 Hpo Hr]; [exists []; split; [reflexivity|constructor]|].
      destruct Hr as [|p' o' l2 arr2 Hpo' Hr]; [reflexivity|].
      apply (reads_bind (Forall2 (Store.repr_val st))).
      * destruct Hpo as [|hk ik|iv|a' c Hc].
        -- exists []. split; [reflexivity|constructor].
        -- eexists. split; [reflexivity|]. repeat constructor.
        -- eexists. split; [reflexivity|]. repeat constructor.
        -- assert (Hin : In (ONode c) arr) by (apply Hsub; left; reflexivity).
           apply IH; [exact Hin|exact Hc|].
           pose proof (height_child bm arr c Hin). lia.
      * intros ks ks0 Hks. apply (reads_bind (Forall2 (Store.repr_val st))).
        -- apply IHm; [|exact Hr|simpl in Hlen; lia].
           intros c Hc. apply Hsub. right. right. exact Hc.
        -- intros ks' ks0' Hks'. eexists. split; [reflexivity|].
           apply Forall2_app; assumption.
  - eexists. split; [reflexivity|]. apply related_evens. exact Hr.
Qed.

Lemma evens_flat kvs : evens (flat kvs) = map (fun kv => key_obj (fst kv)) kvs.
Proof.
  induction kvs as [|[k v] kvs IH]; [reflexivity|].
  cbn [flat evens map fst]. rewrite IH. reflexivity.
Qed.

(** On a well-formed trie [__iter__] yields keys. *)
Lemma iter_wf n : forall s q, wf s q n ->
  exists ks, iter n = Ok ks /\ Forall (fun o => forall c, o <> ONode c) ks.
Proof.
  induction n as [bm arr IH|items IH] using node_induction; intros s q Hwf.
  - destruct (wf_bitmap_inv _ _ _ _ Hwf) as (_ & _ & _ & Harr).
    cbn [iter]. clear Hwf. revert Harr IH. generalize (bit_positions bm) as js.
    intros js Harr. induction Harr as [|s q j js x y arr Hslot Harr IHarr]; intros IH.
    + exists []. split; [reflexivity|constructor].
    + destruct IHarr as (ks' & Eks' & Hks');
        [intros c Hc; apply IH; right; right; exact Hc|].
      destruct (wf_slot_inv _ _ _ _ _ Hslot) as [(k & v & -> & -> & _)|(c & -> & -> & Hc)].
      * destruct k as [|h i]; cbn [key_obj bind]; rewrite Eks'; cbn [bind].
        -- exists ks'. split; [reflexivity|exact Hks'].
        -- exists (OKey h i :: ks'). split; [reflexivity|].
           constructor; [discriminate|exact Hks'].
      * destruct (IH c (or_introl eq_refl) _ _ Hc) as (ks & Eks & Hks).
        rewrite Eks. cbn [bind]. rewrite Eks'. cbn [bind].
        exists (ks ++ ks'). split; [reflexivity|]. apply Forall_app. split; assumption.
  - destruct (wf_collision_inv _ _ _ Hwf) as (kvs & -> & _).
    exists (evens (flat kvs)). split; [reflexivity|].
    rewrite evens_flat. apply Forall_forall. intros o Ho.
    apply in_map_iff in Ho. destruct Ho as (kv & <- & _). intros c.
    apply key_obj_not_node.
Qed.

(** ** The observations of a container in a larger store *)

Lemma fields_at st a root size :
  nth_error st a = Some (Store.Hamt root size) -> Store.fields a st = (Ok (root, size), st).
Proof. intros H. unfold Store.fields, Store.bind. rewrite (load_at _ _ _ H). reflexivity. Qed.

Lemma fields_other st a o :
  nth_error st a = Some o -> (forall root size, o <> Store.Hamt root size) ->
  Store.fields a st = (Raise AttributeError, st).
Proof.
  intros H Ho. unfold Store.fields, Store.bind. rewrite (load_at _ _ _ H).
  destruct o; try reflexivity. exfalso. eapply Ho. reflexivity.
Qed.

Lemma repr_hamt_ext st e a c : Store.repr_hamt st a c -> Store.repr_hamt (st ++ e) a c.
Proof.
  intros (root & Ha & Hr). exists root. split; [apply nth_error_ext; exact Ha|].
  destruct (_root c) as [n|]; [|exact Hr].
  destruct Hr as (r & -> & Hr). exists r. split; [reflexivity|apply repr_ext; exact Hr].
Qed.

Lemma find_extend st e r n k :
  Store.repr st r n -> wf 0 0 n ->
  fst (Store.find recursion_limit r 0 (hash k) k (st ++ e)) =
  fst (Store.find recursion_limit r 0 (hash k) k st).
Proof.
  intros Hr Hwf. pose proof (wf_height_limit _ _ _ Hwf) as Hh.
  pose proof (find_refines n st r 0 (hash k) k recursion_limit Hr Hh) as H1.
  pose proof (find_refines n (st ++ e) r 0 (hash k) k recursion_limit
                (repr_ext _ _ _ _ Hr) Hh) as H2.
  destruct (find_wf n 0 0 (hash k) k Hwf) as [E|(v & E)]; rewrite E in H1, H2.
  - cbn [Store.reads] in H1, H2. rewrite H1, H2. reflexivity.
  - destruct H1 as (p1 & -> & Hp1). destruct H2 as (p2 & -> & Hp2). cbn [fst].
    f_equal. eapply repr_val_atom; [|eassumption|eassumption].
    intros c. apply val_obj_atom.
Qed.

Lemma iter_extend st e r n :
  Store.repr st r n -> wf 0 0 n ->
  fst (Store.iter recursion_limit r (st ++ e)) = fst (Store.iter recursion_limit r st).
Proof.
  intros Hr Hwf. pose proof (wf_height_limit _ _ _ Hwf) as Hh.
  pose proof (iter_refines n st r recursion_limit Hr Hh) as H1.
  pose proof (iter_refines n (st ++ e) r recursion_limit (repr_ext _ _ _ _ Hr) Hh) as H2.
  destruct (iter_wf n 0 0 Hwf) as (ks & E & Hks). rewrite E in H1, H2.
  destruct H1 as (p1 & -> & Hp1). destruct H2 as (p2 & -> & Hp2). cbn [fst].
  f_equal. eapply related_atoms; eassumption.
Qed.

(** A container that holds a well-formed trie is observed alike in every
    store that extends its own. *)
Lemma observations_extend st e a c :
  Store.repr_hamt st a c -> wf_root (_root c) -> Store.same_observations st (st ++ e) a.
Proof.
  intros (root & Ha & Hr) Hwf. pose proof (nth_error_ext _ e _ _ Ha) as Ha'.
  unfold Store.same_observations, Store.__len__, Store.__iter__, Store.__contains__,
    Store.__getitem__, Store.get, Store.bind.
  rewrite (fields_at _ _ _ _ Ha), (fields_at _ _ _ _ Ha'). cbn [fst snd].
  destruct (_root c) as [n|]; [destruct Hr as (r & -> & Hr)|subst root].
  - cbn [wf_root] in Hwf. split; [reflexivity|]. split; [apply iter_extend with n; assumption|].
    intros k. pose proof (find_extend st e r n k Hr Hwf) as Hf.
    destruct (Store.find recursion_limit r 0 (hash k) k (st ++ e)) as [x1 s1].
    destruct (Store.find recursion_limit r 0 (hash k) k st) as [x2 s2].
    cbn [fst] in Hf. subst x2. repeat split.
    + destruct x1 as [p|[]]; reflexivity.
    + destruct x1 as [p|[]]; reflexivity.
  - repeat split.
Qed.

(** An object that is no container raises alike in every store that
    extends its own. *)
Lemma observations_other st e a o :
  nth_error st a = Some o -> (forall root size, o <> Store.Hamt root size) ->
  Store.same_observations st (st ++ e) a.
Proof.
  intros Ha Ho. pose proof (nth_error_ext _ e _ _ Ha) as Ha'.
  unfold Store.same_observations, Store.__len__, Store.__iter__, Store.__contains__,
    Store.__getitem__, Store.get, Store.bind.
  rewrite (fields_other _ _ _ Ha Ho), (fields_other _ _ _ Ha' Ho). repeat split.
Qed.

Lemma observations_consistent st e a :
  consistent st -> (a < length st)%nat -> Store.same_observations st (st ++ e) a.
Proof.
  intros Hc Ha. destruct (nth_error st a) as [o|] eqn:E;
    [|apply nth_error_None in E; lia].
  destruct o as [l|bm array|items|root size];
    try (eapply observations_other; [exact E|discriminate]).
  destruct (Hc _ _ _ E) as (c & Hrc & Hreach).
  eapply observations_extend; [exact Hrc|apply reachable_wf; exact Hreach].
Qed.

(** ** The container that [set] and [delete] return *)

Lemma nth_error_cell (st e : Store.store) o o' a x :
  nth_error (st ++ o :: e) a = Some x -> x <> o -> nth_error (st ++ o' :: e) a = Some x.
Proof.
  intros H Hx. destruct (Nat.lt_ge_cases a (length st)) as [Hlt|Hge].
  - rewrite nth_error_app1 in H |- * by exact Hlt. exact H.
  - rewrite nth_error_app2 in H |- * by exact Hge.
    destruct (a - length st)%nat as [|m]; [|exact H].
    simpl in H. congruence.
Qed.

Lemma related_in st st' l arr :
  (forall c, In (ONode c) arr -> forall a, Store.repr st a c -> Store.repr st' a c) ->
  Forall2 (Store.repr_val st) l arr -> Forall2 (Store.repr_val st') l arr.
Proof.
  intros Hin H. induction H as [|p o l arr Hpo H IH]; constructor.
  - destruct Hpo; constructor. apply (Hin n); [left; reflexivity|assumption].
  - apply IH. intros c Hc. apply Hin. right. exact Hc.
Qed.

(** A node is the same node when the fields of a container are assigned. *)
Lemma repr_cell n : forall st e r0 s0 r1 s1 a,
  Store.repr (st ++ Store.Hamt r0 s0 :: e) a n ->
  Store.repr (st ++ Store.Hamt r1 s1 :: e) a n.
Proof.
  induction n as [bm arr IH|items IH] using node_induction; intros st e r0 s0 r1 s1 a H;
    inversion H as [? ? array l ? Ha Hl Hr|? items' l ? Ha Hl Hr]; subst.
  - eapply Store.repr_Bitmap;
      [eapply nth_error_cell; [eassumption|discriminate]..|].
    eapply related_in; [|exact Hr]. intros c Hc a'. apply IH. exact Hc.
  - eapply Store.repr_Collision;
      [eapply nth_error_cell; [eassumption|discriminate]..|].
    eapply related_in; [|exact Hr]. intros c Hc a'. apply IH. exact Hc.
Qed.

Lemma set_root_new st r0 s0 e r :
  Store.set_root (length st) r (st ++ Store.Hamt r0 s0 :: e) =
  (Ok tt, st ++ Store.Hamt r s0 :: e).
Proof.
  unfold Store.set_root, Store.bind. rewrite (fields_at _ _ r0 s0) by apply nth_error_new.
  unfold Store.write. rewrite update_new. reflexivity.
Qed.

Lemma set_size_new st r0 s0 e s :
  Store.set_size (length st) s (st ++ Store.Hamt r0 s0 :: e) =
  (Ok tt, st ++ Store.Hamt r0 s :: e).
Proof.
  unfold Store.set_size, Store.bind. rewrite (fields_at _ _ r0 s0) by apply nth_error_new.
  unfold Store.write. rewrite update_new. reflexivity.
Qed.

Lemma set_fields_new st r0 s0 e r s :
  Store.bind (Store.set_root (length st) r) (fun _ =>
    Store.bind (Store.set_size (length st) s) (fun _ => Store.ret (length st)))
    (st ++ Store.Hamt r0 s0 :: e) =
  (Ok (length st), st ++ Store.Hamt r s :: e).
Proof.
  unfold Store.bind at 1. rewrite set_root_new.
  unfold Store.bind. rewrite set_size_new. reflexivity.
Qed.

(** [_assoc_with_added] on a well-formed root. *)
Lemma assoc_with_added_refines st rt n k v :
  Store.repr st rt n -> wf 0 0 n ->
  exists r added e a,
    _assoc_with_added (Some n) 0 (hash k) k v = Ok (r, added) /\
    Store._assoc_with_added (Store.PRef rt) 0 (hash k) k v st = (Ok (a, added), st ++ e) /\
    Store.nodes_only e /\ Store.repr (st ++ e) a (resolve n r).
Proof.
  intros Hr Hwf. pose proof (wf_height_limit _ _ _ Hwf) as Hh.
  destruct (assoc_with_added_wf n k v Hwf) as (r & added & _ & Eassoc & _ & _).
  pose proof (find_refines n st rt 0 (hash k) k recursion_limit Hr Hh) as Hf.
  pose proof (assoc_refines n st rt 0 (hash k) k v recursion_limit Hr Hh) as Ha.
  rewrite Eassoc in Ha. destruct Ha as (e & Hs & Hn & a & Hres & Hret).
  assert (Hrepr : Store.repr (st ++ e) a (resolve n r)).
  { destruct r as [|n']; cbn [Store.assoc_returns resolve] in *.
    - destruct Hret as [-> ->]. exact Hr.
    - apply Hret. }
  assert (Ex : Store.assoc recursion_limit rt 0 (hash k) k v st = (Ok a, st ++ e)).
  { destruct (Store.assoc recursion_limit rt 0 (hash k) k v st) as [x st2].
    cbn [fst snd] in Hs, Hres. subst x st2. reflexivity. }
  cbn [_assoc_with_added Store._assoc_with_added]. rewrite Eassoc. cbv zeta.
  unfold Store.bind.
  destruct (find_wf n 0 0 (hash k) k Hwf) as [E|(v' & E)]; rewrite E in Hf |- *.
  - cbn [Store.reads] in Hf. rewrite Hf. cbn [bind]. rewrite Ex.
    exists r, true, e, a. repeat split; [exact Hn|exact Hrepr].
  - destruct Hf as (p & Hf & _). rewrite Hf. cbn [bind]. rewrite Ex.
    exists r, false, e, a. repeat split; [exact Hn|exact Hrepr].
Qed.

(** [set] returns a new container, whose content is what [set] computes
    on the content; the objects it builds follow those of the store. *)
Lemma set_refines st a c k v :
  Store.repr_hamt st a c -> wf_root (_root c) ->
  exists c' r e,
    set c k v = Ok c' /\
    Store.set a k v st = (Ok (length st), st ++ Store.Hamt r (_size c') :: e) /\
    Store.nodes_only e /\
    Store.repr_hamt (st ++ Store.Hamt r (_size c') :: e) (length st) c'.
Proof.
  intros (root & Ha & Hr) Hwf. unfold Store.set, set.
  unfold Store.bind at 1. unfold Store.new, Store.alloc.
  unfold Store.bind at 1. rewrite (fields_at _ _ root (_size c)) by (apply nth_error_ext; exact Ha).
  cbn [fst snd].
  destruct (_root c) as [n|]; [destruct Hr as (rt & -> & Hr)|subst root].
  - cbn [wf_root] in Hwf.
    destruct (assoc_with_added_refines (st ++ [Store.Hamt Store.PNone 0]) rt n k v
                (repr_ext _ _ _ _ Hr) Hwf) as (r & added & e & a' & -> & Es & Hn & Hrepr).
    unfold Store.bind at 1. rewrite Es. cbn [fst snd bind].
    rewrite <- app_assoc in Hrepr |- *. cbn [app] in Hrepr |- *.
    rewrite set_fields_new.
    exists (mkHAMT (Some (resolve n r)) (_size c + (if added then 1 else 0))),
      (Store.PRef a'), e.
    cbn [_size _root]. repeat split; [exact Hn|].
    exists (Store.PRef a'). cbn [_size _root]. split; [apply nth_error_new|].
    exists a'. split; [reflexivity|]. eapply repr_cell. exact Hrepr.
  - unfold Store.bind at 1. unfold Store.alloc.
    unfold Store.bind at 1.
    rewrite <- !app_assoc. cbn [app]. rewrite set_fields_new.
    eexists (mkHAMT _ 1), _, _. cbn [_size _root]. repeat split.
    + repeat constructor.
    + eexists. cbn [_size _root]. split; [apply nth_error_new|].
      eexists. split; [reflexivity|].
      apply (repr_cell _ st _ Store.PNone 0).
      replace (length (st ++ [Store.Hamt Store.PNone 0; Store.List [Store.pk k; Store.pv v]]))
        with (S (length (st ++ [Store.Hamt Store.PNone 0])))
        by (rewrite !length_app; simpl; lia).
      generalize (fresh_bitmap (st ++ [Store.Hamt Store.PNone 0])
                    (Z.shiftl 1 (Z.land (hash k) 31)) [Store.pk k; Store.pv v]
                    [key_obj k; val_obj v]).
      rewrite <- app_assoc. cbn [app]. intros G. apply G.
      repeat constructor; [apply repr_val_key|apply repr_val_value].
Qed.

(** [delete] returns a new container, whose content is what [delete]
    computes on the content; where it raises, the store is as it was. *)
Lemma delete_refines st a c k :
  Store.repr_hamt st a c -> wf_root (_root c) ->
  match delete c k with
  | Ok c' =>
      exists r e,
        Store.delete a k st =
          (Ok (length (st ++ e)), (st ++ e) ++ [Store.Hamt r (_size c')]) /\
        Store.nodes_only e /\
        Store.repr_hamt ((st ++ e) ++ [Store.Hamt r (_size c')]) (length (st ++ e)) c'
  | Raise ex => Store.delete a k st = (Raise ex, st)
  end.
Proof.
  intros (root & Ha & Hr) Hwf. unfold delete.
  assert (Ef : forall f : Store.pyval * Z -> Store.M nat,
             Store.bind (Store.fields a) f st = f (root, _size c) st).
  { intros f. unfold Store.bind. rewrite (fields_at _ _ root (_size c) Ha). reflexivity. }
  destruct (_root c) as [n|];
    [destruct Hr as (rt & -> & Hr)
    |subst root; unfold Store.delete; rewrite Ef; reflexivity].
  cbn [wf_root] in Hwf. pose proof (wf_height_limit _ _ _ Hwf) as Hh.
  pose proof (without_refines n st rt 0 (hash k) k recursion_limit Hr Hh) as Hw.
  destruct (without n 0 (hash k) k) as [r|ex]; cbn [bind Store.removes] in *;
    unfold Store.delete; rewrite Ef; cbn [fst snd]; unfold Store.bind at 1;
    [|rewrite Hw; reflexivity].
  destruct Hw as (e & Hs & Hn & p & Hres & Hret).
  destruct (Store.without recursion_limit rt 0 (hash k) k st) as [x st2].
  cbn [fst snd] in Hs, Hres. subst x st2.
  unfold Store.bind at 1. unfold Store.new, Store.alloc.
  rewrite set_fields_new. exists p, e. cbn [_size]. repeat split; [exact Hn|].
  exists p. cbn [_size _root]. split; [apply nth_error_new|].
  destruct r as [| |n']; cbn [Store.without_returns] in Hret.
  - destruct Hret as [-> Est]. exists rt. split; [reflexivity|].
    rewrite Est. apply repr_ext. exact Hr.
  - exact Hret.
  - destruct Hret as (a' & -> & Hrepr & _). exists a'. split; [reflexivity|].
    apply repr_ext. exact Hrepr.
Qed.

(** ** The stores a program builds *)

Lemma container_new (e1 e2 : Store.store) o a root size :
  Store.nodes_only e1 -> Store.nodes_only e2 ->
  nth_error (e1 ++ o :: e2) a = Some (Store.Hamt root size) -> a = length e1.
Proof.
  intros H1 H2 Ha.
  destruct (Nat.lt_trichotomy a (length e1)) as [Hlt|[Heq|Hgt]]; [|exact Heq|]; exfalso.
  - rewrite nth_error_app1 in Ha by exact Hlt.
    apply nth_error_In in Ha. unfold Store.nodes_only in H1.
    rewrite Forall_forall in H1. exact (H1 _ Ha).
  - rewrite nth_error_app2 in Ha by lia.
    destruct (a - length e1)%nat as [|m] eqn:Em; [lia|]. cbn [nth_error] in Ha.
    apply nth_error_In in Ha. unfold Store.nodes_only in H2.
    rewrite Forall_forall in H2. exact (H2 _ Ha).
Qed.

(** A store stays consistent when nodes and one container of reachable
    content are added. *)
Lemma consistent_add st e1 r c' e2 :
  consistent st -> Store.nodes_only e1 -> Store.nodes_only e2 ->
  Store.repr_hamt ((st ++ e1) ++ Store.Hamt r (_size c') :: e2) (length (st ++ e1)) c' ->
  reachable c' ->
  consistent ((st ++ e1) ++ Store.Hamt r (_size c') :: e2).
Proof.
  intros Hc H1 H2 Hrepr Hreach a root size Ha.
  destruct (Nat.lt_ge_cases a (length st)) as [Hlt|Hge].
  - rewrite <- app_assoc in Ha. rewrite nth_error_app1 in Ha by exact Hlt.
    destruct (Hc _ _ _ Ha) as (c & Hrc & Hc').
    exists c. split; [|exact Hc']. rewrite <- app_assoc. apply repr_hamt_ext. exact Hrc.
  - rewrite <- app_assoc in Ha. rewrite nth_error_app2 in Ha by exact Hge.
    pose proof (container_new _ _ _ _ _ _ H1 H2 Ha) as E.
    replace a with (length (st ++ e1)) by (rewrite length_app; lia).
    exists c'. split; assumption.
Qed.

Lemma new_consistent st : consistent st -> consistent (snd (Store.new st)).
Proof.
  intros Hc. unfold Store.new, Store.alloc. cbn [snd].
  rewrite <- (app_nil_r st) at 1.
  apply (consistent_add st [] Store.PNone empty []); try assumption; try constructor.
  exists Store.PNone. cbn [_size _root empty]. split; [|reflexivity].
  rewrite app_nil_r. apply nth_error_new.
Qed.

Lemma set_consistent st a k v :
  consistent st -> (a < length st)%nat ->
  exists e, snd (Store.set a k v st) = st ++ e /\ consistent (st ++ e).
Proof.
  intros Hc Ha. destruct (nth_error st a) as [o|] eqn:E;
    [|apply nth_error_None in E; lia].
  assert (Hother : (forall root size, o <> Store.Hamt root size) ->
                   exists e, snd (Store.set a k v st) = st ++ e /\ consistent (st ++ e)).
  { intros Ho. exists [Store.Hamt Store.PNone 0]. split; [|apply (new_consistent st Hc)].
    unfold Store.set. unfold Store.bind at 1. unfold Store.new, Store.alloc.
    unfold Store.bind at 1.
    rewrite (fields_other _ _ _ (nth_error_ext _ _ _ _ E) Ho). reflexivity. }
  destruct o as [l|bm array|items|root size]; try (apply Hother; discriminate).
  clear Hother. destruct (Hc _ _ _ E) as (c & Hrc & Hreach).
  destruct (set_refines st a c k v Hrc (reachable_wf c Hreach))
    as (c' & r & e & Eset & Es & Hn & Hrepr).
  exists (Store.Hamt r (_size c') :: e). rewrite Es. split; [reflexivity|].
  rewrite <- (app_nil_r st) at 1.
  apply (consistent_add st [] r c' e); try assumption; try constructor.
  - rewrite app_nil_r. exact Hrepr.
  - exact (reachable_set c k v c' Hreach Eset).
Qed.

Lemma delete_consistent st a k :
  consistent st -> (a < length st)%nat ->
  exists e, snd (Store.delete a k st) = st ++ e /\ consistent (st ++ e).
Proof.
  intros Hc Ha. destruct (nth_error st a) as [o|] eqn:E;
    [|apply nth_error_None in E; lia].
  assert (Hother : (forall root size, o <> Store.Hamt root size) ->
                   exists e, snd (Store.delete a k st) = st ++ e /\ consistent (st ++ e)).
  { intros Ho. exists []. rewrite app_nil_r. split; [|exact Hc].
    unfold Store.delete. unfold Store.bind at 1.
    rewrite (fields_other _ _ _ E Ho). reflexivity. }
  destruct o as [l|bm array|items|root size]; try (apply Hother; discriminate).
  clear Hother. destruct (Hc _ _ _ E) as (c & Hrc & Hreach).
  pose proof (delete_refines st a c k Hrc (reachable_wf c Hreach)) as Hd.
  destruct (delete c k) as [c'|ex] eqn:Edel.
  - destruct Hd as (r & e & Es & Hn & Hrepr).
    exists (e ++ [Store.Hamt r (_size c')]). rewrite Es, app_assoc.
    split; [reflexivity|].
    apply (consistent_add st e r c' []); try assumption; try constructor.
    exact (reachable_delete c k c' Hreach Edel).
  - exists []. rewrite Hd, app_nil_r. split; [reflexivity|exact Hc].
Qed.

Lemma reachable_consistent st : Store.reachable st -> consistent st.
Proof.
  induction 1 as [|st H IH|st a k v H IH Ha|st a k H IH Ha].
  - intros a root size Ha. destruct a; discriminate Ha.
  - apply new_consistent. exact IH.
  - destruct (set_consistent st a k v IH Ha) as (e & -> & Hc). exact Hc.
  - destruct (delete_consistent st a k IH Ha) as (e & -> & Hc). exact Hc.
Qed.

(** C7.  In every store a program builds, [c.set(k, v)] and [c.delete(k)]
    on an object [c] only add objects: the store after the call is the
    store before it followed by new objects, so that no object there was,
    node, slot array or container, is written; and on every object [b]
    there was, [c] among them, the observations [len(b)], [list(b)],
    [k' in b], [b[k']] and [b.get(k', d)] return after the call what they
    returned before it. *)
Theorem old_versions_unchanged st a k v :
  Store.reachable st -> (a < length st)%nat ->
  (exists e, snd (Store.set a k v st) = st ++ e /\
             forall b, (b < length st)%nat -> Store.same_observations st (st ++ e) b) /\
  (exists e, snd (Store.delete a k st) = st ++ e /\
             forall b, (b < length st)%nat -> Store.same_observations st (st ++ e) b).
Proof.
  intros Hreach Ha. pose proof (reachable_consistent st Hreach) as Hc. split.
  - destruct (set_consistent st a k v Hc Ha) as (e & Es & _).
    exists e. split; [exact Es|]. intros b Hb. apply observations_consistent; assumption.
  - destruct (delete_consistent st a k Hc Ha) as (e & Es & _).
    exists e. split; [exact Es|]. intros b Hb. apply observations_consistent; assumption.
Qed.

Lemma old_versions_unchanged_witness :
  (exists e,
     snd (Store.set 1 (KObj 33 2) (VObj 8)
            (snd (Store.set 0 (KObj 1 1) (VObj 7) (snd (Store.new []))))) =
     snd (Store.set 0 (KObj 1 1) (VObj 7) (snd (Store.new []))) ++ e /\
     forall b,
       (b < length (snd (Store.set 0 (KObj 1 1) (VObj 7) (snd (Store.new [])))))%nat ->
       Store.same_observations
         (snd (Store.set 0 (KObj 1 1) (VObj 7) (snd (Store.new []))))
         (snd (Store.set 0 (KObj 1 1) (VObj 7) (snd (Store.new []))) ++ e) b) /\
  (exists e,
     snd (Store.delete 1 (KObj 33 2)
            (snd (Store.set 0 (KObj 1 1) (VObj 7) (snd (Store.new []))))) =
     snd (Store.set 0 (KObj 1 1) (VObj 7) (snd (Store.new []))) ++ e /\
     forall b,
       (b < length (snd (Store.set 0 (KObj 1 1) (VObj 7) (snd (Store.new [])))))%nat ->
       Store.same_observations
         (snd (Store.set 0 (KObj 1 1) (VObj 7) (snd (Store.new []))))
         (snd (Store.set 0 (KObj 1 1) (VObj 7) (snd (Store.new []))) ++ e) b).
Proof.
  apply (old_versions_unchanged
           (snd (Store.set 0 (KObj 1 1) (VObj 7) (snd (Store.new [])))) 1 (KObj 33 2) (VObj 8)).
  - apply (Store.reachable_set (snd (Store.new [])) 0 (KObj 1 1) (VObj 7)).
    + apply (Store.reachable_new []). apply Store.reachable_start.
    + apply Nat.ltb_lt. vm_compute. reflexivity.
  - apply Nat.ltb_lt. vm_compute. reflexivity.
Defined.

(** C4.  On a reachable container: [c[k]] and [c.delete(k)] raise
    [KeyError] exactly when [k in c] is false; [c.get(k, d)] and [k in c]
    never raise it; where [k in c] is true [c.delete(k)] returns a
    container; and where [c.delete(k)] raises, in whatever store an
    object [a] holds the content [c], the call on [a] raises and leaves
    the store as it was: no object is added and none is written. *)
Theorem key_missing_iff_absent c k :
  reachable c ->
  (__contains__ c k = Ok true \/ __contains__ c k = Ok false) /\
  (__getitem__ c k = Raise KeyError <-> __contains__ c k = Ok false) /\
  (delete c k = Raise KeyError <-> __contains__ c k = Ok false) /\
  (__contains__ c k = Ok true <-> exists c', delete c k = Ok c') /\
  (forall d, get c k d <> Raise KeyError) /\
  __contains__ c k <> Raise KeyError /\
  (forall st a, Store.repr_hamt st a c -> delete c k = Raise KeyError ->
                Store.delete a k st = (Raise KeyError, st)).
Proof.
  intros Hc. pose proof (reachable_wf c Hc) as Hwf.
  assert (Hstore : forall st a, Store.repr_hamt st a c -> delete c k = Raise KeyError ->
                                Store.delete a k st = (Raise KeyError, st)).
  { intros st a Hrepr E. pose proof (delete_refines st a c k Hrepr Hwf) as Hd.
    rewrite E in Hd. exact Hd. }
  revert Hstore. generalize (forall st a, Store.repr_hamt st a c ->
    delete c k = Raise KeyError -> Store.delete a k st = (Raise KeyError, st)).
  intros Q HQ.
  unfold __contains__, __getitem__, delete, get, wf_root in *.
  destruct (_root c) as [root|].
  - destruct (find_without_wf root 0 0 (hash k) k Hwf) as [[Ef Ew]|(v & r & Ef & Ew & _)];
      rewrite Ef, Ew; cbn [bind].
    + repeat split; auto; try discriminate.
      intros [c' H]; discriminate H.
    + repeat split; auto; try discriminate; try (eexists; reflexivity).
      all: destruct v; discriminate.
  - repeat split; auto; try discriminate. intros [c' H]; discriminate H.
Qed.

Lemma key_missing_iff_absent_witness :
  (__contains__ (mkHAMT (Some (BitmapNode 2 [OKey 1 1; OVal 7])) 1) (KObj 33 2) = Ok true \/
   __contains__ (mkHAMT (Some (BitmapNode 2 [OKey 1 1; OVal 7])) 1) (KObj 33 2) = Ok false) /\
  (__getitem__ (mkHAMT (Some (BitmapNode 2 [OKey 1 1; OVal 7])) 1) (KObj 33 2) = Raise KeyError <->
   __contains__ (mkHAMT (Some (BitmapNode 2 [OKey 1 1; OVal 7])) 1) (KObj 33 2) = Ok false) /\
  (delete (mkHAMT (Some (BitmapNode 2 [OKey 1 1; OVal 7])) 1) (KObj 33 2) = Raise KeyError <->
   __contains__ (mkHAMT (Some (BitmapNode 2 [OKey 1 1; OVal 7])) 1) (KObj 33 2) = Ok false) /\
  (__contains__ (mkHAMT (Some (BitmapNode 2 [OKey 1 1; OVal 7])) 1) (KObj 33 2) = Ok true <->
   exists c', delete (mkHAMT (Some (BitmapNode 2 [OKey 1 1; OVal 7])) 1) (KObj 33 2) = Ok c') /\
  (forall d, get (mkHAMT (Some (BitmapNode 2 [OKey 1 1; OVal 7])) 1) (KObj 33 2) d <> Raise KeyError) /\
  __contains__ (mkHAMT (Some (BitmapNode 2 [OKey 1 1; OVal 7])) 1) (KObj 33 2) <> Raise KeyError /\
  (forall st a,
     Store.repr_hamt st a (mkHAMT (Some (BitmapNode 2 [OKey 1 1; OVal 7])) 1) ->
     delete (mkHAMT (Some (BitmapNode 2 [OKey 1 1; OVal 7])) 1) (KObj 33 2) = Raise KeyError ->
     Store.delete a (KObj 33 2) st = (Raise KeyError, st)).
Proof.
  apply (key_missing_iff_absent (mkHAMT (Some (BitmapNode 2 [OKey 1 1; OVal 7])) 1) (KObj 33 2)).
  apply (reachable_set empty (KObj 1 1) (VObj 7)); [constructor|reflexivity].
Defined.

(** * What a trie stores, and what the operations do to it *)

(** ** Lookup in a list of pairs *)

Lemma py_eq_true x k : py_eq x k = true -> x = key_obj k.
Proof.
  destruct x as [|h i|i|n], k as [|h' i']; simpl; intros H; try discriminate; [reflexivity|].
  apply andb_true_iff in H. destruct H as [H1 H2]. apply Z.eqb_eq in H1, H2. subst. reflexivity.
Qed.

Lemma py_eq_other k' k : k' <> k -> py_eq (key_obj k') k = false.
Proof.
  intros H. destruct (py_eq (key_obj k') k) eqn:E; [|reflexivity].
  apply py_eq_key_obj in E. contradiction.
Qed.

Lemma lookup_raises k l e : lookup k l = Raise e -> e = KeyError.
Proof.
  induction l as [|[x y] l IH]; cbn [lookup]; [congruence|].
  destruct (py_eq x k); [discriminate|exact IH].
Qed.

Lemma lookup_app k l1 l2 :
  lookup k (l1 ++ l2) = match lookup k l1 with Ok y => Ok y | Raise _ => lookup k l2 end.
Proof.
  induction l1 as [|[x y] l1 IH]; cbn [lookup app]; [reflexivity|].
  destruct (py_eq x k); [reflexivity|exact IH].
Qed.

Lemma lookup_none k l :
  (forall y, ~ In (key_obj k, y) l) <-> lookup k l = Raise KeyError.
Proof.
  induction l as [|[x y] l IH]; cbn [lookup]; [split; [reflexivity|intros _ y []]|].
  destruct (py_eq x k) eqn:E.
  - split; [|discriminate]. intros H. exfalso. apply (H y). left.
    rewrite (py_eq_true _ _ E). reflexivity.
  - rewrite <- IH. split; intros H y' Hin.
    + apply (H y'). right. exact Hin.
    + destruct Hin as [Hin|Hin]; [|exact (H y' Hin)].
      injection Hin as -> _. rewrite py_eq_refl in E. discriminate.
Qed.

Lemma lookup_In k l y : lookup k l = Ok y -> In (key_obj k, y) l.
Proof.
  induction l as [|[x y'] l IH]; cbn [lookup]; [discriminate|].
  destruct (py_eq x k) eqn:E; [|right; auto].
  intros H. injection H as ->. left. rewrite (py_eq_true _ _ E). reflexivity.
Qed.

Lemma lookup_NoDup k l y :
  NoDup (map fst l) -> In (key_obj k, y) l -> lookup k l = Ok y.
Proof.
  induction l as [|[x y'] l IH]; intros Hnd Hin; [destruct Hin|].
  cbn [map fst] in Hnd. inversion Hnd as [|? ? Hx Hnd']; subst. cbn [lookup].
  destruct Hin as [E|Hin].
  - injection E as -> ->. rewrite py_eq_refl. reflexivity.
  - destruct (py_eq x k) eqn:E; [|exact (IH Hnd' Hin)].
    exfalso. apply Hx. rewrite (py_eq_true _ _ E).
    apply (in_map fst) in Hin. exact Hin.
Qed.

(** ** The leaf pairs of an array *)

Lemma leaves_of_app sub s q js a1 a2 :
  wf_array s q js a1 -> leaves_of sub (a1 ++ a2) = leaves_of sub a1 ++ leaves_of sub a2.
Proof.
  induction 1 as [|s q j js x y arr Hs _ IH]; [reflexivity|].
  cbn [app leaves_of]. rewrite IH, app_assoc. reflexivity.
Qed.

Lemma pairs_of_flat kvs :
  pairs_of (flat kvs) = map (fun kv => (key_obj (fst kv), val_obj (snd kv))) kvs.
Proof.
  induction kvs as [|[k v] kvs IH]; [reflexivity|].
  cbn [flat pairs_of map fst snd]. rewrite IH. reflexivity.
Qed.

Lemma in_bit_positions bm j : In j (bit_positions bm) -> 0 <= j < 32.
Proof.
  unfold bit_positions. intros H. apply filter_In in H. apply in_positions. apply H.
Qed.

Lemma child_prefix s q j : 0 <= q < 2 ^ Z.of_N s -> 0 <= j < 32 ->
  0 <= q + 2 ^ Z.of_N s * j < 2 ^ Z.of_N (s + 5).
Proof.
  intros Hq Hj. rewrite N2Z.inj_add, Z.pow_add_r by lia.
  change (2 ^ Z.of_N 5) with 32. nia.
Qed.

(** A key below the slot [j] of a node at [s] has the prefix of the node
    and the slice [j]. *)
Lemma prefix_slice s q j h : 0 <= q < 2 ^ Z.of_N s ->
  low (s + 5) h = q + 2 ^ Z.of_N s * j -> low s h = q /\ slice s h = j.
Proof.
  intros Hq H. rewrite low_step in H.
  assert (HP : 0 < 2 ^ Z.of_N s) by (apply Z.pow_pos_nonneg; lia).
  exact (split_prefix _ _ _ _ _ HP (low_range s h) Hq H).
Qed.

(** The pairs of a well-formed array are keys with values; a key has the
    prefix of the node, and sits at or below the slot of its slice. *)
Lemma leaves_array s q js arr :
  wf_array s q js arr -> 0 <= q < 2 ^ Z.of_N s -> (forall j, In j js -> 0 <= j < 32) ->
  (forall c, In (ONode c) arr -> forall q', wf (s + 5) q' c -> 0 <= q' < 2 ^ Z.of_N (s + 5) ->
     forall x y, In (x, y) (leaves c) ->
       exists k v, x = key_obj k /\ y = val_obj v /\ low (s + 5) (hash k) = q') ->
  forall x y, In (x, y) (leaves_of leaves arr) ->
    exists k v, x = key_obj k /\ y = val_obj v /\ low s (hash k) = q /\
                In (slice s (hash k)) js.
Proof.
  induction 1 as [|s q j js x0 y0 arr Hs _ IH]; intros Hq Hjs Hsub x y Hin; [destruct Hin|].
  cbn [leaves_of] in Hin. apply in_app_or in Hin. destruct Hin as [Hin|Hin].
  - destruct (wf_slot_inv _ _ _ _ _ Hs) as [(k & v & -> & -> & Hk & Hj)|(c & -> & -> & Hc)].
    + rewrite (match_key_obj k (fun c => leaves c)) in Hin.
      destruct Hin as [E|[]]. injection E as <- <-.
      exists k, v. repeat split; [exact Hk|left; symmetry; exact Hj].
    + assert (Hj : 0 <= j < 32) by (apply Hjs; left; reflexivity).
      destruct (Hsub c (or_introl eq_refl) _ Hc (child_prefix s q j Hq Hj) x y Hin)
        as (k & v & -> & -> & Hk).
      destruct (prefix_slice s q j (hash k) Hq Hk) as [E1 E2].
      exists k, v. repeat split; [exact E1|left; symmetry; exact E2].
  - destruct (IH Hq) with (x := x) (y := y) as (k & v & -> & -> & Hk & Hj).
    + intros i Hi. apply Hjs. right. exact Hi.
    + intros c Hc. apply Hsub. right. right. exact Hc.
    + exact Hin.
    + exists k, v. repeat split; [exact Hk|right; exact Hj].
Qed.

Lemma leaves_wf n : forall s q, wf s q n -> 0 <= q < 2 ^ Z.of_N s ->
  forall x y, In (x, y) (leaves n) ->
    exists k v, x = key_obj k /\ y = val_obj v /\ low s (hash k) = q.
Proof.
  induction n as [bm arr IH|items IH] using node_induction; intros s q Hwf Hq x y Hin.
  - destruct (wf_bitmap_inv _ _ _ _ Hwf) as (_ & _ & _ & Harr). cbn [leaves] in Hin.
    destruct (leaves_array s q _ arr Harr Hq (in_bit_positions bm)) with (x := x) (y := y)
      as (k & v & Hx & Hy & Hk & _); [|exact Hin|eauto].
    intros c Hc q' Hwc Hq'. exact (IH c Hc _ _ Hwc Hq').
  - destruct (wf_collision_inv _ _ _ Hwf) as (kvs & -> & _ & _ & _ & Hall).
    cbn [leaves] in Hin. rewrite pairs_of_flat in Hin. apply in_map_iff in Hin.
    destruct Hin as ([k v] & E & Hin). injection E as <- <-.
    rewrite Forall_forall in Hall. exists k, v. repeat split. exact (Hall _ Hin).
Qed.

Lemma leaves_array_wf s q js arr :
  wf_array s q js arr -> 0 <= q < 2 ^ Z.of_N s -> (forall j, In j js -> 0 <= j < 32) ->
  forall x y, In (x, y) (leaves_of leaves arr) ->
    exists k v, x = key_obj k /\ y = val_obj v /\ low s (hash k) = q /\
                In (slice s (hash k)) js.
Proof.
  intros Harr Hq Hjs. apply (leaves_array s q js arr Harr Hq Hjs).
  intros c _ q' Hwc Hq'. exact (leaves_wf c _ _ Hwc Hq').
Qed.

(** No pair of a key is in the part of an array that leaves its slice out. *)
Lemma leaves_array_other s q js arr k :
  wf_array s q js arr -> 0 <= q < 2 ^ Z.of_N s -> (forall j, In j js -> 0 <= j < 32) ->
  ~ In (slice s (hash k)) js -> lookup k (leaves_of leaves arr) = Raise KeyError.
Proof.
  intros Harr Hq Hjs Hk. apply lookup_none. intros y Hin.
  destruct (leaves_array_wf s q js arr Harr Hq Hjs _ _ Hin) as (k' & v & E & _ & _ & Hj).
  apply key_obj_inj in E. subst k'. contradiction.
Qed.

(** ** [find] is the lookup among the leaf pairs *)

Lemma leaves_slot bm s q lo a1 x y a2 :
  wf_array s q lo a1 ->
  leaves (BitmapNode bm (a1 ++ x :: y :: a2)) =
  leaves_of leaves a1 ++
  match x with ONode c => leaves c | _ => [(x, y)] end ++ leaves_of leaves a2.
Proof. intros Hlo. cbn [leaves]. rewrite (leaves_of_app _ _ _ _ _ _ Hlo). reflexivity. Qed.

Lemma leaves_no_slot bm s q lo a1 a2 :
  wf_array s q lo a1 ->
  leaves (BitmapNode bm (a1 ++ a2)) = leaves_of leaves a1 ++ [] ++ leaves_of leaves a2.
Proof. intros Hlo. cbn [leaves]. rewrite (leaves_of_app _ _ _ _ _ _ Hlo). reflexivity. Qed.

(** A change in the middle of a list of pairs, seen by a lookup. *)
Lemma lookup_mid k (l1 mid mid' l2 : list (obj * obj)) :
  lookup k mid = lookup k mid' ->
  lookup k (l1 ++ mid ++ l2) = lookup k (l1 ++ mid' ++ l2).
Proof. intros H. rewrite !lookup_app, H. reflexivity. Qed.

Lemma lookup_only k (l1 mid l2 : list (obj * obj)) :
  lookup k l1 = Raise KeyError -> lookup k l2 = Raise KeyError ->
  lookup k (l1 ++ mid ++ l2) = lookup k mid.
Proof.
  intros H1 H2. rewrite !lookup_app, H1, H2.
  destruct (lookup k mid) as [y|e] eqn:E; [reflexivity|].
  rewrite (lookup_raises _ _ _ E). reflexivity.
Qed.

Section Around.
(** The two parts of an array around the slot of the slice of a key. *)
Variables (s : N) (q : Z) (bm : Z) (lo hi : list Z) (a1 a2 : list obj) (k : key).
Hypothesis Hq : 0 <= q < 2 ^ Z.of_N s.
Hypothesis Hlo : wf_array s q lo a1.
Hypothesis Hhi : wf_array s q hi a2.
Hypothesis Hin : forall i, In i lo \/ In i hi -> In i (bit_positions bm).
Hypothesis Hnlo : forall i, In i lo -> i <> slice s (hash k).
Hypothesis Hnhi : forall i, In i hi -> i <> slice s (hash k).

Lemma lookup_lo : lookup k (leaves_of leaves a1) = Raise KeyError.
Proof.
  apply (leaves_array_other s q lo); try assumption.
  - intros j Hj. apply (in_bit_positions bm). apply Hin. left. exact Hj.
  - intros H. exact (Hnlo _ H eq_refl).
Qed.

Lemma lookup_hi : lookup k (leaves_of leaves a2) = Raise KeyError.
Proof.
  apply (leaves_array_other s q hi); try assumption.
  - intros j Hj. apply (in_bit_positions bm). apply Hin. right. exact Hj.
  - intros H. exact (Hnhi _ H eq_refl).
Qed.

Lemma lookup_slot mid :
  lookup k (leaves_of leaves a1 ++ mid ++ leaves_of leaves a2) = lookup k mid.
Proof. apply lookup_only; [apply lookup_lo|apply lookup_hi]. Qed.
End Around.

Lemma in_parts (l lo hi : list Z) (j : Z) :
  l = lo ++ j :: hi -> forall i, In i lo \/ In i hi -> In i l.
Proof.
  intros -> i [H|H]; apply in_or_app; [left|right; right]; exact H.
Qed.

Lemma in_parts0 (l lo hi : list Z) :
  l = lo ++ hi -> forall i, In i lo \/ In i hi -> In i l.
Proof.
  intros -> i [H|H]; apply in_or_app; [left|right]; exact H.
Qed.

Lemma find_collision kvs s h k :
  find (CollisionNode (flat kvs)) s h k = lookup k (pairs_of (flat kvs)).
Proof.
  cbn [find]. rewrite pairs_of_flat.
  destruct (index_of_flat kvs 0 k) as [[E Hni]|(l1 & v & l2 & -> & Hni & E)]; rewrite E.
  - symmetry. apply lookup_none. intros y Hin. apply in_map_iff in Hin.
    destruct Hin as ([k' v'] & Ekv & Hin). injection Ekv as Ek _.
    apply key_obj_inj in Ek. subst k'. apply Hni. apply (in_map fst) in Hin. exact Hin.
  - rewrite getitem_pair, map_app, lookup_app.
    assert (E1 : lookup k (map (fun kv => (key_obj (fst kv), val_obj (snd kv))) l1)
                 = Raise KeyError).
    { apply lookup_none. intros y Hin. apply in_map_iff in Hin.
      destruct Hin as ([k' v'] & Ekv & Hin). injection Ekv as Ek _.
      apply key_obj_inj in Ek. subst k'. apply Hni. apply (in_map fst) in Hin. exact Hin. }
    rewrite E1. cbn [map lookup fst snd]. rewrite py_eq_refl. reflexivity.
Qed.

(** On a well-formed trie, [find] returns what the first leaf pair of the
    key holds, and raises [KeyError] where there is none. *)
Lemma find_spec n : forall s q k, wf s q n -> 0 <= q < 2 ^ Z.of_N s ->
  find n s (hash k) k = lookup k (leaves n).
Proof.
  induction n as [bm arr IH|items IH] using node_induction; intros s q k Hwf Hq.
  - destruct (wf_bitmap_inv _ _ _ _ Hwf) as (H25 & H5 & Hbm & Harr).
    destruct (bitmap_slot s q bm arr (hash k) Hbm Harr)
      as (lo & hi & a1 & Hlo & Hn & Hn0 & Hnlo & Hnhi &
          [(Hbit & Hbp & Hclr & x & y & a2 & -> & Hslot & Hhi)
          |(Hbit & Hbp & Hset & a2 & -> & Hhi)]).
    + rewrite find_bit_set by assumption.
      rewrite (leaves_slot bm s q lo a1 x y a2 Hlo).
      rewrite (lookup_slot s q bm lo hi a1 a2 k Hq Hlo Hhi (in_parts _ _ _ _ Hbp) Hnlo Hnhi).
      destruct (wf_slot_inv _ _ _ _ _ Hslot) as [(k' & v' & -> & -> & _)|(c & -> & -> & Hc)].
      * rewrite !match_key_obj. reflexivity.
      * apply (IH c (in_slot _ _ _ _) _ _ k Hc).
        apply child_prefix; [exact Hq|apply slice_range].
    + rewrite find_bit_unset by assumption.
      rewrite (leaves_no_slot bm s q lo a1 a2 Hlo).
      rewrite (lookup_slot s q bm lo hi a1 a2 k Hq Hlo Hhi (in_parts0 _ _ _ Hbp) Hnlo Hnhi).
      reflexivity.
  - destruct (wf_collision_inv _ _ _ Hwf) as (kvs & -> & _). apply find_collision.
Qed.

(** ** No key twice *)

Lemma NoDup_map_inj {A B} (f : A -> B) l :
  (forall x y, f x = f y -> x = y) -> NoDup l -> NoDup (map f l).
Proof.
  intros Hf. induction 1 as [|a l Ha _ IH]; cbn [map]; constructor; [|exact IH].
  intros Hin. apply in_map_iff in Hin. destruct Hin as (b & E & Hb).
  apply Hf in E. subst b. contradiction.
Qed.

Lemma NoDup_bit_positions bm : NoDup (bit_positions bm).
Proof.
  unfold bit_positions. apply NoDup_filter.
  with_strategy transparent [positions] (unfold positions).
  apply NoDup_map_inj; [intros x y; apply Nat2Z.inj|apply seq_NoDup].
Qed.

Lemma NoDup_append {A} (l1 l2 : list A) :
  NoDup l1 -> NoDup l2 -> (forall a, In a l1 -> ~ In a l2) -> NoDup (l1 ++ l2).
Proof.
  induction 1 as [|a l1 Ha _ IH]; intros H2 Hd; [exact H2|].
  cbn [app]. constructor.
  - intros Hin. apply in_app_or in Hin. destruct Hin as [Hin|Hin]; [contradiction|].
    exact (Hd a (or_introl eq_refl) Hin).
  - apply IH; [exact H2|]. intros b Hb. apply Hd. right. exact Hb.
Qed.

Lemma leaves_array_NoDup s q js arr :
  wf_array s q js arr -> 0 <= q < 2 ^ Z.of_N s -> (forall j, In j js -> 0 <= j < 32) ->
  NoDup js ->
  (forall c, In (ONode c) arr -> forall q', wf (s + 5) q' c -> 0 <= q' < 2 ^ Z.of_N (s + 5) ->
     NoDup (map fst (leaves c))) ->
  NoDup (map fst (leaves_of leaves arr)).
Proof.
  induction 1 as [|s q j js x0 y0 arr Hs Harr IH]; intros Hq Hjs Hnd Hsub; [constructor|].
  inversion Hnd as [|? ? Hj Hnd']; subst.
  assert (Hrange : forall i, In i js -> 0 <= i < 32) by (intros i Hi; apply Hjs; right; exact Hi).
  assert (Hj32 : 0 <= j < 32) by (apply Hjs; left; reflexivity).
  cbn [leaves_of]. rewrite map_app. apply NoDup_append.
  - destruct (wf_slot_inv _ _ _ _ _ Hs) as [(k & v & -> & -> & _)|(c & -> & -> & Hc)].
    + rewrite (match_key_obj k (fun c => leaves c)). repeat constructor. intros [].
    + apply (Hsub c (or_introl eq_refl) _ Hc). apply child_prefix; assumption.
  - apply IH; try assumption. intros c Hc. apply Hsub. right. right. exact Hc.
  - intros o Ho1 Ho2. apply in_map_iff in Ho1, Ho2.
    destruct Ho1 as ([x1 y1] & <- & H1), Ho2 as ([x2 y2] & E & H2). cbn [fst] in E. subst x2.
    destruct (leaves_array_wf s q js arr Harr Hq Hrange _ _ H2)
      as (k2 & v2 & -> & _ & _ & Hin2).
    destruct (leaves_array_wf s q [j] [x0; y0]
                (wf_array_cons _ _ _ _ _ _ _ Hs (wf_array_nil s q)) Hq) with
      (x := key_obj k2) (y := y1) as (k1 & v1 & E1 & _ & _ & Hin1).
    + intros i [<-|[]]. exact Hj32.
    + cbn [leaves_of]. rewrite app_nil_r. exact H1.
    + apply key_obj_inj in E1. subst k1. destruct Hin1 as [E|[]].
      rewrite <- E in Hin2. contradiction.
Qed.

Lemma leaves_NoDup n : forall s q, wf s q n -> 0 <= q < 2 ^ Z.of_N s ->
  NoDup (map fst (leaves n)).
Proof.
  induction n as [bm arr IH|items IH] using node_induction; intros s q Hwf Hq.
  - destruct (wf_bitmap_inv _ _ _ _ Hwf) as (_ & _ & _ & Harr). cbn [leaves].
    apply (leaves_array_NoDup s q _ arr Harr Hq (in_bit_positions bm) (NoDup_bit_positions bm)).
    intros c Hc q' Hwc Hq'. exact (IH c Hc _ _ Hwc Hq').
  - destruct (wf_collision_inv _ _ _ Hwf) as (kvs & -> & _ & _ & Hnd & _).
    cbn [leaves]. rewrite pairs_of_flat, map_map. cbn [fst].
    rewrite <- (map_map fst key_obj). apply NoDup_map_inj; [apply key_obj_inj|exact Hnd].
Qed.

(** ** The leaf pairs after [assoc] *)

Lemma create_node_leaves depth : forall s k1 v1 h2 k2 v2 n,
  _create_node depth s (key_obj k1) (val_obj v1) h2 (key_obj k2) (val_obj v2) = Some n ->
  leaves n = [(key_obj k1, val_obj v1); (key_obj k2, val_obj v2)] \/
  leaves n = [(key_obj k2, val_obj v2); (key_obj k1, val_obj v1)].
Proof.
  induction depth as [|d IH]; intros s k1 v1 h2 k2 v2 n H; [discriminate H|].
  cbn [_create_node] in H. cbv zeta in H.
  destruct (25 <? s)%N; [injection H as <-; left; reflexivity|].
  destruct (slice s (hash_obj (key_obj k1)) =? slice s h2).
  - destruct (_create_node d (s + 5) (key_obj k1) (val_obj v1) h2 (key_obj k2) (val_obj v2))
      as [c|] eqn:E; [|discriminate H].
    injection H as <-. cbn [leaves leaves_of]. rewrite app_nil_r. exact (IH _ _ _ _ _ _ _ E).
  - destruct (slice s (hash_obj (key_obj k1)) <? slice s h2); injection H as <-;
      cbn [leaves leaves_of]; rewrite !(match_key_obj _ (fun c => leaves c)); auto.
Qed.

(** Two pairs of different keys, in either order, as the lookup sees them. *)
Lemma lookup_two k1 v1 k v l k' :
  k1 <> k ->
  l = [(key_obj k1, val_obj v1); (key_obj k, val_obj v)] \/
  l = [(key_obj k, val_obj v); (key_obj k1, val_obj v1)] ->
  (k' <> k -> lookup k' l = lookup k' [(key_obj k1, val_obj v1)]) /\
  lookup k l = Ok (val_obj v).
Proof.
  intros Hne [->| ->]; cbn [lookup]; split.
  - intros Hk'. rewrite (py_eq_other k k') by congruence.
    destruct (py_eq (key_obj k1) k'); reflexivity.
  - rewrite (py_eq_other k1 k Hne), py_eq_refl. reflexivity.
  - intros Hk'. rewrite (py_eq_other k k') by congruence. reflexivity.
  - rewrite py_eq_refl. reflexivity.
Qed.

Lemma lookup_absent k (kvs : list (key * value)) :
  ~ In k (map fst kvs) ->
  lookup k (map (fun kv => (key_obj (fst kv), val_obj (snd kv))) kvs) = Raise KeyError.
Proof.
  intros Hni. apply lookup_none. intros y Hin. apply in_map_iff in Hin.
  destruct Hin as ([k' v'] & Ekv & Hin). injection Ekv as Ek _.
  apply key_obj_inj in Ek. subst k'. apply Hni. apply (in_map fst) in Hin. exact Hin.
Qed.

(** What [assoc] does to the leaf pairs: it leaves every other key bound
    as it was, and binds the key to the value, unless the pair of [None]
    bound to [None] is among them. *)
Lemma assoc_leaves n : forall s q k v r,
  wf s q n -> low s (hash k) = q -> assoc n s (hash k) k v = Ok r ->
  (forall k', k' <> k -> lookup k' (leaves (resolve n r)) = lookup k' (leaves n)) /\
  (~ In (ONone, ONone) (leaves n) -> lookup k (leaves (resolve n r)) = Ok (val_obj v)).
Proof.
  induction n as [bm arr IH|items IH] using node_induction; intros s q k v r Hwf Hk Hr.
  - destruct (wf_bitmap_inv _ _ _ _ Hwf) as (H25 & H5 & Hbm & Harr).
    assert (Hq : 0 <= q < 2 ^ Z.of_N s) by (subst q; apply low_range).
    destruct (bitmap_slot s q bm arr (hash k) Hbm Harr)
      as (lo & hi & a1 & Hlo & Hn & Hn0 & Hnlo & Hnhi &
          [(Hbit & Hbp & Hclr & x & y & a2 & -> & Hslot & Hhi)
          |(Hbit & Hbp & Hset & a2 & -> & Hhi)]).
    + pose proof (lookup_slot s q bm lo hi a1 a2 k Hq Hlo Hhi (in_parts _ _ _ _ Hbp) Hnlo Hnhi)
        as Hmid.
      assert (Hold := leaves_slot bm s q lo a1 x y a2 Hlo).
      rewrite assoc_bit_set in Hr by assumption.
      destruct (is_None x && is_None y) eqn:Enone.
      { injection Hr as <-. cbn [resolve]. split; [reflexivity|]. intros Hnn. exfalso.
        apply andb_true_iff in Enone. destruct Enone as [Ex Ey].
        destruct x; try discriminate Ex. destruct y; try discriminate Ey.
        apply Hnn. rewrite Hold. apply in_or_app. right. left. reflexivity. }
      destruct (wf_slot_inv _ _ _ _ _ Hslot) as [(k' & v' & -> & -> & Hq' & Hj)|(c & -> & -> & Hc)].
      * rewrite match_key_obj in Hr. rewrite (match_key_obj k' (fun c => leaves c)) in Hold.
        destruct (py_eq (key_obj k') k) eqn:Ek.
        -- apply py_eq_key_obj in Ek. subst k'.
           destruct (py_is (val_obj v') v) eqn:Ev.
           ++ injection Hr as <-. cbn [resolve]. split; [reflexivity|]. intros _.
              apply py_is_val_obj in Ev. subst v'.
              rewrite Hold, Hmid. cbn [lookup]. rewrite py_eq_refl. reflexivity.
           ++ injection Hr as <-. cbn [resolve].
              rewrite (leaves_slot bm s q lo a1 _ _ a2 Hlo), Hold.
              rewrite (match_key_obj k (fun c => leaves c)). split.
              ** intros k'' Hk''. apply lookup_mid. cbn [lookup].
                 rewrite (py_eq_other k k'') by congruence. reflexivity.
              ** intros _. rewrite Hmid. cbn [lookup]. rewrite py_eq_refl. reflexivity.
        -- assert (Hne : k' <> k) by (intros ->; rewrite py_eq_refl in Ek; discriminate).
           assert (Hsub : forall nn,
             (if (25 <=? s)%N then Ok (CollisionNode [key_obj k'; val_obj v'; key_obj k; val_obj v])
              else match _create_node recursion_limit (s + 5) (key_obj k') (val_obj v')
                             (hash k) (key_obj k) (val_obj v) with
                   | Some n => Ok n
                   | None => Raise RecursionError
                   end) = Ok nn ->
             leaves nn = [(key_obj k', val_obj v'); (key_obj k, val_obj v)] \/
             leaves nn = [(key_obj k, val_obj v); (key_obj k', val_obj v')]).
           { intros nn. destruct (25 <=? s)%N.
             - intros E. injection E as <-. left. reflexivity.
             - destruct (_create_node recursion_limit (s + 5) (key_obj k') (val_obj v')
                           (hash k) (key_obj k) (val_obj v)) as [c|] eqn:E; [|discriminate].
               intros E'. injection E' as <-. exact (create_node_leaves _ _ _ _ _ _ _ _ E). }
           destruct (if (25 <=? s)%N then _ else _) as [nn|e]; [|discriminate Hr].
           cbn [bind] in Hr. injection Hr as <-. cbn [resolve].
           rewrite (leaves_slot bm s q lo a1 _ _ a2 Hlo), Hold.
           split.
           ++ intros k'' Hk''. apply lookup_mid.
              apply (lookup_two k' v' k v (leaves nn) k'' Hne (Hsub nn eq_refl)). exact Hk''.
           ++ intros _. rewrite Hmid.
              apply (lookup_two k' v' k v (leaves nn) k Hne (Hsub nn eq_refl)).
      * destruct (assoc c (s + 5) (hash k) k v) as [r'|e] eqn:Er'; [|discriminate Hr].
        cbn [bind] in Hr.
        assert (Hk5 : low (s + 5) (hash k) = q + 2 ^ Z.of_N s * slice s (hash k))
          by (rewrite low_step, Hk; reflexivity).
        destruct (IH c (in_slot _ _ _ _) _ _ k v r' Hc Hk5 Er') as [Hframe Hround].
        destruct r' as [|n']; injection Hr as <-; cbn [resolve] in *.
        -- split; [reflexivity|]. intros Hnn. rewrite Hold, Hmid. apply Hround.
           intros Hin. apply Hnn. rewrite Hold. apply in_or_app. right.
           apply in_or_app. left. exact Hin.
        -- rewrite (leaves_slot bm s q lo a1 _ _ a2 Hlo), Hold. split.
           ++ intros k'' Hk''. apply lookup_mid. apply Hframe. exact Hk''.
           ++ intros Hnn. rewrite Hmid. apply Hround.
              intros Hin. apply Hnn. apply in_or_app. right.
              apply in_or_app. left. exact Hin.
    + pose proof (lookup_slot s q bm lo hi a1 a2 k Hq Hlo Hhi (in_parts0 _ _ _ Hbp) Hnlo Hnhi)
        as Hmid.
      rewrite assoc_bit_unset in Hr; try assumption.
      * injection Hr as <-. cbn [resolve].
        rewrite (leaves_slot _ s q lo a1 _ _ a2 Hlo), (leaves_no_slot bm s q lo a1 a2 Hlo).
        rewrite (match_key_obj k (fun c => leaves c)). split.
        -- intros k'' Hk''. apply lookup_mid. cbn [lookup].
           rewrite (py_eq_other k k'') by congruence. reflexivity.
        -- intros _. rewrite Hmid. cbn [lookup]. rewrite py_eq_refl. reflexivity.
      * rewrite popcount_spec, Hbp by assumption.
        rewrite (wf_array_length _ _ _ _ Hlo), length_app. lia.
  - destruct (wf_collision_inv _ _ _ Hwf) as (kvs & -> & H25 & H5 & Hnd & Hq).
    cbn [assoc] in Hr. cbn [leaves].
    destruct (index_of_flat kvs 0 k) as [[E Hni]|(l1 & v' & l2 & -> & Hni & E)];
      rewrite E in Hr.
    + injection Hr as <-. cbn [resolve leaves].
      change (flat kvs ++ [key_obj k; val_obj v]) with (flat kvs ++ flat [(k, v)]).
      rewrite <- flat_app, !pairs_of_flat, map_app. cbn [map fst snd]. split.
      * intros k'' Hk''. rewrite lookup_app. cbn [lookup].
        rewrite (py_eq_other k k'') by congruence.
        destruct (lookup k'' _) as [y|e] eqn:El; [reflexivity|].
        rewrite (lookup_raises _ _ _ El). reflexivity.
      * intros _. rewrite lookup_app, (lookup_absent k kvs Hni). cbn [lookup].
        rewrite py_eq_refl. reflexivity.
    + rewrite getitem_pair in Hr. cbn [bind] in Hr.
      destruct (py_is (val_obj v') v) eqn:Ev.
      * injection Hr as <-. cbn [resolve leaves]. split; [reflexivity|]. intros _.
        apply py_is_val_obj in Ev. subst v'.
        rewrite pairs_of_flat, map_app, lookup_app, (lookup_absent k l1 Hni).
        cbn [map lookup fst snd]. rewrite py_eq_refl. reflexivity.
      * rewrite set_item_pair in Hr. cbn [bind] in Hr. injection Hr as <-.
        cbn [resolve leaves]. rewrite !pairs_of_flat, !map_app. cbn [map fst snd]. split.
        -- intros k'' Hk''.
           apply (lookup_mid k'' _ [(key_obj k, val_obj v)] [(key_obj k, val_obj v')]).
           cbn [lookup fst snd].
           rewrite (py_eq_other k k'') by congruence. reflexivity.
        -- intros _. rewrite lookup_app, (lookup_absent k l1 Hni). cbn [lookup].
           rewrite py_eq_refl. reflexivity.
Qed.

(** ** The leaf pairs after [without] *)

Lemma wf_array_nil_inv s q arr : wf_array s q [] arr -> arr = [].
Proof. intros H; inversion H; reflexivity. Qed.

Lemma single_slot s q bm lo j hi a1 a2 :
  0 <= bm < 2 ^ 32 -> (_popcount bm =? 1) = true -> bit_positions bm = lo ++ j :: hi ->
  wf_array s q lo a1 -> wf_array s q hi a2 -> a1 = [] /\ a2 = [].
Proof.
  intros Hbm Hp Hbp Hlo Hhi. apply Z.eqb_eq in Hp.
  rewrite popcount_spec, Hbp, length_app in Hp by assumption. cbn [length] in Hp.
  destruct lo as [|i lo]; [|cbn [length] in Hp; lia].
  destruct hi as [|i hi]; [|cbn [length] in Hp; lia].
  split; eapply wf_array_nil_inv; eassumption.
Qed.

(** What [without] does to the leaf pairs: it adds none, it leaves none of
    the key, and it leaves every key bound as it was whose hash differs
    from the hash of the key in its 30 low bits. *)
Lemma without_leaves n : forall s q k r,
  wf s q n -> low s (hash k) = q -> without n s (hash k) k = Ok r ->
  (forall p, In p (kept n r) -> In p (leaves n)) /\
  lookup k (kept n r) = Raise KeyError /\
  (forall k', hash k' mod 2 ^ 30 <> hash k mod 2 ^ 30 ->
              lookup k' (kept n r) = lookup k' (leaves n)).
Proof.
  induction n as [bm arr IH|items IH] using node_induction; intros s q k r Hwf Hk Hr.
  - destruct (wf_bitmap_inv _ _ _ _ Hwf) as (H25 & H5 & Hbm & Harr).
    assert (Hq : 0 <= q < 2 ^ Z.of_N s) by (subst q; apply low_range).
    destruct (bitmap_slot s q bm arr (hash k) Hbm Harr)
      as (lo & hi & a1 & Hlo & Hn & Hn0 & Hnlo & Hnhi &
          [(Hbit & Hbp & Hclr & x & y & a2 & -> & Hslot & Hhi)
          |(Hbit & Hbp & Hset & a2 & -> & Hhi)]).
    2:{ rewrite without_bit_unset in Hr by assumption. discriminate Hr. }
    pose proof (lookup_slot s q bm lo hi a1 a2 k Hq Hlo Hhi (in_parts _ _ _ _ Hbp) Hnlo Hnhi)
      as Hmid.
    assert (Hold := leaves_slot bm s q lo a1 x y a2 Hlo).
    rewrite without_bit_set in Hr by assumption.
    (* the slot is removed: its pairs [mid] go, the others stay *)
    assert (Hrm : forall mid r0,
      leaves (BitmapNode bm (a1 ++ x :: y :: a2)) =
        leaves_of leaves a1 ++ mid ++ leaves_of leaves a2 ->
      (if _popcount bm =? 1 then Ok Gone
       else Ok (Node (BitmapNode (Z.land bm (Z.lnot (bitpos s (hash k)))) (a1 ++ a2)))) = Ok r0 ->
      (forall p, In p (kept (BitmapNode bm (a1 ++ x :: y :: a2)) r0) ->
                 In p (leaves (BitmapNode bm (a1 ++ x :: y :: a2)))) /\
      lookup k (kept (BitmapNode bm (a1 ++ x :: y :: a2)) r0) = Raise KeyError /\
      (forall k', lookup k' [] = lookup k' mid ->
                  lookup k' (kept (BitmapNode bm (a1 ++ x :: y :: a2)) r0) =
                  lookup k' (leaves (BitmapNode bm (a1 ++ x :: y :: a2))))).
    { intros mid r0 Hm Hr0. destruct (_popcount bm =? 1) eqn:Ep; injection Hr0 as <-.
      - destruct (single_slot s q bm lo _ hi a1 a2 Hbm Ep Hbp Hlo Hhi) as [-> ->].
        cbn [kept]. split; [intros p []|]. split; [reflexivity|].
        intros k' Hk'. rewrite Hm. cbn [leaves_of app]. rewrite app_nil_r. exact Hk'.
      - cbn [kept]. rewrite (leaves_no_slot _ s q lo a1 a2 Hlo), Hm. split; [|split].
        + intros p Hp. cbn [app] in Hp. apply in_app_or in Hp.
          apply in_or_app. destruct Hp as [Hp|Hp]; [left; exact Hp|right].
          apply in_or_app. right. exact Hp.
        + rewrite Hmid. reflexivity.
        + intros k' Hk'. apply lookup_mid. exact Hk'. }
    destruct (wf_slot_inv _ _ _ _ _ Hslot) as [(k' & v' & -> & -> & Hq' & Hj)|(c & -> & -> & Hc)].
    + rewrite match_key_obj in Hr. rewrite (match_key_obj k' (fun c => leaves c)) in Hold.
      destruct (py_eq (key_obj k') k) eqn:Ek; cbn [negb] in Hr; [|discriminate Hr].
      apply py_eq_key_obj in Ek. subst k'.
      destruct (Hrm _ r Hold Hr) as (H1 & H2 & H3). split; [exact H1|]. split; [exact H2|].
      intros k' Hk'. apply H3. cbn [lookup].
      rewrite (py_eq_other k k'); [reflexivity|]. intros ->. apply Hk'. reflexivity.
    + assert (Hk5 : low (s + 5) (hash k) = q + 2 ^ Z.of_N s * slice s (hash k))
        by (rewrite low_step, Hk; reflexivity).
      destruct (find_without_wf c _ _ (hash k) k Hc) as [[_ E]|(v & r' & _ & E & Hsame & _)];
        rewrite E in Hr; [discriminate Hr|].
      cbn [bind] in Hr.
      destruct (IH c (in_slot _ _ _ _) _ _ k r' Hc Hk5 E) as (I1 & I2 & I3).
      destruct r' as [| |n']; [contradiction| |].
      * destruct (Hrm _ r Hold Hr) as (H1 & H2 & H3). split; [exact H1|]. split; [exact H2|].
        intros k' Hk'. apply H3. exact (I3 k' Hk').
      * injection Hr as <-. cbn [kept] in *.
        rewrite (leaves_slot bm s q lo a1 _ _ a2 Hlo), Hold. split; [|split].
        -- intros p Hp. apply in_app_or in Hp. apply in_or_app.
           destruct Hp as [Hp|Hp]; [left; exact Hp|right].
           apply in_app_or in Hp. apply in_or_app.
           destruct Hp as [Hp|Hp]; [left; exact (I1 p Hp)|right; exact Hp].
        -- rewrite Hmid. exact I2.
        -- intros k' Hk'. apply lookup_mid. exact (I3 k' Hk').
  - destruct (wf_collision_inv _ _ _ Hwf) as (kvs & -> & H25 & H5 & Hnd & Hq).
    cbn [without] in Hr.
    destruct (index_of_flat kvs 0 k) as [[E Hni]|(l1 & v & l2 & -> & Hni & E)];
      rewrite E in Hr; [discriminate Hr|].
    rewrite remove_pair in Hr.
    assert (Hni2 : ~ In k (map fst (l1 ++ l2))).
    { rewrite map_app in Hnd |- *. cbn [map fst] in Hnd.
      apply NoDup_remove_2 in Hnd. exact Hnd. }
    assert (Hframe : forall k', k' <> k ->
              lookup k' (pairs_of (flat (l1 ++ l2))) =
              lookup k' (pairs_of (flat (l1 ++ (k, v) :: l2)))).
    { intros k' Hk'. rewrite !pairs_of_flat, !map_app. cbn [map fst snd].
      apply (lookup_mid k' _ [] [(key_obj k, val_obj v)]). cbn [lookup].
      rewrite (py_eq_other k k') by congruence. reflexivity. }
    assert (Hother : forall k', hash k' mod 2 ^ 30 <> hash k mod 2 ^ 30 ->
              lookup k' (pairs_of (flat (l1 ++ (k, v) :: l2))) = Raise KeyError).
    { intros k' Hk'. rewrite pairs_of_flat. apply lookup_absent. intros Hin.
      apply in_map_iff in Hin. destruct Hin as ([k0 v0] & Ek0 & Hin). cbn [fst] in Ek0. subst k0.
      rewrite Forall_forall in Hq. specialize (Hq _ Hin). cbn [fst] in Hq.
      apply Hk'. apply (low_30 s); [assumption|assumption|]. rewrite Hq, Hk. reflexivity. }
    cbn [leaves]. destruct (_ =? 2); injection Hr as <-; cbn [kept leaves].
    + split; [intros p []|]. split; [reflexivity|].
      intros k' Hk'. rewrite (Hother k' Hk'). reflexivity.
    + split; [|split].
      * intros p. rewrite !pairs_of_flat, !map_app. cbn [map]. intros Hp.
        apply in_app_or in Hp. apply in_or_app.
        destruct Hp as [Hp|Hp]; [left; exact Hp|right; right; exact Hp].
      * rewrite pairs_of_flat. apply lookup_absent. exact Hni2.
      * intros k' Hk'. apply Hframe. intros ->. apply Hk'. reflexivity.
Qed.

(** ** The facade over the leaf pairs *)

Lemma prefix_0 : 0 <= 0 < 2 ^ Z.of_N 0.
Proof. change (2 ^ Z.of_N 0) with 1. lia. Qed.

Lemma getitem_contents c k :
  wf_root (_root c) -> __getitem__ c k = lookup k (contents c).
Proof.
  unfold __getitem__, contents, wf_root. destruct (_root c) as [n|]; [|reflexivity].
  intros Hwf. exact (find_spec n 0 0 k Hwf prefix_0).
Qed.

Lemma contains_contents c k :
  wf_root (_root c) ->
  __contains__ c k = match lookup k (contents c) with Ok _ => Ok true | Raise _ => Ok false end.
Proof.
  unfold __contains__, contents, wf_root. destruct (_root c) as [n|]; [|reflexivity].
  intros Hwf. rewrite (find_spec n 0 0 k Hwf prefix_0).
  destruct (lookup k (leaves n)) as [y|e] eqn:E; [reflexivity|].
  rewrite (lookup_raises _ _ _ E). reflexivity.
Qed.

Lemma get_contents c k d :
  wf_root (_root c) ->
  get c k d = match lookup k (contents c) with Ok y => Ok y | Raise _ => Ok d end.
Proof.
  unfold get, contents, wf_root. destruct (_root c) as [n|]; [|reflexivity].
  intros Hwf. rewrite (find_spec n 0 0 k Hwf prefix_0).
  destruct (lookup k (leaves n)) as [y|e] eqn:E; [reflexivity|].
  rewrite (lookup_raises _ _ _ E). reflexivity.
Qed.

Lemma contents_NoDup c : wf_root (_root c) -> NoDup (map fst (contents c)).
Proof.
  unfold contents, wf_root. destruct (_root c) as [n|]; [|constructor].
  intros Hwf. exact (leaves_NoDup n 0 0 Hwf prefix_0).
Qed.


(** [None] bound to [None] is the pair that [assoc] takes for an empty
    slot. *)
Lemma None_pair c :
  wf_root (_root c) -> __getitem__ c KNone <> Ok ONone -> ~ In (ONone, ONone) (contents c).
Proof.
  intros Hwf Hg Hin. apply Hg. rewrite (getitem_contents c KNone Hwf).
  apply lookup_NoDup; [apply contents_NoDup; exact Hwf|exact Hin].
Qed.

(** What [set] does to the leaf pairs and to the size. *)
Lemma set_contents c k v :
  wf_root (_root c) ->
  exists c', set c k v = Ok c' /\ wf_root (_root c') /\
    (forall k', k' <> k -> lookup k' (contents c') = lookup k' (contents c)) /\
    (~ In (ONone, ONone) (contents c) -> lookup k (contents c') = Ok (val_obj v)) /\
    _size c' = match _root c with
               | None => 1
               | Some _ =>
                   _size c + match lookup k (contents c) with Ok _ => 0 | Raise _ => 1 end
               end.
Proof.
  intros Hwf. destruct (set_wf c k v Hwf) as (c' & Eset & Hwf').
  exists c'. split; [exact Eset|]. split; [exact Hwf'|].
  unfold set, contents in *. destruct (_root c) as [root|].
  - cbn [wf_root] in Hwf.
    destruct (assoc_with_added_wf root k v Hwf) as (r & added & Ea & Eassoc & _ & Hadded).
    rewrite Ea in Eset. cbn [bind] in Eset. injection Eset as <-. cbn [_root _size].
    destruct (assoc_leaves root 0 0 k v r Hwf (low_0 _) Eassoc) as [Hframe Hround].
    split; [exact Hframe|]. split; [exact Hround|].
    rewrite <- (find_spec root 0 0 k Hwf prefix_0).
    destruct (find_wf root 0 0 (hash k) k Hwf) as [E|(v0 & E)]; rewrite E.
    + destruct added; [reflexivity|]. destruct Hadded as [_ H]. discriminate (H E).
    + destruct added; [|reflexivity]. destruct Hadded as [H _].
      rewrite E in H. discriminate (H eq_refl).
  - injection Eset as <-. cbn [_root _size leaves leaves_of].
    rewrite (match_key_obj k (fun c => leaves c)). cbn [app lookup]. split; [|split].
    + intros k' Hk'. rewrite (py_eq_other k k') by congruence. reflexivity.
    + intros _. rewrite py_eq_refl. reflexivity.
    + reflexivity.
Qed.

(** What [delete] does to the leaf pairs. *)
Lemma delete_contents c k c' :
  wf_root (_root c) -> delete c k = Ok c' ->
  wf_root (_root c') /\
  (forall p, In p (contents c') -> In p (contents c)) /\
  lookup k (contents c') = Raise KeyError /\
  (forall k', hash k' mod 2 ^ 30 <> hash k mod 2 ^ 30 ->
              lookup k' (contents c') = lookup k' (contents c)) /\
  _size c' = _size c - 1.
Proof.
  intros Hwf Hd. split; [exact (delete_wf c k c' Hwf Hd)|].
  unfold delete, contents in *. destruct (_root c) as [root|]; [|discriminate Hd].
  cbn [wf_root] in Hwf.
  destruct (without root 0 (hash k) k) as [r|e] eqn:Ew; [|discriminate Hd].
  cbn [bind] in Hd. injection Hd as <-. cbn [_root _size].
  destruct (without_leaves root 0 0 k r Hwf (low_0 _) Ew) as (H1 & H2 & H3).
  destruct (find_without_wf root 0 0 (hash k) k Hwf) as [[_ E]|(v & r' & _ & E & Hsame & _)];
    rewrite E in Ew; [discriminate Ew|]. injection Ew as ->.
  destruct r as [| |n']; [contradiction| |]; cbn [kept] in *; auto.
Qed.

(** ** Iteration *)



(** * More properties of the module *)

(** X1.  On a bitmap, a number from [0] to [2^32 - 1], [_popcount]
    returns the number of bits that are set. *)
Theorem popcount_counts_bits bm :
  0 <= bm < 2 ^ 32 ->
  _popcount bm = Z.of_nat (length (filter (Z.testbit bm) (map Z.of_nat (seq 0 32)))).
Proof.
  intros Hbm. rewrite (popcount_spec bm Hbm). unfold bit_positions.
  with_strategy transparent [positions] (unfold positions). reflexivity.
Qed.

Lemma popcount_counts_bits_witness :
  _popcount 0xF0F00001 =
  Z.of_nat (length (filter (Z.testbit 0xF0F00001) (map Z.of_nat (seq 0 32)))).
Proof. apply (popcount_counts_bits 0xF0F00001). split; [discriminate|reflexivity]. Defined.

Lemma fold_raise (kvs : list (key * value)) e :
  fold_left (fun r kv => c <- r ;; set c (fst kv) (snd kv)) kvs (Raise e) = Raise e.
Proof. induction kvs as [|kv kvs IH]; [reflexivity|exact IH]. Qed.

Lemma init_loop_set_all items : forall c,
  (_root c = None -> _size c = 0) -> init_loop items c = set_all items c.
Proof.
  unfold set_all. induction items as [|[k v] items IH]; intros c Hc; [reflexivity|].
  cbn [init_loop fold_left bind fst snd]. unfold set at 2.
  destruct (_root c) as [root|] eqn:Er.
  - destruct (_assoc_with_added (Some root) 0 (hash k) k v) as [[r added]|e];
      cbn [bind]; [|symmetry; apply fold_raise].
    rewrite IH by (cbn [_root]; destruct r; discriminate).
    f_equal. f_equal. destruct r, added; cbn [resolve_root resolve]; f_equal; lia.
  - cbn [_assoc_with_added bind]. rewrite IH by (cbn [_root resolve_root]; discriminate).
    unfold bitpos. rewrite slice_0, (Hc eq_refl). reflexivity.
Qed.

(** X2.  [HAMT(items)] builds the container that the chain
    [HAMT().set(k1, v1)....set(kn, vn)] over the pairs of [items] builds:
    the same root, the same size, and where a [set] of the chain raises,
    the constructor raises the same. *)
Theorem init_is_set_all items : __init__ items = set_all items empty.
Proof.
  unfold __init__. destruct items as [|kv items]; [reflexivity|].
  apply init_loop_set_all. reflexivity.
Qed.



(** X4.  On a reachable container, [c.set(k, v)] leaves every other key
    as it was: for [k'] that is not [k], [c2[k']], [k' in c2] and
    [c2.get(k', d)] return what they return on [c]. *)
Theorem set_keeps_other_keys c k v k' :
  reachable c -> k' <> k ->
  exists c', set c k v = Ok c' /\
    __getitem__ c' k' = __getitem__ c k' /\
    __contains__ c' k' = __contains__ c k' /\
    forall d, get c' k' d = get c k' d.
Proof.
  intros Hc Hk'. pose proof (reachable_wf c Hc) as Hwf.
  destruct (set_contents c k v Hwf) as (c' & Eset & Hwf' & Hframe & _).
  exists c'. split; [exact Eset|].
  rewrite (getitem_contents c' k' Hwf'), (contains_contents c' k' Hwf'),
    (getitem_contents c k' Hwf), (contains_contents c k' Hwf), (Hframe k' Hk').
  repeat split. intros d.
  rewrite (get_contents c' k' d Hwf'), (get_contents c k' d Hwf), (Hframe k' Hk'). reflexivity.
Qed.

Lemma set_keeps_other_keys_witness :
  exists c', set (mkHAMT (Some (BitmapNode 2 [OKey 1 1; OVal 7])) 1) (KObj 33 2) (VObj 8) = Ok c' /\
    __getitem__ c' (KObj 1 1) =
      __getitem__ (mkHAMT (Some (BitmapNode 2 [OKey 1 1; OVal 7])) 1) (KObj 1 1) /\
    __contains__ c' (KObj 1 1) =
      __contains__ (mkHAMT (Some (BitmapNode 2 [OKey 1 1; OVal 7])) 1) (KObj 1 1) /\
    forall d, get c' (KObj 1 1) d =
              get (mkHAMT (Some (BitmapNode 2 [OKey 1 1; OVal 7])) 1) (KObj 1 1) d.
Proof.
  apply (set_keeps_other_keys (mkHAMT (Some (BitmapNode 2 [OKey 1 1; OVal 7])) 1)
           (KObj 33 2) (VObj 8) (KObj 1 1)).
  - apply (reachable_set empty (KObj 1 1) (VObj 7)); [constructor|reflexivity].
  - discriminate.
Defined.

(** X5.  The size of [c.set(k, v)], on a reachable container: the size of
    [c] where [k in c] holds; the size of [c] plus one where it does not
    and [c] has a root; and one where [c] has no root, whatever the size
    of [c] is. *)
Theorem set_size c k v :
  reachable c ->
  exists c', set c k v = Ok c' /\
    (__contains__ c k = Ok true -> __len__ c' = __len__ c) /\
    (__contains__ c k = Ok false -> _root c <> None -> __len__ c' = __len__ c + 1) /\
    (_root c = None -> __len__ c' = 1).
Proof.
  intros Hc. pose proof (reachable_wf c Hc) as Hwf.
  destruct (set_contents c k v Hwf) as (c' & Eset & _ & _ & _ & Hsize).
  exists c'. split; [exact Eset|]. rewrite (contains_contents c k Hwf).
  unfold __len__, contents. rewrite Hsize. unfold contents. destruct (_root c) as [root|].
  - destruct (lookup k (leaves root)); repeat split; intros; try discriminate; try lia.
  - cbn [lookup]. repeat split; intros; try reflexivity; try discriminate; congruence.
Qed.

Lemma set_size_witness :
  exists c', set (mkHAMT (Some (BitmapNode 2 [OKey 1 1; OVal 7])) 1) (KObj 33 2) (VObj 8) = Ok c' /\
    (__contains__ (mkHAMT (Some (BitmapNode 2 [OKey 1 1; OVal 7])) 1) (KObj 33 2) = Ok true ->
     __len__ c' = __len__ (mkHAMT (Some (BitmapNode 2 [OKey 1 1; OVal 7])) 1)) /\
    (__contains__ (mkHAMT (Some (BitmapNode 2 [OKey 1 1; OVal 7])) 1) (KObj 33 2) = Ok false ->
     _root (mkHAMT (Some (BitmapNode 2 [OKey 1 1; OVal 7])) 1) <> None ->
     __len__ c' = __len__ (mkHAMT (Some (BitmapNode 2 [OKey 1 1; OVal 7])) 1) + 1) /\
    (_root (mkHAMT (Some (BitmapNode 2 [OKey 1 1; OVal 7])) 1) = None -> __len__ c' = 1).
Proof.
  apply (set_size (mkHAMT (Some (BitmapNode 2 [OKey 1 1; OVal 7])) 1) (KObj 33 2) (VObj 8)).
  apply (reachable_set empty (KObj 1 1) (VObj 7)); [constructor|reflexivity].
Defined.

(** X6.  On a reachable container, where [c.delete(k)] returns a
    container the key is gone from it: [k in c2] is false, [c2[k]] and
    [c2.delete(k)] raise [KeyError], [c2.get(k, d)] is [d]; and the size
    is the size of [c] less one. *)
Theorem delete_removes_key c k c' :
  reachable c -> delete c k = Ok c' ->
  __contains__ c' k = Ok false /\
  __getitem__ c' k = Raise KeyError /\
  (forall d, get c' k d = Ok d) /\
  delete c' k = Raise KeyError /\
  __len__ c' = __len__ c - 1.
Proof.
  intros Hc Hd. pose proof (reachable_wf c Hc) as Hwf.
  destruct (delete_contents c k c' Hwf Hd) as (Hwf' & _ & Hgone & _ & Hsize).
  assert (Hg : __getitem__ c' k = Raise KeyError)
    by (rewrite (getitem_contents c' k Hwf'); exact Hgone).
  rewrite (contains_contents c' k Hwf'), Hgone. split; [reflexivity|]. split; [exact Hg|].
  split; [intros d; rewrite (get_contents c' k d Hwf'), Hgone; reflexivity|].
  split; [|exact Hsize].
  unfold __getitem__, delete, wf_root in *. destruct (_root c') as [n|]; [|reflexivity].
  destruct (find_without_wf n 0 0 (hash k) k Hwf') as [[_ E]|(v & r & E & _)].
  - rewrite E. reflexivity.
  - rewrite E in Hg. discriminate Hg.
Qed.

Lemma delete_removes_key_witness :
  __contains__ (mkHAMT (Some (BitmapNode 4 [OKey 2 2; OVal 8])) 1) (KObj 1 1) = Ok false /\
  __getitem__ (mkHAMT (Some (BitmapNode 4 [OKey 2 2; OVal 8])) 1) (KObj 1 1) = Raise KeyError /\
  (forall d, get (mkHAMT (Some (BitmapNode 4 [OKey 2 2; OVal 8])) 1) (KObj 1 1) d = Ok d) /\
  delete (mkHAMT (Some (BitmapNode 4 [OKey 2 2; OVal 8])) 1) (KObj 1 1) = Raise KeyError /\
  __len__ (mkHAMT (Some (BitmapNode 4 [OKey 2 2; OVal 8])) 1) =
  __len__ (mkHAMT (Some (BitmapNode 6 [OKey 1 1; OVal 7; OKey 2 2; OVal 8])) 2) - 1.
Proof.
  apply (delete_removes_key
           (mkHAMT (Some (BitmapNode 6 [OKey 1 1; OVal 7; OKey 2 2; OVal 8])) 2) (KObj 1 1)).
  - apply (reachable_set (mkHAMT (Some (BitmapNode 2 [OKey 1 1; OVal 7])) 1)
             (KObj 2 2) (VObj 8));
      [apply (reachable_set empty (KObj 1 1) (VObj 7)); [constructor|reflexivity]|].
    vm_compute. reflexivity.
  - vm_compute. reflexivity.
Defined.

(** X7.  On a reachable container, [c.delete(k)] binds nothing anew: a
    key that [c2] binds to a value is bound to that value in [c]. *)
Theorem delete_adds_nothing c k c' k' y :
  reachable c -> delete c k = Ok c' ->
  __getitem__ c' k' = Ok y -> __getitem__ c k' = Ok y.
Proof.
  intros Hc Hd. pose proof (reachable_wf c Hc) as Hwf.
  destruct (delete_contents c k c' Hwf Hd) as (Hwf' & Hincl & _).
  rewrite (getitem_contents c' k' Hwf'), (getitem_contents c k' Hwf). intros Hl.
  apply lookup_NoDup; [apply contents_NoDup; exact Hwf|].
  apply Hincl. apply lookup_In. exact Hl.
Qed.

Lemma delete_adds_nothing_witness :
  __getitem__ (mkHAMT (Some (BitmapNode 6 [OKey 1 1; OVal 7; OKey 2 2; OVal 8])) 2) (KObj 2 2)
  = Ok (OVal 8).
Proof.
  apply (delete_adds_nothing
           (mkHAMT (Some (BitmapNode 6 [OKey 1 1; OVal 7; OKey 2 2; OVal 8])) 2) (KObj 1 1)
           (mkHAMT (Some (BitmapNode 4 [OKey 2 2; OVal 8])) 1) (KObj 2 2) (OVal 8)).
  - apply (reachable_set (mkHAMT (Some (BitmapNode 2 [OKey 1 1; OVal 7])) 1)
             (KObj 2 2) (VObj 8));
      [apply (reachable_set empty (KObj 1 1) (VObj 7)); [constructor|reflexivity]|].
    vm_compute. reflexivity.
  - vm_compute. reflexivity.
  - vm_compute. reflexivity.
Defined.

(** X8.  On a reachable container, [c.delete(k)] leaves every key as it
    was whose hash differs from the hash of [k] in its 30 low bits:
    [c2[k']], [k' in c2] and [c2.get(k', d)] return what they return on
    [c]. *)
Theorem delete_keeps_other_hashes c k c' k' :
  reachable c -> delete c k = Ok c' ->
  hash k' mod 2 ^ 30 <> hash k mod 2 ^ 30 ->
  __getitem__ c' k' = __getitem__ c k' /\
  __contains__ c' k' = __contains__ c k' /\
  forall d, get c' k' d = get c k' d.
Proof.
  intros Hc Hd Hk'. pose proof (reachable_wf c Hc) as Hwf.
  destruct (delete_contents c k c' Hwf Hd) as (Hwf' & _ & _ & Hframe & _).
  rewrite (getitem_contents c' k' Hwf'), (contains_contents c' k' Hwf'),
    (getitem_contents c k' Hwf), (contains_contents c k' Hwf), (Hframe k' Hk').
  repeat split. intros d.
  rewrite (get_contents c' k' d Hwf'), (get_contents c k' d Hwf), (Hframe k' Hk'). reflexivity.
Qed.

Lemma delete_keeps_other_hashes_witness :
  __getitem__ (mkHAMT (Some (BitmapNode 4 [OKey 2 2; OVal 8])) 1) (KObj 2 2) =
    __getitem__ (mkHAMT (Some (BitmapNode 6 [OKey 1 1; OVal 7; OKey 2 2; OVal 8])) 2) (KObj 2 2) /\
  __contains__ (mkHAMT (Some (BitmapNode 4 [OKey 2 2; OVal 8])) 1) (KObj 2 2) =
    __contains__ (mkHAMT (Some (BitmapNode 6 [OKey 1 1; OVal 7; OKey 2 2; OVal 8])) 2) (KObj 2 2) /\
  forall d, get (mkHAMT (Some (BitmapNode 4 [OKey 2 2; OVal 8])) 1) (KObj 2 2) d =
            get (mkHAMT (Some (BitmapNode 6 [OKey 1 1; OVal 7; OKey 2 2; OVal 8])) 2) (KObj 2 2) d.
Proof.
  apply (delete_keeps_other_hashes
           (mkHAMT (Some (BitmapNode 6 [OKey 1 1; OVal 7; OKey 2 2; OVal 8])) 2) (KObj 1 1)
           (mkHAMT (Some (BitmapNode 4 [OKey 2 2; OVal 8])) 1) (KObj 2 2)).
  - apply (reachable_set (mkHAMT (Some (BitmapNode 2 [OKey 1 1; OVal 7])) 1)
             (KObj 2 2) (VObj 8));
      [apply (reachable_set empty (KObj 1 1) (VObj 7)); [constructor|reflexivity]|].
    vm_compute. reflexivity.
  - vm_compute. reflexivity.
  - vm_compute. discriminate.
Defined.





(** ** The views and equality *)









(** ** Reading the store *)

Section Pure.
(** Statements that leave the store as they found it. *)

Lemma bind_pure {A B} (m : Store.M A) (f : A -> Store.M B) st :
  (forall st0, snd (m st0) = st0) -> (forall a st0, snd (f a st0) = st0) ->
  snd (Store.bind m f st) = st.
Proof.
  intros Hm Hf. unfold Store.bind. specialize (Hm st).
  destruct (m st) as [[a|e] st']; cbn [snd] in Hm; subst st'; [apply Hf|reflexivity].
Qed.

Lemma load_pure a st : snd (Store.load a st) = st.
Proof. unfold Store.load. destruct (nth_error st a); reflexivity. Qed.

Lemma items_of_pure a st : snd (Store.items_of a st) = st.
Proof.
  unfold Store.items_of. apply bind_pure; [apply load_pure|].
  intros o st0. destruct o; reflexivity.
Qed.

Lemma getitem_pure a i st : snd (Store.getitem a i st) = st.
Proof.
  unfold Store.getitem. apply bind_pure; [intros; apply items_of_pure|].
  intros l st0. destruct (nth_error l (Z.to_nat i)); reflexivity.
Qed.

Lemma fields_pure a st : snd (Store.fields a st) = st.
Proof.
  unfold Store.fields. apply bind_pure; [apply load_pure|].
  intros o st0. destruct o; reflexivity.
Qed.

Lemma find_pure d : forall a s h k st, snd (Store.find d a s h k st) = st.
Proof.
  induction d as [|d IH]; intros a s h k st; [reflexivity|].
  cbn [Store.find]. apply bind_pure; [apply load_pure|].
  intros o st0. destruct o as [l|bm array|items|root size]; try reflexivity.
  - cbv zeta. destruct (Z.land bm (bitpos s h) =? 0); [reflexivity|].
    apply bind_pure; [intros; apply getitem_pure|].
    intros x st1. destruct x as [|hk ik|iv|n].
    + apply bind_pure; [intros; apply getitem_pure|]. intros y st2.
      apply bind_pure; [intros; apply getitem_pure|]. intros z st3.
      destruct (Store.py_eq y k); reflexivity.
    + destruct (Store.py_eq (Store.PKey hk ik) k); [apply getitem_pure|reflexivity].
    + destruct (Store.py_eq (Store.PVal iv) k); [apply getitem_pure|reflexivity].
    + apply IH.
  - apply bind_pure; [intros; apply items_of_pure|].
    intros l st1. destruct (Store.index_of l 0 k); [apply getitem_pure|reflexivity].
Qed.

Lemma iter_pure d : forall a st, snd (Store.iter d a st) = st.
Proof.
  induction d as [|d IH]; intros a st; [reflexivity|].
  cbn [Store.iter]. apply bind_pure; [apply load_pure|].
  intros o st0. destruct o as [l|bm array|items|root size]; try reflexivity.
  - apply bind_pure; [intros; apply items_of_pure|]. intros l st1.
    assert (Hlen : (length l <= length l)%nat) by lia.
    revert Hlen. generalize (length l) at 2 as m. intros m. revert l st1.
    induction m as [|m IHm]; intros l st1 Hlen.
    + destruct l; [reflexivity|simpl in Hlen; lia].
    + destruct l as [|x [|y l]]; [reflexivity|reflexivity|].
      apply bind_pure.
      * intros st2. destruct x; try reflexivity. apply IH.
      * intros ks st2. apply bind_pure; [|reflexivity].
        intros st3. apply IHm. simpl in Hlen. lia.
  - apply bind_pure; [intros; apply items_of_pure|]. reflexivity.
Qed.
End Pure.

(** X12.  The lookups and the iteration write nothing and create nothing:
    in every store, [len(c)], [c[k]], [c.get(k, d)], [k in c] and
    [list(c)] on every object leave the store as it was. *)
Theorem observations_read_only st a k d :
  snd (Store.__len__ a st) = st /\
  snd (Store.__getitem__ a k st) = st /\
  snd (Store.get a k d st) = st /\
  snd (Store.__contains__ a k st) = st /\
  snd (Store.__iter__ a st) = st.
Proof.
  unfold Store.__len__, Store.__getitem__, Store.get, Store.__contains__, Store.__iter__.
  repeat split; (apply bind_pure; [apply fields_pure|]); intros [root size] st0; cbn [fst snd];
    try reflexivity; destruct root as [| | |r]; try reflexivity.
  - apply find_pure.
  - pose proof (find_pure recursion_limit r 0 (hash k) k st0) as H.
    destruct (Store.find recursion_limit r 0 (hash k) k st0) as [[x|[]] st1]; exact H.
  - pose proof (find_pure recursion_limit r 0 (hash k) k st0) as H.
    destruct (Store.find recursion_limit r 0 (hash k) k st0) as [[x|[]] st1]; exact H.
  - apply iter_pure.
Qed.

(** ** The depth of a reachable trie *)

Lemma wf_root_height n : wf 0 0 n -> (height n <= 7)%nat.
Proof.
  intros H. pose proof (wf_height n 0 0 H) as Hh. destruct n as [bm arr|items].
  - cbv beta iota in Hh. change (N.to_nat (0 / 5)) with 0%nat in Hh. lia.
  - inversion H; subst. lia.
Qed.

Lemma reads_same {st} (x x' : result Store.pyval * Store.store) r :
  Store.reads (Store.repr_val st) st x r -> Store.reads (Store.repr_val st) st x' r ->
  (forall o, r = Ok o -> forall c, o <> ONode c) -> x = x'.
Proof.
  intros H H' Hr. destruct r as [o|e]; cbn [Store.reads] in *; [|congruence].
  destruct H as (p & -> & Hp), H' as (p' & -> & Hp').
  rewrite (repr_val_atom st st p p' o (Hr o eq_refl) Hp Hp'). reflexivity.
Qed.

(** X13.  In a store a program builds, a lookup in a container nests at
    most seven calls of [find], and the iteration over it seven calls of
    [__iter__]: with room for seven calls they return what they return
    with the room the interpreter gives. *)
Theorem lookup_depth st a r size k d :
  Store.reachable st -> nth_error st a = Some (Store.Hamt (Store.PRef r) size) ->
  (7 <= d)%nat ->
  Store.find d r 0 (hash k) k st = Store.find recursion_limit r 0 (hash k) k st /\
  Store.iter d r st = Store.iter recursion_limit r st.
Proof.
  intros Hst Ha Hd. destruct (reachable_consistent st Hst _ _ _ Ha) as (c & Hrc & Hc).
  pose proof (reachable_wf c Hc) as Hwf. destruct Hrc as (root & Ha' & Hroot).
  rewrite Ha in Ha'. injection Ha' as <- _.
  destruct (_root c) as [n|]; [|discriminate Hroot].
  destruct Hroot as (r' & E & Hr). injection E as <-. cbn [wf_root] in Hwf.
  pose proof (wf_root_height n Hwf) as H7.
  assert (Hd' : (height n <= d)%nat) by lia.
  pose proof (wf_height_limit n 0 0 Hwf) as Hlim. split.
  - apply (@reads_same st _ _ (find n 0 (hash k) k));
      [apply find_refines; assumption|apply find_refines; assumption|].
    intros o Ho c'. destruct (find_wf n 0 0 (hash k) k Hwf) as [E|(v & E)];
      rewrite E in Ho; [discriminate Ho|]. injection Ho as <-. apply val_obj_atom.
  - pose proof (iter_refines n st r d Hr Hd') as H1.
    pose proof (iter_refines n st r recursion_limit Hr Hlim) as H2.
    destruct (iter_wf n 0 0 Hwf) as (ks & E & Hks). rewrite E in H1, H2.
    destruct H1 as (p1 & -> & Hp1), H2 as (p2 & -> & Hp2).
    rewrite (related_atoms st st p1 p2 ks Hks Hp1 Hp2). reflexivity.
Qed.

Lemma lookup_depth_witness :
  Store.find 7 3 0 (hash (KObj 33 2)) (KObj 33 2)
    (snd (Store.set 0 (KObj 1 1) (VObj 7) (snd (Store.new [])))) =
  Store.find recursion_limit 3 0 (hash (KObj 33 2)) (KObj 33 2)
    (snd (Store.set 0 (KObj 1 1) (VObj 7) (snd (Store.new [])))) /\
  Store.iter 7 3 (snd (Store.set 0 (KObj 1 1) (VObj 7) (snd (Store.new [])))) =
  Store.iter recursion_limit 3 (snd (Store.set 0 (KObj 1 1) (VObj 7) (snd (Store.new [])))).
Proof.
  apply (lookup_depth (snd (Store.set 0 (KObj 1 1) (VObj 7) (snd (Store.new [])))) 1 3 1
           (KObj 33 2) 7).
  - apply (Store.reachable_set (snd (Store.new [])) 0 (KObj 1 1) (VObj 7)).
    + apply (Store.reachable_new []). apply Store.reachable_start.
    + apply Nat.ltb_lt. vm_compute. reflexivity.
  - vm_compute. reflexivity.
  - apply Nat.leb_le. reflexivity.
Defined.

(** ** The container that [set] and [delete] create *)

(** X14.  In a store a program builds, [c.set(k, v)] on a container
    returns a container that the call created, not [c], also where
    nothing changes; its content is the content that [set] computes on
    the content of [c]. *)
Theorem set_returns_new st a root size k v :
  Store.reachable st -> nth_error st a = Some (Store.Hamt root size) ->
  exists c c',
    Store.repr_hamt st a c /\ reachable c /\ set c k v = Ok c' /\
    fst (Store.set a k v st) = Ok (length st) /\
    nth_error st (length st) = None /\
    Store.repr_hamt (snd (Store.set a k v st)) (length st) c'.
Proof.
  intros Hst Ha. destruct (reachable_consistent st Hst _ _ _ Ha) as (c & Hrc & Hc).
  destruct (set_refines st a c k v Hrc (reachable_wf c Hc)) as (c' & r & e & Eset & Es & _ & Hr).
  exists c, c'. rewrite Es. cbn [fst snd].
  repeat split; try assumption. apply nth_error_None. lia.
Qed.

Lemma set_returns_new_witness :
  exists c c',
    Store.repr_hamt (snd (Store.set 0 (KObj 1 1) (VObj 7) (snd (Store.new [])))) 1 c /\
    reachable c /\ set c (KObj 33 2) (VObj 8) = Ok c' /\
    fst (Store.set 1 (KObj 33 2) (VObj 8)
           (snd (Store.set 0 (KObj 1 1) (VObj 7) (snd (Store.new []))))) =
      Ok (length (snd (Store.set 0 (KObj 1 1) (VObj 7) (snd (Store.new []))))) /\
    nth_error (snd (Store.set 0 (KObj 1 1) (VObj 7) (snd (Store.new []))))
      (length (snd (Store.set 0 (KObj 1 1) (VObj 7) (snd (Store.new []))))) = None /\
    Store.repr_hamt
      (snd (Store.set 1 (KObj 33 2) (VObj 8)
              (snd (Store.set 0 (KObj 1 1) (VObj 7) (snd (Store.new []))))))
      (length (snd (Store.set 0 (KObj 1 1) (VObj 7) (snd (Store.new []))))) c'.
Proof.
  apply (set_returns_new (snd (Store.set 0 (KObj 1 1) (VObj 7) (snd (Store.new [])))) 1
           (Store.PRef 3) 1 (KObj 33 2) (VObj 8)).
  - apply (Store.reachable_set (snd (Store.new [])) 0 (KObj 1 1) (VObj 7)).
    + apply (Store.reachable_new []). apply Store.reachable_start.
    + apply Nat.ltb_lt. vm_compute. reflexivity.
  - vm_compute. reflexivity.
Defined.

(** X15.  In a store a program builds, [c.delete(k)] on a container
    either raises [KeyError] and leaves the store as it was, or returns a
    container that the call created, whose content is the content that
    [delete] computes on the content of [c]. *)
Theorem delete_returns_new st a root size k :
  Store.reachable st -> nth_error st a = Some (Store.Hamt root size) ->
  exists c,
    Store.repr_hamt st a c /\ reachable c /\
    match delete c k with
    | Ok c' =>
        exists a', fst (Store.delete a k st) = Ok a' /\ nth_error st a' = None /\
                   Store.repr_hamt (snd (Store.delete a k st)) a' c'
    | Raise e => e = KeyError /\ Store.delete a k st = (Raise KeyError, st)
    end.
Proof.
  intros Hst Ha. destruct (reachable_consistent st Hst _ _ _ Ha) as (c & Hrc & Hc).
  pose proof (reachable_wf c Hc) as Hwf.
  pose proof (delete_refines st a c k Hrc Hwf) as Hd.
  exists c. split; [exact Hrc|]. split; [exact Hc|].
  destruct (delete c k) as [c'|e] eqn:Ed.
  - destruct Hd as (r & e & Es & _ & Hr). exists (length (st ++ e)). rewrite Es. cbn [fst snd].
    repeat split; [|exact Hr]. apply nth_error_None. rewrite length_app. lia.
  - assert (e = KeyError); [|subst e; split; [reflexivity|exact Hd]].
    unfold delete, wf_root in *. destruct (_root c) as [n|]; [|congruence].
    destruct (find_without_wf n 0 0 (hash k) k Hwf) as [[_ E]|(v & r & _ & E & _)];
      rewrite E in Ed; cbn [bind] in Ed; congruence.
Qed.

Lemma delete_returns_new_witness :
  exists c,
    Store.repr_hamt (snd (Store.set 0 (KObj 1 1) (VObj 7) (snd (Store.new [])))) 1 c /\
    reachable c /\
    match delete c (KObj 1 1) with
    | Ok c' =>
        exists a',
          fst (Store.delete 1 (KObj 1 1)
                 (snd (Store.set 0 (KObj 1 1) (VObj 7) (snd (Store.new []))))) = Ok a' /\
          nth_error (snd (Store.set 0 (KObj 1 1) (VObj 7) (snd (Store.new [])))) a' = None /\
          Store.repr_hamt
            (snd (Store.delete 1 (KObj 1 1)
                    (snd (Store.set 0 (KObj 1 1) (VObj 7) (snd (Store.new [])))))) a' c'
    | Raise e =>
        e = KeyError /\
        Store.delete 1 (KObj 1 1) (snd (Store.set 0 (KObj 1 1) (VObj 7) (snd (Store.new [])))) =
        (Raise KeyError, snd (Store.set 0 (KObj 1 1) (VObj 7) (snd (Store.new []))))
    end.
Proof.
  apply (delete_returns_new (snd (Store.set 0 (KObj 1 1) (VObj 7) (snd (Store.new [])))) 1
           (Store.PRef 3) 1 (KObj 1 1)).
  - apply (Store.reachable_set (snd (Store.new [])) 0 (KObj 1 1) (VObj 7)).
    + apply (Store.reachable_new []). apply Store.reachable_start.
    + apply Nat.ltb_lt. vm_compute. reflexivity.
  - vm_compute. reflexivity.
Defined.

(** ** The nodes of a reachable trie *)

Lemma in_nodes_of m arr :
  In m (nodes_of subnodes arr) -> exists c, In (ONode c) arr /\ In m (subnodes c).
Proof.
  induction arr as [|x arr IH]; cbn [nodes_of]; [intros []|].
  intros H. apply in_app_or in H. destruct H as [H|H].
  - destruct x as [| | |c]; try destruct H. exists c. split; [left; reflexivity|exact H].
  - destruct (IH H) as (c & Hc & Hm). exists c. split; [right; exact Hc|exact Hm].
Qed.

Lemma subnodes_wf n : forall s q m, wf s q n -> In m (subnodes n) -> exists s' q', wf s' q' m.
Proof.
  induction n as [bm arr IH|items IH] using node_induction; intros s q m Hwf Hin.
  - destruct Hin as [<-|Hin]; [eauto|].
    destruct (wf_bitmap_inv _ _ _ _ Hwf) as (_ & _ & _ & Harr).
    destruct (in_nodes_of m arr Hin) as (c & Hc & Hm).
    destruct (wf_array_child _ _ _ _ _ Harr Hc) as (q' & Hwc).
    exact (IH c Hc _ _ m Hwc Hm).
  - destruct Hin as [<-|[]]. eauto.
Qed.

(** X16.  In a reachable container, every bitmap node has a bitmap from
    [0] to [2^32 - 1], and an array of two entries for each bit that is
    set: a key with its value, or a node with [None]. *)
Theorem bitmap_arrays c root bm arr :
  reachable c -> _root c = Some root -> In (BitmapNode bm arr) (subnodes root) ->
  0 <= bm < 2 ^ 32 /\
  Z.of_nat (length arr) = 2 * _popcount bm /\
  forall i x y, nth_error arr (2 * i) = Some x -> nth_error arr (2 * i + 1) = Some y ->
    (exists k v, x = key_obj k /\ y = val_obj v) \/ (exists n, x = ONode n /\ y = ONone).
Proof.
  intros Hc Hroot Hin. pose proof (reachable_wf c Hc) as Hwf. rewrite Hroot in Hwf.
  destruct (subnodes_wf root 0 0 _ Hwf Hin) as (s & q & Hm).
  destruct (wf_bitmap_inv _ _ _ _ Hm) as (_ & _ & Hbm & Harr).
  split; [exact Hbm|]. split.
  - rewrite (popcount_spec bm Hbm), (wf_array_length _ _ _ _ Harr). lia.
  - clear Hin Hm. revert Harr. generalize (bit_positions bm) as js. intros js Harr.
    induction Harr as [|s q j js x0 y0 arr Hs _ IH]; intros i x y Hx Hy.
    + destruct i; discriminate Hx.
    + destruct i as [|i].
      * cbn in Hx, Hy. injection Hx as <-. injection Hy as <-.
        destruct (wf_slot_inv _ _ _ _ _ Hs) as [(k & v & -> & -> & _)|(n & -> & -> & _)];
          [left|right]; eauto.
      * replace (2 * S i)%nat with (S (S (2 * i))) in Hx by lia.
        replace (2 * S i + 1)%nat with (S (S (2 * i + 1))) in Hy by lia.
        exact (IH i x y Hx Hy).
Qed.

Lemma bitmap_arrays_witness :
  0 <= 2 < 2 ^ 32 /\
  Z.of_nat (length [OKey 1 1; OVal 7]) = 2 * _popcount 2 /\
  forall i x y, nth_error [OKey 1 1; OVal 7] (2 * i) = Some x ->
    nth_error [OKey 1 1; OVal 7] (2 * i + 1) = Some y ->
    (exists k v, x = key_obj k /\ y = val_obj v) \/ (exists n, x = ONode n /\ y = ONone).
Proof.
  apply (bitmap_arrays (mkHAMT (Some (BitmapNode 2 [OKey 1 1; OVal 7])) 1)
           (BitmapNode 2 [OKey 1 1; OVal 7])).
  - apply (reachable_set empty (KObj 1 1) (VObj 7)); [constructor|reflexivity].
  - reflexivity.
  - left. reflexivity.
Defined.



(** ** Chains of [set] and [delete] *)

(** [set] on a container that does not hold [None] bound to [None]. *)
Lemma set_spec c k v :
  wf_root (_root c) -> ~ In (ONone, ONone) (contents c) ->
  exists c', set c k v = Ok c' /\ wf_root (_root c') /\ _root c' <> None /\
    (forall k', lookup k' (contents c') =
                if py_eq (key_obj k) k' then Ok (val_obj v) else lookup k' (contents c)) /\
    ((k, v) <> (KNone, VNone) -> ~ In (ONone, ONone) (contents c')) /\
    _size c' = match _root c with
               | None => 1
               | Some _ =>
                   _size c + match lookup k (contents c) with Ok _ => 0 | Raise _ => 1 end
               end.
Proof.
  intros Hwf Hnone.
  destruct (set_contents c k v Hwf) as (c' & Eset & Hwf' & Hframe & Hround & Hsize).
  exists c'. split; [exact Eset|]. split; [exact Hwf'|].
  assert (Hl : forall k', lookup k' (contents c') =
             if py_eq (key_obj k) k' then Ok (val_obj v) else lookup k' (contents c)).
  { intros k'. destruct (py_eq (key_obj k) k') eqn:E.
    - apply py_eq_key_obj in E. subst k'. exact (Hround Hnone).
    - apply Hframe. intros ->. rewrite py_eq_refl in E. discriminate E. }
  split; [|split; [exact Hl|split; [|exact Hsize]]].
  - unfold set in Eset. destruct (_root c) as [root|].
    + destruct (_assoc_with_added (Some root) 0 (hash k) k v) as [[r added]|e];
        [|discriminate Eset]. cbn [bind] in Eset. injection Eset as <-. discriminate.
    + injection Eset as <-. discriminate.
  - intros Hkv Hin. pose proof (lookup_NoDup KNone _ ONone (contents_NoDup c' Hwf') Hin) as E.
    rewrite Hl in E. destruct (py_eq (key_obj k) KNone) eqn:Ek.
    + apply py_eq_key_obj in Ek. subst k. injection E as E.
      apply Hkv. f_equal. destruct v; [reflexivity|discriminate E].
    + apply Hnone. exact (lookup_In _ _ _ E).
Qed.








(** X21.  Two [set]s of different keys commute: on a reachable container
    in which [None] is not bound to [None], and for pairs that are not
    [None] with [None], [c.set(k1, v1).set(k2, v2)] and
    [c.set(k2, v2).set(k1, v1)] have the same size and bind every key
    alike. *)
Theorem sets_commute c k1 v1 k2 v2 :
  reachable c -> __getitem__ c KNone <> Ok ONone -> k1 <> k2 ->
  (k1, v1) <> (KNone, VNone) -> (k2, v2) <> (KNone, VNone) ->
  exists c12 c21,
    set_all [(k1, v1); (k2, v2)] c = Ok c12 /\
    set_all [(k2, v2); (k1, v1)] c = Ok c21 /\
    __len__ c12 = __len__ c21 /\
    forall k, __getitem__ c12 k = __getitem__ c21 k.
Proof.
  intros Hc Hnone Hne Hkv1 Hkv2. pose proof (reachable_wf c Hc) as Hwf.
  pose proof (None_pair c Hwf Hnone) as Hn.
  destruct (set_spec c k1 v1 Hwf Hn) as (c1 & E1 & Hwf1 & Hroot1 & Hl1 & Hn1 & Hs1).
  destruct (set_spec c1 k2 v2 Hwf1 (Hn1 Hkv1)) as (c12 & E12 & Hwf12 & _ & Hl12 & _ & Hs12).
  destruct (set_spec c k2 v2 Hwf Hn) as (c2 & E2 & Hwf2 & Hroot2 & Hl2 & Hn2 & Hs2).
  destruct (set_spec c2 k1 v1 Hwf2 (Hn2 Hkv2)) as (c21 & E21 & Hwf21 & _ & Hl21 & _ & Hs21).
  exists c12, c21. unfold set_all. cbn [fold_left bind fst snd].
  rewrite E1, E2. cbn [bind]. split; [exact E12|]. split; [exact E21|]. split.
  - unfold __len__. rewrite Hs12, Hs21, Hs1, Hs2, (Hl1 k2), (Hl2 k1).
    rewrite (py_eq_other k1 k2 Hne), (py_eq_other k2 k1) by congruence.
    destruct (_root c1); [|contradiction]. destruct (_root c2); [|contradiction].
    unfold contents. destruct (_root c); [|cbn [lookup]; lia].
    destruct (lookup k1 _), (lookup k2 _); lia.
  - intros k. rewrite (getitem_contents c12 k Hwf12), (getitem_contents c21 k Hwf21).
    rewrite Hl12, Hl21, Hl1, Hl2.
    destruct (py_eq (key_obj k2) k) eqn:Ek2; [|reflexivity].
    apply py_eq_key_obj in Ek2. subst k. rewrite (py_eq_other k1 k2 Hne). reflexivity.
Qed.

Lemma sets_commute_witness :
  exists c12 c21,
    set_all [(KObj 33 2, VObj 8); (KObj 2 3, VObj 9)]
      (mkHAMT (Some (BitmapNode 2 [OKey 1 1; OVal 7])) 1) = Ok c12 /\
    set_all [(KObj 2 3, VObj 9); (KObj 33 2, VObj 8)]
      (mkHAMT (Some (BitmapNode 2 [OKey 1 1; OVal 7])) 1) = Ok c21 /\
    __len__ c12 = __len__ c21 /\
    forall k, __getitem__ c12 k = __getitem__ c21 k.
Proof.
  apply (sets_commute (mkHAMT (Some (BitmapNode 2 [OKey 1 1; OVal 7])) 1)
           (KObj 33 2) (VObj 8) (KObj 2 3) (VObj 9)).
  - apply (reachable_set empty (KObj 1 1) (VObj 7)); [constructor|reflexivity].
  - vm_compute. discriminate.
  - discriminate.
  - discriminate.
  - discriminate.
Defined.



(** X23.  On a reachable container the three lookups agree: either [k]
    is bound to a value, which [c[k]] and [c.get(k, d)] both return, and
    [k in c] is true; or [c[k]] raises [KeyError], [c.get(k, d)] returns
    [d] and [k in c] is false.  No lookup raises another exception. *)
Theorem lookups_agree c k :
  reachable c ->
  (exists v, __getitem__ c k = Ok (val_obj v) /\ __contains__ c k = Ok true /\
             forall d, get c k d = Ok (val_obj v)) \/
  (__getitem__ c k = Raise KeyError /\ __contains__ c k = Ok false /\
   forall d, get c k d = Ok d).
Proof.
  intros Hc. pose proof (reachable_wf c Hc) as Hwf.
  unfold __getitem__, __contains__, get, wf_root in *.
  destruct (_root c) as [root|]; [|right; repeat split].
  destruct (find_wf root 0 0 (hash k) k Hwf) as [E|(v & E)]; rewrite E.
  - right. repeat split.
  - left. exists v. repeat split.
Qed.

Lemma lookups_agree_witness :
  (exists v,
     __getitem__ (mkHAMT (Some (BitmapNode 2 [OKey 1 1; OVal 7])) 1) (KObj 1 1) = Ok (val_obj v) /\
     __contains__ (mkHAMT (Some (BitmapNode 2 [OKey 1 1; OVal 7])) 1) (KObj 1 1) = Ok true /\
     forall d, get (mkHAMT (Some (BitmapNode 2 [OKey 1 1; OVal 7])) 1) (KObj 1 1) d
               = Ok (val_obj v)) \/
  (__getitem__ (mkHAMT (Some (BitmapNode 2 [OKey 1 1; OVal 7])) 1) (KObj 1 1) = Raise KeyError /\
   __contains__ (mkHAMT (Some (BitmapNode 2 [OKey 1 1; OVal 7])) 1) (KObj 1 1) = Ok false /\
   forall d, get (mkHAMT (Some (BitmapNode 2 [OKey 1 1; OVal 7])) 1) (KObj 1 1) d = Ok d).
Proof.
  apply (lookups_agree (mkHAMT (Some (BitmapNode 2 [OKey 1 1; OVal 7])) 1) (KObj 1 1)).
  apply (reachable_set empty (KObj 1 1) (VObj 7)); [constructor|reflexivity].
Defined.
